(** * Dominion swarm: task lifecycle, task manager, policy, resilience
      primitives and workflow sequencing

    A shallow embedding of the orchestration core of the repository
    (TypeScript) and the properties its specification states about it.

    Conventions of the embedding.
    - A class instance is a record; a method that mutates [this] is a
      computation in the state-and-exception monad [M S], whose state
      survives a [throw] exactly as the object survives a JavaScript
      exception.
    - Numbers are integers. In [Task] and the resilience primitives the
      readings of [Date.now()] are arguments of the methods; in the task
      manager, the orchestrator and the runner the clock belongs to the
      world of collaborators, next to the storage and the plugins.
    - Logger calls have no effect on the modelled state and are left out.

    The first part of the file holds the definitions, module by module in
    the order of their dependencies; the second part holds the properties. *)

From Stdlib Require Import QArith Qminmax Qpower Lqa.
From stdpp Require Import base numbers strings list gmap pretty sorting.

Open Scope string_scope.
Open Scope list_scope.
Open Scope stdpp_scope.

(* ===================================================================== *)
(** * JavaScript errors and the state-and-exception monad                *)
(* ===================================================================== *)

(** [new Error(message)]. *)
Inductive JSError : Type :=
  | Error (message : string).

Definition message (e : JSError) : string :=
  match e with Error m => m end.

Definition M (S A : Type) : Type := S → (JSError + A) * S.

Definition ret {S A} (a : A) : M S A := λ s, (inr a, s).

Definition bind {S A B} (m : M S A) (k : A → M S B) : M S B :=
  λ s, match m s with
       | (inl e, s') => (inl e, s')
       | (inr a, s') => k a s'
       end.

Definition throw {S A} (e : JSError) : M S A := λ s, (inl e, s).
Definition get {S} : M S S := λ s, (inr s, s).
Definition gets {S A} (f : S → A) : M S A := λ s, (inr (f s), s).
Definition modify {S} (f : S → S) : M S unit := λ s, (inr tt, f s).

(** [try { body } catch (error) { handler(error) }]. *)
Definition try_catch {S A} (body : M S A) (handler : JSError → M S A) : M S A :=
  λ s, match body s with
       | (inl e, s') => handler e s'
       | (inr a, s') => (inr a, s')
       end.

Notation "'let*' x ':=' c 'in' k" := (bind c (λ x, k))
  (at level 10, x pattern, c at level 100, k at level 200).
Notation "c ';;' k" := (bind c (λ _, k))
  (at level 100, k at level 200, right associativity).

(** The value a computation returned, if it did not throw. *)
Definition returned {A} (r : JSError + A) : option A :=
  match r with inr a => Some a | inl _ => None end.

(** JavaScript truthiness of an optional string: [undefined], [null] and the
    empty string are falsy. *)
Definition truthy_string (o : option string) : option string :=
  match o with
  | Some s => if decide (s = EmptyString) then None else Some s
  | None => None
  end.

(** [a || b] on optional strings. *)
Definition or_string (o : option string) (default : string) : string :=
  match truthy_string o with Some s => s | None => default end.

(* ===================================================================== *)
(** * Task (core/task/task.ts)                                           *)
(* ===================================================================== *)

Module Task.

Inductive TaskStatus : Type :=
  | pending | queued | running | completed | failed | cancelled.

Inductive TaskPriority : Type :=
  | low | normal | high | critical.

#[export] Instance TaskStatus_eq_dec : EqDecision TaskStatus.
Proof. solve_decision. Defined.

#[export] Instance TaskPriority_eq_dec : EqDecision TaskPriority.
Proof. solve_decision. Defined.

(** The string a status prints as inside a template literal. *)
Definition status_name (s : TaskStatus) : string :=
  match s with
  | pending => "pending"
  | queued => "queued"
  | running => "running"
  | completed => "completed"
  | failed => "failed"
  | cancelled => "cancelled"
  end.

(** Payload objects ([TaskInput], [TaskOutput]) are opaque to the task: a
    payload is stood for by its JSON text. *)
Definition TaskInput : Type := string.
Definition TaskOutput : Type := string.

Record TaskConfig : Type := {
  cfg_id : option string;
  cfg_runId : string;
  cfg_type : string;
  cfg_input : TaskInput;
  cfg_parentId : option string;
  cfg_agentId : option string;
  cfg_priority : option TaskPriority;
  cfg_maxRetries : option nat;
  cfg_timeoutMs : option Z;
}.

(** The fields of class [Task]. [retries] and [maxRetries] are counts
    (non-negative integers in TaskSchema of util/schemas.ts). *)
Record Task : Type := {
  id : string;
  runId : string;
  type : string;
  parentId : option string;
  priority : TaskPriority;
  maxRetries : nat;
  timeoutMs : option Z;
  input : TaskInput;
  status : TaskStatus;
  agentId : option string;
  output : option TaskOutput;
  error : option string;
  retries : nat;
  children : list string;
  createdAt : Z;
  startedAt : option Z;
  completedAt : option Z;
}.

Definition set_status (v : TaskStatus) (t : Task) : Task :=
  {| id := id t; runId := runId t; type := type t; parentId := parentId t;
     priority := priority t; maxRetries := maxRetries t; timeoutMs := timeoutMs t;
     input := input t; status := v; agentId := agentId t; output := output t;
     error := error t; retries := retries t; children := children t;
     createdAt := createdAt t; startedAt := startedAt t;
     completedAt := completedAt t |}.

Definition set_agentId (v : option string) (t : Task) : Task :=
  {| id := id t; runId := runId t; type := type t; parentId := parentId t;
     priority := priority t; maxRetries := maxRetries t; timeoutMs := timeoutMs t;
     input := input t; status := status t; agentId := v; output := output t;
     error := error t; retries := retries t; children := children t;
     createdAt := createdAt t; startedAt := startedAt t;
     completedAt := completedAt t |}.

Definition set_output (v : option TaskOutput) (t : Task) : Task :=
  {| id := id t; runId := runId t; type := type t; parentId := parentId t;
     priority := priority t; maxRetries := maxRetries t; timeoutMs := timeoutMs t;
     input := input t; status := status t; agentId := agentId t; output := v;
     error := error t; retries := retries t; children := children t;
     createdAt := createdAt t; startedAt := startedAt t;
     completedAt := completedAt t |}.

Definition set_error (v : option string) (t : Task) : Task :=
  {| id := id t; runId := runId t; type := type t; parentId := parentId t;
     priority := priority t; maxRetries := maxRetries t; timeoutMs := timeoutMs t;
     input := input t; status := status t; agentId := agentId t; output := output t;
     error := v; retries := retries t; children := children t;
     createdAt := createdAt t; startedAt := startedAt t;
     completedAt := completedAt t |}.

Definition set_retries (v : nat) (t : Task) : Task :=
  {| id := id t; runId := runId t; type := type t; parentId := parentId t;
     priority := priority t; maxRetries := maxRetries t; timeoutMs := timeoutMs t;
     input := input t; status := status t; agentId := agentId t; output := output t;
     error := error t; retries := v; children := children t;
     createdAt := createdAt t; startedAt := startedAt t;
     completedAt := completedAt t |}.

Definition set_children (v : list string) (t : Task) : Task :=
  {| id := id t; runId := runId t; type := type t; parentId := parentId t;
     priority := priority t; maxRetries := maxRetries t; timeoutMs := timeoutMs t;
     input := input t; status := status t; agentId := agentId t; output := output t;
     error := error t; retries := retries t; children := v;
     createdAt := createdAt t; startedAt := startedAt t;
     completedAt := completedAt t |}.

Definition set_startedAt (v : option Z) (t : Task) : Task :=
  {| id := id t; runId := runId t; type := type t; parentId := parentId t;
     priority := priority t; maxRetries := maxRetries t; timeoutMs := timeoutMs t;
     input := input t; status := status t; agentId := agentId t; output := output t;
     error := error t; retries := retries t; children := children t;
     createdAt := createdAt t; startedAt := v;
     completedAt := completedAt t |}.

Definition set_completedAt (v : option Z) (t : Task) : Task :=
  {| id := id t; runId := runId t; type := type t; parentId := parentId t;
     priority := priority t; maxRetries := maxRetries t; timeoutMs := timeoutMs t;
     input := input t; status := status t; agentId := agentId t; output := output t;
     error := error t; retries := retries t; children := children t;
     createdAt := createdAt t; startedAt := startedAt t;
     completedAt := v |}.

(** [new Task(config)]; [uuid] is the value [uuidv4()] would return and
    [now] the reading of [Date.now()]. *)
Definition new (config : TaskConfig) (uuid : string) (now : Z) : Task :=
  {| id := or_string (cfg_id config) uuid;
     runId := cfg_runId config;
     type := cfg_type config;
     input := cfg_input config;
     parentId := truthy_string (cfg_parentId config);
     agentId := truthy_string (cfg_agentId config);
     priority := default normal (cfg_priority config);
     maxRetries := default 3 (cfg_maxRetries config);
     timeoutMs := match cfg_timeoutMs config with
                  | Some z => if decide (z = 0%Z) then None else Some z
                  | None => None
                  end;
     createdAt := now;
     status := pending;
     output := None;
     error := None;
     retries := 0;
     children := [];
     startedAt := None;
     completedAt := None |}.

Definition isTerminal (t : Task) : bool :=
  bool_decide (status t ∈ [completed; failed; cancelled]).

Definition canRetry (t : Task) : bool :=
  bool_decide (retries t < maxRetries t) && bool_decide (status t = failed).

(** ** State transitions *)

Definition queue : M Task unit :=
  let* s := gets status in
  if negb (bool_decide (s = pending))
  then throw (Error ("Cannot queue task in status: " +:+ status_name s))
  else modify (set_status queued).

Definition start (agent : option string) (now : Z) : M Task unit :=
  let* s := gets status in
  if negb (bool_decide (s ∈ [pending; queued]))
  then throw (Error ("Cannot start task in status: " +:+ status_name s))
  else
    modify (set_status running);;
    modify (set_startedAt (Some now));;
    match truthy_string agent with
    | Some a => modify (set_agentId (Some a))
    | None => ret tt
    end.

Definition complete (out : TaskOutput) (now : Z) : M Task unit :=
  let* s := gets status in
  if negb (bool_decide (s = running))
  then throw (Error ("Cannot complete task in status: " +:+ status_name s))
  else
    modify (set_status completed);;
    modify (set_output (Some out));;
    modify (set_completedAt (Some now)).

Definition fail (err : string) (now : Z) : M Task unit :=
  let* s := gets status in
  if negb (bool_decide (s = running))
  then throw (Error ("Cannot fail task in status: " +:+ status_name s))
  else
    modify (set_status failed);;
    modify (set_error (Some err));;
    modify (set_completedAt (Some now)).

Definition cancel (now : Z) : M Task unit :=
  let* terminal := gets isTerminal in
  if terminal
  then
    let* s := gets status in
    throw (Error ("Cannot cancel task in status: " +:+ status_name s))
  else
    modify (set_status cancelled);;
    modify (set_completedAt (Some now)).

Definition retry : M Task unit :=
  let* ok := gets canRetry in
  if negb ok
  then
    let* t := get in
    throw (Error ("Cannot retry task: status=" +:+ status_name (status t)
                  +:+ ", retries=" +:+ pretty (retries t)
                  +:+ "/" +:+ pretty (maxRetries t)))
  else
    modify (λ t, set_retries (S (retries t)) t);;
    modify (set_status pending);;
    modify (set_error None);;
    modify (set_startedAt None);;
    modify (set_completedAt None).

(** ** Child tasks *)

Definition addChild (childId : string) : M Task unit :=
  let* cs := gets children in
  if bool_decide (childId ∈ cs) then ret tt
  else modify (set_children (cs ++ [childId])).

(** [splice(index, 1)] at the first index that holds [childId]. *)
Fixpoint remove_at_first (childId : string) (l : list string) : list string :=
  match l with
  | [] => []
  | c :: l' => if bool_decide (c = childId) then l' else c :: remove_at_first childId l'
  end.

Definition removeChild (childId : string) : M Task unit :=
  modify (λ t, set_children (remove_at_first childId (children t)) t).

(** The [duration] getter; a timestamp of 0 is falsy, as is [null]. *)
Definition duration (now : Z) (t : Task) : option Z :=
  match startedAt t with
  | None => None
  | Some started =>
      if bool_decide (started = 0%Z) then None
      else
        let endTime := match completedAt t with
                       | Some done => if bool_decide (done = 0%Z) then now else done
                       | None => now
                       end in
        Some (endTime - started)%Z
  end.

(** ** Calls, as data *)

(** One call of a transition method, with its arguments and the clock
    reading it takes. *)
Inductive Call : Type :=
  | Queue
  | Start (agent : option string) (now : Z)
  | Complete (out : TaskOutput) (now : Z)
  | Fail (err : string) (now : Z)
  | Cancel (now : Z)
  | Retry.

Definition call (c : Call) : M Task unit :=
  match c with
  | Queue => queue
  | Start a now => start a now
  | Complete o now => complete o now
  | Fail e now => fail e now
  | Cancel now => cancel now
  | Retry => retry
  end.

(** The task after a call, whether it returned or threw. *)
Definition after (c : Call) (t : Task) : Task := snd (call c t).

(** The task after a sequence of calls, some of which may throw. *)
Definition after_all (cs : list Call) (t : Task) : Task :=
  foldl (λ t c, after c t) t cs.

(** Whether the task's status permits the transition. *)
Definition permits (c : Call) (t : Task) : bool :=
  match c with
  | Queue => bool_decide (status t = pending)
  | Start _ _ => bool_decide (status t = pending) || bool_decide (status t = queued)
  | Complete _ _ | Fail _ _ => bool_decide (status t = running)
  | Cancel _ =>
      negb (bool_decide (status t = completed) || bool_decide (status t = failed)
            || bool_decide (status t = cancelled))
  | Retry => bool_decide (status t = failed) && bool_decide (retries t < maxRetries t)
  end.


(** Exactly one of [output] and [error] is set (non-null). *)
Definition exactly_one_set (t : Task) : Prop :=
  (is_Some (output t) ∧ error t = None) ∨ (output t = None ∧ is_Some (error t)).

(** The message of the error an illegal transition raises. *)
Definition verb (c : Call) : string :=
  match c with
  | Queue => "queue"
  | Start _ _ => "start"
  | Complete _ _ => "complete"
  | Fail _ _ => "fail"
  | Cancel _ => "cancel"
  | Retry => "retry"
  end.

Definition invalid_transition (c : Call) (t : Task) : JSError :=
  match c with
  | Retry =>
      Error ("Cannot retry task: status=" +:+ status_name (status t)
             +:+ ", retries=" +:+ pretty (retries t)
             +:+ "/" +:+ pretty (maxRetries t))
  | _ => Error ("Cannot " +:+ verb c +:+ " task in status: " +:+ status_name (status t))
  end.

(** The status a permitted call moves the task to. *)
Definition target (c : Call) : TaskStatus :=
  match c with
  | Queue => queued
  | Start _ _ => running
  | Complete _ _ => completed
  | Fail _ _ => failed
  | Cancel _ => cancelled
  | Retry => pending
  end.

(** What [output] and [error] hold in each status. *)
Definition task_invariant (t : Task) : Prop :=
  match status t with
  | completed => is_Some (output t) ∧ error t = None
  | failed => output t = None ∧ is_Some (error t)
  | _ => output t = None ∧ error t = None
  end.

(** ** Child calls and clock readings, as data *)

Inductive ChildCall : Type :=
  | AddChild (childId : string)
  | RemoveChild (childId : string).

Definition child_call (c : ChildCall) : M Task unit :=
  match c with
  | AddChild childId => addChild childId
  | RemoveChild childId => removeChild childId
  end.

Definition after_child_calls (cs : list ChildCall) (t : Task) : Task :=
  foldl (λ t c, snd (child_call c t)) t cs.

(** The clock reading a call takes, if it is one that stamps the time. *)
Definition call_time (c : Call) : option Z :=
  match c with
  | Start _ now | Complete _ now | Fail _ now | Cancel now => Some now
  | Queue | Retry => None
  end.

(** The clock readings of the calls [cs], made after a reading [m], do not
    run backwards. *)
Fixpoint clock_monotone (m : Z) (cs : list Call) : Prop :=
  match cs with
  | [] => True
  | c :: cs' =>
      match call_time c with
      | Some now => (m ≤ now)%Z ∧ clock_monotone now cs'
      | None => clock_monotone m cs'
      end
  end.

(** The last clock reading of the calls [cs], made after a reading [m]. *)
Fixpoint last_reading (m : Z) (cs : list Call) : Z :=
  match cs with
  | [] => m
  | c :: cs' => last_reading (default m (call_time c)) cs'
  end.

(** Which of [startedAt] and [completedAt] are set in each status. *)
Definition timestamps_invariant (t : Task) : Prop :=
  match status t with
  | pending | queued => startedAt t = None ∧ completedAt t = None
  | running => is_Some (startedAt t) ∧ completedAt t = None
  | completed | failed => is_Some (startedAt t) ∧ is_Some (completedAt t)
  | cancelled => is_Some (completedAt t)
  end.

(** Time stamps lie in order, between the clock readings [lo] and [hi]. *)
Definition stamps_ordered (lo hi : Z) (t : Task) : Prop :=
  match startedAt t, completedAt t with
  | Some s, Some e => (lo ≤ s ∧ s ≤ e ∧ e ≤ hi)%Z
  | Some s, None => (lo ≤ s ∧ s ≤ hi)%Z
  | None, Some e => (lo ≤ e ∧ e ≤ hi)%Z
  | None, None => True
  end.

(** No call can change the task any more: it is completed or cancelled, or
    it has failed with its retries used up. *)
Definition settled (t : Task) : Prop :=
  status t = completed ∨ status t = cancelled
  ∨ (status t = failed ∧ (maxRetries t ≤ retries t)%nat).

(** Sample data. *)
Definition sample_config : TaskConfig :=
  {| cfg_id := Some "t1"; cfg_runId := "run-1"; cfg_type := "observe:scan";
     cfg_input := "{}"; cfg_parentId := None; cfg_agentId := None;
     cfg_priority := None; cfg_maxRetries := Some 2; cfg_timeoutMs := None |}.

End Task.


(* ===================================================================== *)
(** * Rate limiter and circuit breaker (util/retry.ts)                   *)
(* ===================================================================== *)

Module Retry.

(** [RetryOptions], as [withRetry] holds them once the defaults are merged
    in. [maxAttempts] is an integer; the delays are rationals, in exact
    arithmetic. *)
Record RetryOptions : Type := {
  maxAttempts : Z;
  baseDelayMs : Q;
  maxDelayMs : Q;
  backoffMultiplier : option Q;
  retryableErrors : option (JSError → bool);
}.

(** [Partial<RetryOptions>]: a key that is absent is [None]. *)
Record PartialRetryOptions : Type := {
  opt_maxAttempts : option Z;
  opt_baseDelayMs : option Q;
  opt_maxDelayMs : option Q;
  opt_backoffMultiplier : option Q;
  opt_retryableErrors : option (JSError → bool);
}.

Definition DEFAULT_RETRY_OPTIONS : RetryOptions :=
  {| maxAttempts := 3; baseDelayMs := 1000; maxDelayMs := 30000;
     backoffMultiplier := Some 2%Q; retryableErrors := None |}.

(** [{ ...DEFAULT_RETRY_OPTIONS, ...options }]. *)
Definition merge (options : PartialRetryOptions) : RetryOptions :=
  {| maxAttempts := default (maxAttempts DEFAULT_RETRY_OPTIONS) (opt_maxAttempts options);
     baseDelayMs := default (baseDelayMs DEFAULT_RETRY_OPTIONS) (opt_baseDelayMs options);
     maxDelayMs := default (maxDelayMs DEFAULT_RETRY_OPTIONS) (opt_maxDelayMs options);
     backoffMultiplier :=
       match opt_backoffMultiplier options with
       | Some m => Some m
       | None => backoffMultiplier DEFAULT_RETRY_OPTIONS
       end;
     retryableErrors :=
       match opt_retryableErrors options with
       | Some f => Some f
       | None => retryableErrors DEFAULT_RETRY_OPTIONS
       end |}.

(** [calculateBackoff(attempt, baseDelayMs, maxDelayMs, multiplier = 2)];
    [random] is the value [Math.random()] returns. *)
Definition calculateBackoff (random : Q) (attempt : Z) (base cap : Q)
    (multiplier : option Q) : Q :=
  let delay := (base * Qpower (default 2%Q multiplier) (attempt - 1))%Q in
  let jitter := (delay * (1 # 10) * (random * 2 - 1))%Q in
  Qmin (delay + jitter) cap.

(** The delay before jitter and cap. *)
Definition nominal_delay (attempt : Z) (base : Q) (multiplier : option Q) : Q :=
  (base * Qpower (default 2%Q multiplier) (attempt - 1))%Q.

Section WithRetry.
Context {W T : Type}.

(** The random source and the timer of the host, acting on the world. *)
Variable Math_random : W → Q * W.
Variable sleep : Q → W → W.

(** [opts.retryableErrors && !opts.retryableErrors(lastError)]. *)
Definition gives_up (opts : RetryOptions) (error : JSError) : bool :=
  match retryableErrors opts with
  | Some retryable => negb (retryable error)
  | None => false
  end.

(** The [for (let attempt = 1; attempt <= opts.maxAttempts; attempt++)]
    loop of [withRetry] and the [throw lastError] behind it, from the
    iteration [attempt] on; [remaining] is the number of iterations left,
    [maxAttempts - attempt + 1]. The value thrown is an error, or
    [undefined] when [lastError] was never assigned. *)
Fixpoint attempts (opts : RetryOptions) (fn : M W T) (remaining : nat)
    (attempt : Z) (lastError : option JSError) (w : W)
    : (option JSError + T) * W :=
  match remaining with
  | O => (inl lastError, w)
  | S remaining' =>
      match fn w with
      | (inr result, w1) => (inr result, w1)
      | (inl error, w1) =>
          if gives_up opts error then (inl (Some error), w1)
          else
            let w2 :=
              if bool_decide (attempt < maxAttempts opts)%Z
              then
                match Math_random w1 with
                | (random, w') =>
                    sleep (calculateBackoff random attempt (baseDelayMs opts)
                             (maxDelayMs opts) (backoffMultiplier opts)) w'
                end
              else w1 in
            attempts opts fn remaining' (attempt + 1) (Some error) w2
      end
  end.

Definition withRetry (fn : M W T) (options : PartialRetryOptions)
    : W → (option JSError + T) * W :=
  let opts := merge options in
  attempts opts fn (Z.to_nat (maxAttempts opts)) 1 None.

End WithRetry.

(** A world that keeps a journal of what [withRetry] does to it: the
    outcome of every call of the function, in order, and the delay of every
    sleep. *)
Record Journal (W T : Type) : Type := {
  outcomes : list (JSError + T);
  sleeps : list Q;
  world : W;
}.
Arguments outcomes {W T} _.
Arguments sleeps {W T} _.
Arguments world {W T} _.

Definition journal {W T} (w : W) : Journal W T :=
  {| outcomes := []; sleeps := []; world := w |}.

Definition journaled_fn {W T} (fn : M W T) : M (Journal W T) T :=
  λ j, match fn (world j) with
       | (r, w') => (r, {| outcomes := outcomes j ++ [r]; sleeps := sleeps j;
                           world := w' |})
       end.

Definition journaled_sleep {W T} (sleep : Q → W → W) (delay : Q)
    (j : Journal W T) : Journal W T :=
  {| outcomes := outcomes j; sleeps := sleeps j ++ [delay];
     world := sleep delay (world j) |}.

Definition journaled_random {W T} (Math_random : W → Q * W) (j : Journal W T)
    : Q * Journal W T :=
  match Math_random (world j) with
  | (random, w') => (random, {| outcomes := outcomes j; sleeps := sleeps j;
                                world := w' |})
  end.

(** Whether [withRetry] goes on after the error. *)
Definition retryable (opts : RetryOptions) (error : JSError) : Prop :=
  gives_up opts error = false.

(** What the journal holds when [withRetry] is done with [r]: at most
    [maxAttempts] calls, one sleep between two calls and none after the
    last, no sleep longer than [maxDelayMs], every outcome an outcome of
    [fn]; and how [r] follows from the calls. *)
Definition journal_closed {W T} (fn : M W T) (opts : RetryOptions)
    (r : option JSError + T) (j : Journal W T) : Prop :=
  (length (outcomes j) ≤ Z.to_nat (maxAttempts opts))%nat
  ∧ length (sleeps j) = Nat.pred (length (outcomes j))
  ∧ Forall (λ delay, delay <= maxDelayMs opts)%Q (sleeps j)
  ∧ Forall (λ o, ∃ w, fst (fn w) = o) (outcomes j)
  ∧ match r with
    | inr result =>
        ∃ errors, outcomes j = (inl <$> errors) ++ [inr result]
                  ∧ Forall (retryable opts) errors
    | inl (Some error) =>
        ∃ errors, outcomes j = inl <$> (errors ++ [error])
                  ∧ Forall (retryable opts) errors
                  ∧ (length (outcomes j) = Z.to_nat (maxAttempts opts)
                     ∨ ¬ retryable opts error)
    | inl None => outcomes j = [] ∧ (maxAttempts opts ≤ 0)%Z
    end.

(** Sample data: a function that fails while the counter it reads is below
    [n], and counts its calls. *)
Definition flaky (n : nat) : M nat string :=
  λ k, if bool_decide (k < n)%nat
       then (inl (Error ("attempt " +:+ pretty k)), S k)
       else (inr "done", S k).

(** A function that throws at every call, and counts its calls. *)
Definition hopeless : M nat string :=
  λ k, (inl (Error ("attempt " +:+ pretty k)), S k).

Definition sample_retry_options : PartialRetryOptions :=
  {| opt_maxAttempts := Some 3%Z; opt_baseDelayMs := Some 10%Q;
     opt_maxDelayMs := None; opt_backoffMultiplier := None;
     opt_retryableErrors := None |}.

End Retry.

Module RateLimiter.

Record RateLimiterOptions : Type := {
  opt_maxRequests : Z;
  opt_windowMs : Z;
}.

Record RateLimiter : Type := {
  requests : list Z;
  maxRequests : Z;
  windowMs : Z;
}.

Definition new (options : RateLimiterOptions) : RateLimiter :=
  {| requests := [];
     maxRequests := opt_maxRequests options;
     windowMs := opt_windowMs options |}.

Definition set_requests (v : list Z) (rl : RateLimiter) : RateLimiter :=
  {| requests := v; maxRequests := maxRequests rl; windowMs := windowMs rl |}.

(** The timestamps of [rl] that lie within the window at time [now]. *)
Definition in_window (now : Z) (rl : RateLimiter) : list Z :=
  filter (λ t, now - t < windowMs rl)%Z (requests rl).

Definition cleanup (now : Z) : M RateLimiter unit :=
  modify (λ rl, set_requests (in_window now rl) rl).

Definition remaining (now : Z) : M RateLimiter Z :=
  cleanup now;;
  let* rl := get in
  ret (Z.max 0 (maxRequests rl - Z.of_nat (length (requests rl)))).

Definition reset : M RateLimiter unit := modify (set_requests []).

(** [acquire()]; the four arguments are the clock readings of its four
    [Date.now()] calls, the third and fourth taken after the sleep when
    there is one. A first timestamp of 0 is falsy, as is a missing one. *)
Definition acquire (now1 now2 now3 now4 : Z) : M RateLimiter unit :=
  cleanup now1;;
  let* rl := get in
  (if bool_decide (maxRequests rl ≤ Z.of_nat (length (requests rl)))%Z
   then
     match requests rl !! 0%nat with
     | Some oldestRequest =>
         if bool_decide (oldestRequest = 0%Z) then ret tt
         else
           let waitTime := (windowMs rl - (now2 - oldestRequest))%Z in
           if bool_decide (0 < waitTime)%Z then cleanup now3 else ret tt
     | None => ret tt
     end
   else ret tt);;
  modify (λ rl, set_requests (requests rl ++ [now4]) rl).










(** Sample data. *)
Definition sample : RateLimiter :=
  {| requests := [0; 95]%Z; maxRequests := 5; windowMs := 10 |}.

End RateLimiter.

Module CircuitBreaker.

Inductive CircuitState : Type := CLOSED | OPEN | HALF_OPEN.

#[export] Instance CircuitState_eq_dec : EqDecision CircuitState.
Proof. solve_decision. Defined.

Record CircuitBreakerOptions : Type := {
  opt_failureThreshold : Z;
  opt_resetTimeoutMs : Z;
  opt_halfOpenRequests : option Z;
}.

(** The two counters start at 0 and are only incremented or set to 0. *)
Record CircuitBreaker : Type := {
  state : CircuitState;
  failures : nat;
  lastFailureTime : Z;
  halfOpenSuccesses : nat;
  failureThreshold : Z;
  resetTimeoutMs : Z;
  halfOpenRequests : Z;
}.

Definition new (options : CircuitBreakerOptions) : CircuitBreaker :=
  {| state := CLOSED;
     failures := 0;
     lastFailureTime := 0;
     halfOpenSuccesses := 0;
     failureThreshold := opt_failureThreshold options;
     resetTimeoutMs := opt_resetTimeoutMs options;
     halfOpenRequests := default 1%Z (opt_halfOpenRequests options) |}.

Definition set_state (v : CircuitState) (cb : CircuitBreaker) : CircuitBreaker :=
  {| state := v; failures := failures cb; lastFailureTime := lastFailureTime cb;
     halfOpenSuccesses := halfOpenSuccesses cb;
     failureThreshold := failureThreshold cb; resetTimeoutMs := resetTimeoutMs cb;
     halfOpenRequests := halfOpenRequests cb |}.

Definition set_failures (v : nat) (cb : CircuitBreaker) : CircuitBreaker :=
  {| state := state cb; failures := v; lastFailureTime := lastFailureTime cb;
     halfOpenSuccesses := halfOpenSuccesses cb;
     failureThreshold := failureThreshold cb; resetTimeoutMs := resetTimeoutMs cb;
     halfOpenRequests := halfOpenRequests cb |}.

Definition set_lastFailureTime (v : Z) (cb : CircuitBreaker) : CircuitBreaker :=
  {| state := state cb; failures := failures cb; lastFailureTime := v;
     halfOpenSuccesses := halfOpenSuccesses cb;
     failureThreshold := failureThreshold cb; resetTimeoutMs := resetTimeoutMs cb;
     halfOpenRequests := halfOpenRequests cb |}.

Definition set_halfOpenSuccesses (v : nat) (cb : CircuitBreaker) : CircuitBreaker :=
  {| state := state cb; failures := failures cb; lastFailureTime := lastFailureTime cb;
     halfOpenSuccesses := v;
     failureThreshold := failureThreshold cb; resetTimeoutMs := resetTimeoutMs cb;
     halfOpenRequests := halfOpenRequests cb |}.

Definition onSuccess : M CircuitBreaker unit :=
  let* s := gets state in
  if bool_decide (s = HALF_OPEN)
  then
    modify (λ cb, set_halfOpenSuccesses (S (halfOpenSuccesses cb)) cb);;
    let* cb := get in
    if bool_decide (halfOpenRequests cb ≤ Z.of_nat (halfOpenSuccesses cb))%Z
    then modify (set_state CLOSED);; modify (set_failures 0)
    else ret tt
  else modify (set_failures 0).

Definition onFailure (now : Z) : M CircuitBreaker unit :=
  modify (λ cb, set_failures (S (failures cb)) cb);;
  modify (set_lastFailureTime now);;
  let* cb := get in
  if bool_decide (state cb = HALF_OPEN)
     || bool_decide (failureThreshold cb ≤ Z.of_nat (failures cb))%Z
  then modify (set_state OPEN)
  else ret tt.

(** A breaker method, run on the breaker half of the state. *)
Definition on_breaker {W A} (m : M CircuitBreaker A) : M (CircuitBreaker * W) A :=
  λ '(cb, w), match m cb with (r, cb') => (r, (cb', w)) end.

(** The guarded function, run on the world it acts on. *)
Definition on_world {W A} (fn : M W A) : M (CircuitBreaker * W) A :=
  λ '(cb, w), match fn w with (r, w') => (r, (cb, w')) end.

(** [execute(fn)]. The guarded function [fn] is a computation over an
    outside world [W], which records whether and how it ran; [checkedAt] is
    the clock reading of the time-out test and [failedAt] that of
    [onFailure]. *)
Definition execute {W T} (checkedAt failedAt : Z) (fn : M W T)
    : M (CircuitBreaker * W) T :=
  let* cb := on_breaker get in
  (if bool_decide (state cb = OPEN)
   then
     if bool_decide (resetTimeoutMs cb ≤ checkedAt - lastFailureTime cb)%Z
     then
       on_breaker (modify (set_state HALF_OPEN));;
       on_breaker (modify (set_halfOpenSuccesses 0))
     else throw (Error "Circuit breaker is open")
   else ret tt);;
  try_catch
    (let* result := on_world fn in
     on_breaker onSuccess;;
     ret result)
    (λ error, on_breaker (onFailure failedAt);; throw error).

(** The probing state an open breaker moves to when its time-out is over. *)
Definition half_opened (cb : CircuitBreaker) : CircuitBreaker :=
  set_halfOpenSuccesses 0 (set_state HALF_OPEN cb).

Definition getState (cb : CircuitBreaker) : CircuitState := state cb.

Definition reset : M CircuitBreaker unit :=
  modify (set_state CLOSED);;
  modify (set_failures 0);;
  modify (set_halfOpenSuccesses 0).

(** One [execute] call: its two clock readings and its guarded function. *)
Definition ExecuteCall (W T : Type) : Type := Z * Z * M W T.

(** The breaker and the world after an [execute] call, whatever it
    returned. *)
Definition after_execute {W T} (c : ExecuteCall W T)
    (s : CircuitBreaker * W) : CircuitBreaker * W :=
  match c with
  | (checkedAt, failedAt, fn) => snd (execute checkedAt failedAt fn s)
  end.

Definition after_executes {W T} (cs : list (ExecuteCall W T))
    (s : CircuitBreaker * W) : CircuitBreaker * W :=
  foldl (λ s c, after_execute c s) s cs.

(** The guarded function throws wherever it is run. *)
Definition always_fails {W T} (fn : M W T) : Prop :=
  ∀ w, ∃ e w', fn w = (inl e, w').

(** The guarded function returns wherever it is run. *)
Definition always_succeeds {W T} (fn : M W T) : Prop :=
  ∀ w, ∃ result w', fn w = (inr result, w').

(** A scripted call: an [execute] call and whether its guarded function
    returns ([true]) or throws ([false]). *)
Definition scripted {W T} (c : ExecuteCall W T * bool) : Prop :=
  if snd c then always_succeeds (snd (fst c)) else always_fails (snd (fst c)).

(** Along [outcomes], after [run] failures in a row, no run of failures
    reaches [threshold]. *)
Fixpoint runs_below (threshold : Z) (run : nat) (outcomes : list bool) : Prop :=
  match outcomes with
  | [] => True
  | true :: rest => runs_below threshold 0 rest
  | false :: rest =>
      (Z.of_nat (S run) < threshold)%Z ∧ runs_below threshold (S run) rest
  end.

(** The number of failures in a row at the end of [outcomes], after [run]
    failures in a row. *)
Fixpoint trailing_failures (run : nat) (outcomes : list bool) : nat :=
  match outcomes with
  | [] => run
  | true :: rest => trailing_failures 0 rest
  | false :: rest => trailing_failures (S run) rest
  end.

(** While the breaker is closed its failure count is below the threshold. *)
Definition closed_below_threshold (cb : CircuitBreaker) : Prop :=
  state cb = CLOSED → (Z.of_nat (failures cb) < failureThreshold cb)%Z.

(** Sample data: a guarded function that counts its invocations in the
    world and throws, and one that counts them and returns. *)
Definition failing_fn : M nat string := λ n, (inl (Error "fail"), S n).
Definition succeeding_fn : M nat string := λ n, (inr "success", S n).

Definition sample_options : CircuitBreakerOptions :=
  {| opt_failureThreshold := 2; opt_resetTimeoutMs := 1000;
     opt_halfOpenRequests := None |}.

Definition sample_open : CircuitBreaker :=
  {| state := OPEN; failures := 2; lastFailureTime := 5000;
     halfOpenSuccesses := 0; failureThreshold := 2; resetTimeoutMs := 1000;
     halfOpenRequests := 1 |}.

End CircuitBreaker.

(* ===================================================================== *)
(** * Policy (core/policy/policy.ts)                                     *)
(* ===================================================================== *)

(** Values of type [unknown]: the JavaScript values a rule or a call
    parameter can hold. Numbers are integers. *)
#[local] Unset Elimination Schemes.
Inductive JSValue : Type :=
  | JUndefined
  | JNull
  | JBool (b : bool)
  | JNum (n : Z)
  | JStr (s : string)
  | JArr (items : list JSValue).
#[local] Set Elimination Schemes.

(** What the host language supplies: [String(v)], the numeric conversion a
    relational operator applies to its operand ([None] is NaN), and
    [new RegExp(pattern).test(s)], which throws on a pattern the engine
    rejects. *)
Class Host : Type := {
  js_String : JSValue → string;
  ToNumber : JSValue → option Z;
  RegExp_test : string → string → JSError + bool;
}.

(** [hay.includes(needle)]. *)
Fixpoint includes (needle hay : string) : bool :=
  String.prefix needle hay
  || match hay with
     | EmptyString => false
     | String _ rest => includes needle rest
     end.

(** [s === v] for a string [s]. *)
Definition string_is (s : string) (v : JSValue) : bool :=
  match v with
  | JStr s' => bool_decide (s = s')
  | _ => false
  end.

(** [a === b]. Two arrays are two objects, never identical. *)
Definition strict_equals (a b : JSValue) : bool :=
  match a, b with
  | JUndefined, JUndefined => true
  | JNull, JNull => true
  | JBool x, JBool y => bool_decide (x = y)
  | JNum x, JNum y => bool_decide (x = y)
  | JStr x, JStr y => bool_decide (x = y)
  | _, _ => false
  end.

Module Policy.

Inductive PolicyAction : Type := allow | deny | require_approval.

#[export] Instance PolicyAction_eq_dec : EqDecision PolicyAction.
Proof. solve_decision. Defined.

Inductive ConditionType : Type := tool | role | time | rate | custom.

Inductive Operator : Type := equals | contains | matches | gt | lt | gte | lte.

Record PolicyCondition : Type := {
  type : ConditionType;
  operator : Operator;
  value : JSValue;
  field : option string;
}.

Record PolicyRule : Type := {
  id : string;
  name : string;
  description : option string;
  condition : PolicyCondition;
  action : PolicyAction;
  priority : Z;
}.

Record PolicyEvaluationResult : Type := {
  allowed : bool;
  res_action : PolicyAction;
  matchedRule : option PolicyRule;
  reason : option string;
}.

(** The fields of an [Agent] a policy reads. *)
Record Agent : Type := {
  agent_id : string;
  agent_role : string;
}.

Record PolicyConfig : Type := {
  cfg_id : string;
  cfg_name : string;
  cfg_description : option string;
  cfg_defaultAction : option PolicyAction;
  cfg_rules : option (list PolicyRule);
}.

Record Policy : Type := {
  policy_id : string;
  policy_name : string;
  policy_description : option string;
  rules : list PolicyRule;
  defaultAction : PolicyAction;
}.

Definition set_rules (v : list PolicyRule) (p : Policy) : Policy :=
  {| policy_id := policy_id p; policy_name := policy_name p;
     policy_description := policy_description p; rules := v;
     defaultAction := defaultAction p |}.

(** [rules.sort((a, b) => b.priority - a.priority)]. The sort of the
    language is stable, and the stable arrangement by non-increasing
    priority is unique; insertion from the right computes it: a rule goes
    behind the rules of strictly higher priority and before the others. *)
Fixpoint insert_rule (r : PolicyRule) (l : list PolicyRule) : list PolicyRule :=
  match l with
  | [] => [r]
  | y :: l' =>
      if bool_decide (priority r < priority y)%Z
      then y :: insert_rule r l'
      else r :: y :: l'
  end.

Definition sort_rules (l : list PolicyRule) : list PolicyRule :=
  foldr insert_rule [] l.

Definition new (config : PolicyConfig) : Policy :=
  {| policy_id := cfg_id config;
     policy_name := cfg_name config;
     policy_description := cfg_description config;
     defaultAction := default deny (cfg_defaultAction config);
     rules := match cfg_rules config with
              | Some rs => sort_rules rs
              | None => []
              end |}.

Definition addRule (rule : PolicyRule) : M Policy unit :=
  modify (λ p, set_rules (rules p ++ [rule]) p);;
  modify (λ p, set_rules (sort_rules (rules p)) p).

(** [rules.splice(index, 1)] at the first index whose rule has the id. *)
Fixpoint remove_first (ruleId : string) (l : list PolicyRule)
    : option (list PolicyRule) :=
  match l with
  | [] => None
  | r :: l' =>
      if bool_decide (id r = ruleId) then Some l'
      else option_map (cons r) (remove_first ruleId l')
  end.

Definition removeRule (ruleId : string) : M Policy bool :=
  let* p := get in
  match remove_first ruleId (rules p) with
  | Some l => modify (set_rules l);; ret true
  | None => ret false
  end.

Definition getRules (p : Policy) : list PolicyRule := rules p.

(** The [context] object of [evaluate]. *)
Record Context : Type := {
  ctx_agent : Agent;
  ctx_toolName : string;
  ctx_params : gmap string JSValue;
  ctx_timestamp : Z;
}.

Section Evaluation.
Context `{Host}.

Definition evaluateToolCondition (c : PolicyCondition) (toolName : string)
    : JSError + bool :=
  match operator c with
  | equals => inr (string_is toolName (value c))
  | contains => inr (includes (js_String (value c)) toolName)
  | matches => RegExp_test (js_String (value c)) toolName
  | _ => inr false
  end.

Definition evaluateRoleCondition (c : PolicyCondition) (role : string)
    : JSError + bool :=
  match operator c with
  | equals => inr (string_is role (value c))
  | contains =>
      match value c with
      | JArr items => inr (existsb (string_is role) items)
      | _ => inr false
      end
  | _ => inr false
  end.

Definition is_number_and (v : JSValue) (test : Z → Z → bool) (expected : JSValue)
    : bool :=
  match v with
  | JNum n => match ToNumber expected with
              | Some m => test n m
              | None => false
              end
  | _ => false
  end.

Definition evaluateCustomCondition (c : PolicyCondition) (ctx : Context)
    : JSError + bool :=
  match truthy_string (field c) with
  | None => inr false
  | Some f =>
      let v := default JUndefined (ctx_params ctx !! f) in
      match operator c with
      | equals => inr (strict_equals v (value c))
      | gt => inr (is_number_and v Z.gtb (value c))
      | lt => inr (is_number_and v Z.ltb (value c))
      | gte => inr (is_number_and v Z.geb (value c))
      | lte => inr (is_number_and v Z.leb (value c))
      | _ => inr false
      end
  end.

Definition evaluateCondition (c : PolicyCondition) (ctx : Context)
    : JSError + bool :=
  match type c with
  | tool => evaluateToolCondition c (ctx_toolName ctx)
  | role => evaluateRoleCondition c (agent_role (ctx_agent ctx))
  | custom => evaluateCustomCondition c ctx
  | _ => inr false
  end.

Definition matched (rule : PolicyRule) : PolicyEvaluationResult :=
  {| allowed := bool_decide (action rule = allow);
     res_action := action rule;
     matchedRule := Some rule;
     reason := Some (or_string (description rule)
                       ("Matched rule: " +:+ name rule)) |}.

Definition unmatched (p : Policy) : PolicyEvaluationResult :=
  {| allowed := bool_decide (defaultAction p = allow);
     res_action := defaultAction p;
     matchedRule := None;
     reason := Some "No matching rule found, using default policy" |}.

(** The [for (const rule of this.rules)] loop of [evaluate]. *)
Fixpoint first_match (ctx : Context) (l : list PolicyRule)
    : JSError + option PolicyRule :=
  match l with
  | [] => inr None
  | rule :: l' =>
      match evaluateCondition (condition rule) ctx with
      | inl error => inl error
      | inr true => inr (Some rule)
      | inr false => first_match ctx l'
      end
  end.

(** [evaluate(agent, toolName, params)]; [now] is the clock reading stored
    in the context. *)
Definition evaluate (p : Policy) (agent : Agent) (toolName : string)
    (params : gmap string JSValue) (now : Z) : JSError + PolicyEvaluationResult :=
  let context := {| ctx_agent := agent; ctx_toolName := toolName;
                    ctx_params := params; ctx_timestamp := now |} in
  match first_match context (rules p) with
  | inl error => inl error
  | inr (Some rule) => inr (matched rule)
  | inr None => inr (unmatched p)
  end.

Definition checkPermission (p : Policy) (agent : Agent) (toolName : string)
    (params : gmap string JSValue) (now : Z) : JSError + bool :=
  match evaluate p agent toolName params now with
  | inl error => inl error
  | inr result => inr (allowed result)
  end.

(** Whether [rule] matches the call, does not match it, or cannot be
    evaluated; the clock reading plays no part. *)
Definition rule_matches (rule : PolicyRule) (agent : Agent) (toolName : string)
    (params : gmap string JSValue) : JSError + bool :=
  evaluateCondition (condition rule)
    {| ctx_agent := agent; ctx_toolName := toolName; ctx_params := params;
       ctx_timestamp := 0 |}.

(** The policy decides the call with [a]: [evaluate] returns, with action
    [a], and the call is allowed exactly when [a] is allow. *)
Definition decides (p : Policy) (agent : Agent) (toolName : string)
    (params : gmap string JSValue) (now : Z) (a : PolicyAction) : Prop :=
  ∃ result, evaluate p agent toolName params now = inr result
            ∧ res_action result = a
            ∧ allowed result = bool_decide (a = allow)
            ∧ checkPermission p agent toolName params now
              = inr (bool_decide (a = allow)).

End Evaluation.

(** The policy after a sequence of [addRule] calls. *)
Definition add_all (added : list PolicyRule) (p : Policy) : Policy :=
  foldl (λ p r, snd (addRule r p)) p added.

(** Non-increasing priority along the list. *)
Definition by_priority (l : list PolicyRule) : Prop :=
  StronglySorted (λ a b, priority b ≤ priority a)%Z l.

(** ** Policy presets *)

(** A rule on the tool name with the [contains] operator, as the presets
    write them. *)
Definition contains_rule (ruleId ruleName needle : string) (a : PolicyAction)
    (prio : Z) : PolicyRule :=
  {| id := ruleId; name := ruleName; description := None;
     condition := {| type := tool; operator := contains; value := JStr needle;
                     field := None |};
     action := a; priority := prio |}.

Definition createReadOnlyPolicy (policyId : string) : Policy :=
  new {| cfg_id := policyId;
         cfg_name := "Read Only";
         cfg_description := Some "Only allows read operations";
         cfg_defaultAction := Some deny;
         cfg_rules := Some
           [contains_rule "allow-read" "Allow Read Operations" "read" allow 100;
            contains_rule "allow-get" "Allow Get Operations" "get" allow 100;
            contains_rule "allow-list" "Allow List Operations" "list" allow 100;
            contains_rule "allow-watch" "Allow Watch Operations" "watch" allow 100] |}.

Definition createApprovalRequiredPolicy (policyId : string) : Policy :=
  new {| cfg_id := policyId;
         cfg_name := "Approval Required";
         cfg_description := Some "Requires approval for all actions";
         cfg_defaultAction := Some require_approval;
         cfg_rules := Some [] |}.

Definition createExecutorPolicy (policyId : string) : Policy :=
  new {| cfg_id := policyId;
         cfg_name := "Executor Policy";
         cfg_description := Some "Policy for executor agents";
         cfg_defaultAction := Some deny;
         cfg_rules := Some
           [contains_rule "allow-execute" "Allow Execute Operations" "execute"
              require_approval 100;
            contains_rule "allow-webhook" "Allow Webhook Operations" "webhook"
              allow 90;
            contains_rule "allow-file" "Allow File Write to Reports" "file_write"
              allow 90] |}.

(** ** Conditions that cannot match *)

(** The conditions for which [evaluateCondition] has no case that can
    return true: those of type time or rate, those whose operator their
    type does not handle, and custom conditions without a field. *)
Definition never_matches (c : PolicyCondition) : bool :=
  match type c with
  | time | rate => true
  | tool => match operator c with equals | contains | matches => false | _ => true end
  | role => match operator c with equals | contains => false | _ => true end
  | custom =>
      match truthy_string (field c) with
      | None => true
      | Some _ => match operator c with contains | matches => true | _ => false end
      end
  end.

(** [String(s)] is [s] for a string [s]. *)
Definition String_of_string `{Host} : Prop := ∀ s, js_String (JStr s) = s.

(** Sample data. *)
Definition sample_host : Host :=
  {| js_String := λ v, match v with JStr s => s | _ => EmptyString end;
     ToNumber := λ v, match v with JNum n => Some n | _ => None end;
     RegExp_test := λ pattern s, inr (includes pattern s) |}.

Definition tool_rule (id : string) (op : Operator) (v : string)
    (a : PolicyAction) (prio : Z) : PolicyRule :=
  {| id := id; name := id; description := None;
     condition := {| type := tool; operator := op; value := JStr v;
                     field := None |};
     action := a; priority := prio |}.

Definition sample_agent : Agent := {| agent_id := "a1"; agent_role := "executor" |}.

End Policy.

(* ===================================================================== *)
(** * Collaborators: storage, plugins, identifiers and the clock         *)
(* ===================================================================== *)

(** Objects of type [Record<string, unknown>]. *)
Abbreviation Obj := (gmap string JSValue).

(** [{ ...a, ...b }]: the keys of [b] win; spreading [undefined] adds
    nothing. *)
Definition spread (a b : option Obj) : Obj :=
  default ∅ b ∪ default ∅ a.

(** Inputs and rows of the repositories (db/repositories). An optional
    field that may also be [null] is an option of an option. *)
Record CreateTaskInput : Type := {
  cti_id : option string;
  cti_runId : string;
  cti_type : string;
  cti_parentId : option string;
  cti_agentId : option string;
  cti_priority : option string;
  cti_input : option string;
  cti_maxRetries : option nat;
}.

Record UpdateTaskInput : Type := {
  uti_status : option string;
  uti_agentId : option (option string);
  uti_output : option (option string);
  uti_error : option (option string);
  uti_retries : option nat;
  uti_startedAt : option (option Z);
  uti_completedAt : option (option Z);
}.

(** The columns of a task row the core reads. *)
Record TaskRow : Type := {
  row_id : string;
  row_run_id : string;
  row_type : string;
  row_status : string;
}.

Record CreateRunInput : Type := {
  cri_id : option string;
  cri_workflowId : string;
  cri_config : option Obj;
}.

Record UpdateRunInput : Type := {
  uri_status : option string;
  uri_summary : option Obj;
  uri_startedAt : option Z;
  uri_completedAt : option Z;
}.

Record RunRow : Type := {
  run_id : string;
  run_workflow_id : string;
  run_status : string;
}.

Record AnalysisRow : Type := { analysis_score : Z }.
Record ActionRow : Type := { action_status : string }.
Record ObservationRow : Type := { observation_id : string }.

(** What a plugin's [execute] resolves to. *)
Record PluginResult : Type := {
  success : bool;
  data : option Obj;
  plugin_error : option string;
}.

(** The context handed to a plugin; its handles to the configuration, the
    storage, the model provider and the logger are part of the world. *)
Record PluginContext : Type := {
  pc_runId : string;
  pc_taskId : string;
  pc_dryRun : bool;
}.

(** The collaborators of the core, acting on a world of their own. A
    storage or plugin call may throw; reading the clock and drawing an
    identifier do not. *)
Class Collaborators : Type := {
  World : Type;
  Plugin : Type;
  Date_now : World → Z * World;
  uuidv4 : World → string * World;
  nanoid : World → string * World;
  JSON_stringify : Obj → string;
  db_tasks_create : CreateTaskInput → M World TaskRow;
  db_tasks_update : string → UpdateTaskInput → M World bool;
  db_runs_create : CreateRunInput → M World RunRow;
  db_runs_update : string → UpdateRunInput → M World bool;
  db_observations_findByRun : string → M World (list ObservationRow);
  db_analyses_findByRun : string → M World (list AnalysisRow);
  db_actions_findByRun : string → M World (list ActionRow);
  plugins_get : string → M World (option Plugin);
  plugin_execute : Plugin → string → PluginContext → Obj → M World PluginResult;
}.

(** A call that cannot throw, as a computation. *)
Definition total {S A} (f : S → A * S) : M S A :=
  λ s, match f s with (a, s') => (inr a, s') end.

(** A computation on the world, run beside a local state. *)
Definition in_world {W L A} (m : M W A) : M (L * W) A :=
  λ '(l, w), match m w with (r, w') => (r, (l, w')) end.

(** A computation on the local state, run beside the world. *)
Definition in_local {W L A} (m : M L A) : M (L * W) A :=
  λ '(l, w), match m l with (r, l') => (r, (l', w)) end.

(* ===================================================================== *)
(** * Task manager (core/task/task-manager.ts)                           *)
(* ===================================================================== *)

Module TaskManager.
Import Task.

(** [tasks] is the map from id to task object; [tasksByRun] maps a run to
    its set of ids, kept in insertion order; [has_db] is whether a database
    was given to the constructor. *)
Record TaskManager : Type := {
  tasks : gmap string Task;
  tasksByRun : gmap string (list string);
  has_db : bool;
}.

Definition new (db : bool) : TaskManager :=
  {| tasks := ∅; tasksByRun := ∅; has_db := db |}.

Definition set_tasks (v : gmap string Task) (tm : TaskManager) : TaskManager :=
  {| tasks := v; tasksByRun := tasksByRun tm; has_db := has_db tm |}.

Definition set_tasksByRun (v : gmap string (list string)) (tm : TaskManager)
    : TaskManager :=
  {| tasks := tasks tm; tasksByRun := v; has_db := has_db tm |}.

(** [set.add(x)] on a set kept in insertion order. *)
Definition set_add (x : string) (l : list string) : list string :=
  if bool_decide (x ∈ l) then l else l ++ [x].

(** The ids registered under a run. *)
Definition run_ids (tm : TaskManager) (runId : string) : list string :=
  default [] (tasksByRun tm !! runId).

(** ** Queries *)

(** [TaskQuery]; a key that is absent is [None]. *)
Record TaskQuery : Type := {
  q_runId : option string;
  q_status : option TaskStatus;
  q_type : option string;
  q_agentId : option string;
  q_parentId : option string;
  q_priority : option TaskPriority;
  q_limit : option Z;
}.

Definition priorityOrder (p : TaskPriority) : Z :=
  match p with
  | critical => 0 | high => 1 | normal => 2 | low => 3
  end%Z.

(** The comparison function handed to [sort]: by priority, then by
    creation time. *)
Definition compare_tasks (a b : Task) : Z :=
  let priorityDiff := (priorityOrder (priority a) - priorityOrder (priority b))%Z in
  if bool_decide (priorityDiff ≠ 0%Z) then priorityDiff
  else (createdAt a - createdAt b)%Z.

(** [tasks.sort(compare)]. The sort of the language is stable; insertion
    from the right computes the stable arrangement: a task goes behind the
    tasks that compare strictly before it and ahead of the others. *)
Fixpoint insert_task (x : Task) (l : list Task) : list Task :=
  match l with
  | [] => [x]
  | y :: l' =>
      if bool_decide (0 < compare_tasks x y)%Z
      then y :: insert_task x l'
      else x :: y :: l'
  end.

Definition sort_tasks (l : list Task) : list Task := foldr insert_task [] l.

(** [tasks.slice(0, limit)] for an integer [limit]; a negative end counts
    from the end of the array. *)
Definition slice_to (limit : Z) (l : list Task) : list Task :=
  if bool_decide (limit < 0)%Z
  then take (Z.to_nat (Z.of_nat (length l) + limit)) l
  else take (Z.to_nat limit) l.

(** One [if (query.key) tasks = tasks.filter(...)] statement: the filter
    applies when the key is set. *)
Definition filter_when {A} (key : option A) (test : A → Task → bool)
    (l : list Task) : list Task :=
  match key with
  | Some v => filter (λ t, test v t = true) l
  | None => l
  end.

(** [query(query)], on the array [Array.from(this.tasks.values())] of the
    task objects in the order of the map. *)
Definition query (q : TaskQuery) (all : list Task) : list Task :=
  let l := all in
  let l := filter_when (truthy_string (q_runId q))
             (λ v t, bool_decide (runId t = v)) l in
  let l := filter_when (q_status q) (λ v t, bool_decide (status t = v)) l in
  let l := filter_when (truthy_string (q_type q))
             (λ v t, bool_decide (Task.type t = v)) l in
  let l := filter_when (truthy_string (q_agentId q))
             (λ v t, bool_decide (agentId t = Some v)) l in
  let l := filter_when (q_parentId q)
             (λ v t, bool_decide (parentId t = Some v)) l in
  let l := filter_when (q_priority q) (λ v t, bool_decide (priority t = v)) l in
  let l := sort_tasks l in
  match q_limit q with
  | Some limit => if bool_decide (limit = 0%Z) then l else slice_to limit l
  | None => l
  end.

Definition status_query (runId : option string) (s : TaskStatus) : TaskQuery :=
  {| q_runId := runId; q_status := Some s; q_type := None; q_agentId := None;
     q_parentId := None; q_priority := None; q_limit := None |}.

Definition getPendingTasks (runId : option string) : list Task → list Task :=
  query (status_query runId pending).

Definition getQueuedTasks (runId : option string) : list Task → list Task :=
  query (status_query runId queued).

Definition getRunningTasks (runId : option string) : list Task → list Task :=
  query (status_query runId running).

Definition getFailedTasks (runId : option string) : list Task → list Task :=
  query (status_query runId failed).

(** Whether a task passes every filter the query sets. *)
Definition selected (q : TaskQuery) (t : Task) : bool :=
  match truthy_string (q_runId q) with
  | Some v => bool_decide (runId t = v) | None => true end
  && match q_status q with
     | Some v => bool_decide (status t = v) | None => true end
  && match truthy_string (q_type q) with
     | Some v => bool_decide (Task.type t = v) | None => true end
  && match truthy_string (q_agentId q) with
     | Some v => bool_decide (agentId t = Some v) | None => true end
  && match q_parentId q with
     | Some v => bool_decide (parentId t = Some v) | None => true end
  && match q_priority q with
     | Some v => bool_decide (priority t = v) | None => true end.

(** The order of a query result: no task compares after a later one. *)
Definition in_query_order (l : list Task) : Prop :=
  StronglySorted (λ a b, compare_tasks a b ≤ 0)%Z l.

Section WithCollaborators.
Context `{Collaborators}.

Abbreviation St := (TaskManager * World)%type.

(** A method of the task object [taskId], which is in the map. The object
    is written back whether the method returned or threw. *)
Definition on_task {A} (taskId : string) (task : Task) (m : M Task A) : M St A :=
  in_local (λ tm, match m task with
                  | (r, task') => (r, set_tasks (<[taskId := task']> (tasks tm)) tm)
                  end).

(** A transition of the task object [taskId] that stamps the time. The
    transition reads the clock once its guard has passed: a call that
    throws leaves the world as it was. *)
Definition on_task_timed (taskId : string) (task : Task) (c : Z → Call) : M St unit :=
  λ '(tm, w),
    match Date_now w with
    | (now, w') =>
        match call (c now) task with
        | (inr _, task') => (inr tt, (set_tasks (<[taskId := task']> (tasks tm)) tm, w'))
        | (inl e, task') => (inl e, (set_tasks (<[taskId := task']> (tasks tm)) tm, w))
        end
    end.

Definition syncToDb (taskId : string) : M St unit :=
  let* tm := in_local get in
  if negb (has_db tm) then ret tt
  else
    match tasks tm !! taskId with
    | None => ret tt
    | Some task =>
        in_world (db_tasks_update (Task.id task)
          {| uti_status := Some (status_name (status task));
             uti_agentId := Some (agentId task);
             uti_output := Some (output task);
             uti_error := Some (error task);
             uti_retries := Some (retries task);
             uti_startedAt := Some (startedAt task);
             uti_completedAt := Some (completedAt task) |});;
        ret tt
    end.

Definition priority_name (p : TaskPriority) : string :=
  match p with
  | low => "low" | normal => "normal" | high => "high" | critical => "critical"
  end.

Definition createTask (config : TaskConfig) : M St Task :=
  let* uuid := match truthy_string (cfg_id config) with
               | Some _ => ret EmptyString
               | None => in_world (total uuidv4)
               end in
  let* now := in_world (total Date_now) in
  let task := Task.new config uuid now in
  in_local (modify (λ tm, set_tasks (<[Task.id task := task]> (tasks tm)) tm));;
  in_local (modify (λ tm,
    set_tasksByRun (<[Task.runId task := set_add (Task.id task) (run_ids tm (Task.runId task))]>
                      (tasksByRun tm)) tm));;
  let* tm := in_local get in
  (match parentId task with
   | Some parent =>
       match tasks tm !! parent with
       | Some parentTask => on_task parent parentTask (addChild (Task.id task))
       | None => ret tt
       end
   | None => ret tt
   end);;
  let* tm := in_local get in
  (if has_db tm
   then
     in_world (db_tasks_create
       {| cti_id := Some (Task.id task);
          cti_runId := Task.runId task;
          cti_type := Task.type task;
          cti_parentId := parentId task;
          cti_agentId := agentId task;
          cti_priority := Some (priority_name (priority task));
          cti_input := Some (Task.input task);
          cti_maxRetries := Some (maxRetries task) |});;
     ret tt
   else ret tt);;
  let* tm := in_local get in
  ret (default task (tasks tm !! Task.id task)).

Definition getTask (tm : TaskManager) (taskId : string) : option Task :=
  tasks tm !! taskId.

(** [getTasksByRun(runId)], as the ids of the task objects it returns. *)
Definition getTasksByRun (tm : TaskManager) (runId : string) : list string :=
  filter (λ taskId, is_Some (tasks tm !! taskId)) (run_ids tm runId).

(** The state-changing methods that take a task id: look the task up,
    call its transition, mirror it to storage. *)
Definition transitionTask (taskId : string) (transition : Task → M St unit)
    : M St unit :=
  let* tm := in_local get in
  match tasks tm !! taskId with
  | None => throw (Error ("Task not found: " +:+ taskId))
  | Some task => transition task;; syncToDb taskId
  end.

Definition queueTask (taskId : string) : M St unit :=
  transitionTask taskId (λ task, on_task taskId task queue).

Definition startTask (taskId : string) (agent : option string) : M St unit :=
  transitionTask taskId (λ task, on_task_timed taskId task (Start agent)).

Definition completeTask (taskId : string) (out : TaskOutput) : M St unit :=
  transitionTask taskId (λ task, on_task_timed taskId task (Complete out)).

Definition failTask (taskId : string) (err : string) : M St unit :=
  transitionTask taskId (λ task, on_task_timed taskId task (Fail err)).

Definition retryTask (taskId : string) : M St unit :=
  transitionTask taskId (λ task, on_task taskId task retry).

(** [cancelTask(taskId)]: cancel the task, then each child that is not
    terminal when its turn comes, recursively. [fuel] bounds the depth of
    the recursion: the children of a task reached with no fuel left are not
    visited. *)
Fixpoint cancelTask (fuel : nat) (taskId : string) : M St unit :=
  let* tm := in_local get in
  match tasks tm !! taskId with
  | None => throw (Error ("Task not found: " +:+ taskId))
  | Some task =>
      on_task_timed taskId task Cancel;;
      syncToDb taskId;;
      match fuel with
      | O => ret tt
      | S fuel' =>
          (fix each (childIds : list string) : M St unit :=
             match childIds with
             | [] => ret tt
             | childId :: rest =>
                 let* tm := in_local get in
                 (match tasks tm !! childId with
                  | Some child =>
                      if negb (isTerminal child) then cancelTask fuel' childId
                      else ret tt
                  | None => ret tt
                  end);;
                 each rest
             end) (children task)
      end
  end.

(** The loop of [cancelRunTasks] over the task objects of the run. *)
Fixpoint cancel_each (taskIds : list string) (cancelled : nat) : M St nat :=
  match taskIds with
  | [] => ret cancelled
  | taskId :: rest =>
      let* tm := in_local get in
      match tasks tm !! taskId with
      | Some task =>
          if negb (isTerminal task)
          then
            on_task_timed taskId task Cancel;;
            syncToDb taskId;;
            cancel_each rest (S cancelled)
          else cancel_each rest cancelled
      | None => cancel_each rest cancelled
      end
  end.

Definition cancelRunTasks (runId : string) : M St nat :=
  let* tm := in_local get in
  cancel_each (getTasksByRun tm runId) 0.

Definition clearRunTasks (runId : string) : M St unit :=
  let* tm := in_local get in
  match tasksByRun tm !! runId with
  | None => ret tt
  | Some taskIds =>
      in_local (modify (λ tm, set_tasks (foldl (λ m taskId, delete taskId m)
                                           (tasks tm) taskIds) tm));;
      in_local (modify (λ tm, set_tasksByRun (delete runId (tasksByRun tm)) tm))
  end.

(** ** Calls of the manager, as data *)

(** One call of a state-changing method other than [cancelTask], with its
    arguments. *)
Inductive ManagerCall : Type :=
  | QueueTask
  | StartTask (agent : option string)
  | CompleteTask (out : TaskOutput)
  | FailTask (err : string)
  | RetryTask.

Definition manager_call (taskId : string) (c : ManagerCall) : M St unit :=
  match c with
  | QueueTask => queueTask taskId
  | StartTask agent => startTask taskId agent
  | CompleteTask out => completeTask taskId out
  | FailTask err => failTask taskId err
  | RetryTask => retryTask taskId
  end.

(** The call the manager makes on the task object; [now] is the clock
    reading the task takes if the call stamps the time. *)
Definition task_call (c : ManagerCall) (now : Z) : Call :=
  match c with
  | QueueTask => Queue
  | StartTask agent => Start agent now
  | CompleteTask out => Complete out now
  | FailTask err => Fail err now
  | RetryTask => Retry
  end.

(** Whether the call reads the clock when it goes through. *)
Definition stamps_time (c : ManagerCall) : bool :=
  match c with
  | QueueTask | RetryTask => false
  | _ => true
  end.

(** What [syncToDb] writes for a task. *)
Definition sync_input (task : Task) : UpdateTaskInput :=
  {| uti_status := Some (status_name (status task));
     uti_agentId := Some (agentId task);
     uti_output := Some (output task);
     uti_error := Some (error task);
     uti_retries := Some (retries task);
     uti_startedAt := Some (startedAt task);
     uti_completedAt := Some (completedAt task) |}.

(** Every task record the storage is asked to create is created. *)
Definition storage_accepts_tasks : Prop :=
  ∀ input w, ∃ row w', db_tasks_create input w = (inr row, w').

(** Every storage update is accepted. *)
Definition storage_accepts_updates : Prop :=
  ∀ taskId input w, ∃ changed w', db_tasks_update taskId input w = (inr changed, w').

End WithCollaborators.

(** Whether the task registered under [taskId] is still to be cancelled. *)
Definition live (tm : TaskManager) (taskId : string) : bool :=
  match tasks tm !! taskId with
  | Some task => negb (isTerminal task)
  | None => false
  end.

(** The task as [cancel()] leaves it when called at [now]. *)
Definition cancelled_at (now : Z) (task : Task) : Task :=
  set_completedAt (Some now) (set_status cancelled task).

(** From [tm] to [tm'] tasks were cancelled and nothing else happened: the
    indexes are the same, no task came or went, and each task is as it was
    or, if it was not terminal, cancelled. *)
Definition only_cancelled (tm tm' : TaskManager) : Prop :=
  tasksByRun tm' = tasksByRun tm ∧ has_db tm' = has_db tm
  ∧ ∀ taskId,
      match tasks tm !! taskId with
      | None => tasks tm' !! taskId = None
      | Some task =>
          tasks tm' !! taskId = Some task
          ∨ (isTerminal task = false
             ∧ ∃ now, tasks tm' !! taskId = Some (cancelled_at now task))
      end.

(** The manager once [createTask] has stored the new task, indexed it under
    its run and linked it to its parent. *)
Definition registered (task : Task) (tm : TaskManager) : TaskManager :=
  let tm1 := set_tasks (<[Task.id task := task]> (tasks tm)) tm in
  let tm2 := set_tasksByRun
               (<[Task.runId task := set_add (Task.id task) (run_ids tm1 (Task.runId task))]>
                  (tasksByRun tm1)) tm1 in
  match parentId task with
  | Some parent =>
      match tasks tm2 !! parent with
      | Some parentTask =>
          set_tasks (<[parent := snd (addChild (Task.id task) parentTask)]> (tasks tm2)) tm2
      | None => tm2
      end
  | None => tm2
  end.

Section CancelTask.
Context `{Collaborators}.

(** What a [cancelTask] call on a task that is not terminal does. *)
Definition cancelTask_ok (fuel : nat) : Prop :=
  ∀ taskId tm w task,
    (has_db tm = true → storage_accepts_updates) →
    tasks tm !! taskId = Some task → isTerminal task = false →
    ∃ tm' w',
      cancelTask fuel taskId (tm, w) = (inr tt, (tm', w'))
      ∧ only_cancelled tm tm'
      ∧ (∃ now, tasks tm' !! taskId = Some (cancelled_at now task)).

End CancelTask.

(** The ids of every run are free of repetition. *)
Definition run_index_wf (tm : TaskManager) : Prop :=
  ∀ runId, NoDup (run_ids tm runId).

End TaskManager.

(* ===================================================================== *)
(** * Policy engine (core/policy/policy-engine.ts)                       *)
(* ===================================================================== *)

Module PolicyEngine.
Import Policy.

Record PolicyEngineConfig : Type := {
  cfg_defaultPolicy : option Policy;
  cfg_strictMode : option bool;
}.

(** [policies] maps an id to the policy registered under it,
    [agentPolicies] an agent id to a policy id. *)
Record PolicyEngine : Type := {
  policies : gmap string Policy;
  agentPolicies : gmap string string;
  defaultPolicy : option Policy;
  strictMode : bool;
}.

Definition new (config : PolicyEngineConfig) : PolicyEngine :=
  {| policies := ∅; agentPolicies := ∅;
     defaultPolicy := cfg_defaultPolicy config;
     strictMode := default true (cfg_strictMode config) |}.

Definition set_policies (v : gmap string Policy) (e : PolicyEngine) : PolicyEngine :=
  {| policies := v; agentPolicies := agentPolicies e;
     defaultPolicy := defaultPolicy e; strictMode := strictMode e |}.

Definition set_agentPolicies (v : gmap string string) (e : PolicyEngine)
    : PolicyEngine :=
  {| policies := policies e; agentPolicies := v;
     defaultPolicy := defaultPolicy e; strictMode := strictMode e |}.

Definition registerPolicy (policy : Policy) : M PolicyEngine unit :=
  modify (λ e, set_policies (<[policy_id policy := policy]> (policies e)) e).

(** The loop over [agentPolicies.entries()]: whether some agent is bound
    to [policyId]. *)
Definition in_use (policyId : string) (e : PolicyEngine) : bool :=
  existsb (λ entry, bool_decide (entry.2 = policyId))
          (map_to_list (agentPolicies e)).

Definition unregisterPolicy (policyId : string) : M PolicyEngine bool :=
  let* e := get in
  if in_use policyId e then ret false
  else
    modify (λ e, set_policies (delete policyId (policies e)) e);;
    ret (bool_decide (is_Some (policies e !! policyId))).

Definition getPolicy (policyId : string) (e : PolicyEngine) : option Policy :=
  policies e !! policyId.

Definition assignPolicy (agentId policyId : string) : M PolicyEngine bool :=
  let* e := get in
  match policies e !! policyId with
  | None => ret false
  | Some _ =>
      modify (λ e, set_agentPolicies (<[agentId := policyId]> (agentPolicies e)) e);;
      ret true
  end.

Definition unassignPolicy (agentId : string) : M PolicyEngine unit :=
  modify (λ e, set_agentPolicies (delete agentId (agentPolicies e)) e).

(** [if (policyId)]: an agent bound to the empty id gets the default
    policy, as an agent without a binding does. *)
Definition getAgentPolicy (agentId : string) (e : PolicyEngine) : option Policy :=
  match truthy_string (agentPolicies e !! agentId) with
  | Some policyId => policies e !! policyId
  | None => defaultPolicy e
  end.

Section Evaluation.
Context `{Host}.

(** [evaluate(agent, toolName, params)]; [now] is the clock reading the
    policy stores in its context. *)
Definition evaluate (e : PolicyEngine) (agent : Agent) (toolName : string)
    (params : gmap string JSValue) (now : Z) : JSError + PolicyEvaluationResult :=
  match getAgentPolicy (agent_id agent) e with
  | None =>
      if strictMode e
      then inr {| allowed := false; res_action := deny; matchedRule := None;
                  reason := Some "No policy assigned and strict mode is enabled" |}
      else inr {| allowed := true; res_action := allow; matchedRule := None;
                  reason := Some "No policy assigned and strict mode is disabled" |}
  | Some policy => Policy.evaluate policy agent toolName params now
  end.

Definition checkPermission (e : PolicyEngine) (agent : Agent) (toolName : string)
    (params : gmap string JSValue) (now : Z) : JSError + bool :=
  match evaluate e agent toolName params now with
  | inl error => inl error
  | inr result => inr (allowed result)
  end.

End Evaluation.

(** The calls that manage policies and bindings, and the engine after a
    sequence of them. *)
Inductive EngineCall : Type :=
  | RegisterPolicy (policy : Policy)
  | UnregisterPolicy (policyId : string)
  | AssignPolicy (agentId policyId : string)
  | UnassignPolicy (agentId : string).

Definition engine_call (c : EngineCall) (e : PolicyEngine) : PolicyEngine :=
  match c with
  | RegisterPolicy policy => snd (registerPolicy policy e)
  | UnregisterPolicy policyId => snd (unregisterPolicy policyId e)
  | AssignPolicy agentId policyId => snd (assignPolicy agentId policyId e)
  | UnassignPolicy agentId => snd (unassignPolicy agentId e)
  end.

Definition after_engine_calls (cs : list EngineCall) (e : PolicyEngine)
    : PolicyEngine :=
  foldl (λ e c, engine_call c e) e cs.

(** Every binding names a registered policy, and every policy is
    registered under its own id. *)
Definition bindings_registered (e : PolicyEngine) : Prop :=
  ∀ agentId policyId, agentPolicies e !! agentId = Some policyId →
    is_Some (policies e !! policyId).

Definition keyed_by_id (e : PolicyEngine) : Prop :=
  ∀ policyId policy, policies e !! policyId = Some policy →
    policy_id policy = policyId.

(** Sample data. *)
Definition sample_engine : PolicyEngine :=
  after_engine_calls [RegisterPolicy (createReadOnlyPolicy "read-only");
                      RegisterPolicy (createExecutorPolicy "executor")]
    (new {| cfg_defaultPolicy := None; cfg_strictMode := None |}).

End PolicyEngine.

(* ===================================================================== *)
(** * Tool (core/tools/tool.ts) and Agent (core/agent/agent.ts)          *)
(* ===================================================================== *)

(** The parameters of a tool call, [Record<string, unknown>]. *)
Definition Params : Type := gmap string JSValue.

Module Tool.

Record ToolContext : Type := {
  tc_runId : string;
  tc_agentId : string;
  tc_taskId : option string;
  tc_dryRun : option bool;
  tc_input : option Params;   (* carried over from the agent's context *)
}.

Section WithCollaborators.
Context `{Collaborators}.
(** The values a tool takes once parsed, and the values it gives. *)
Context {TInput TOutput : Type}.

(** A schema is its [safeParse]: the message of the error, or the data. *)
Record ToolDefinition : Type := {
  def_name : string;
  def_description : string;
  def_category : string;
  def_inputSchema : Params → string + TInput;
  def_outputSchema : TOutput → string + TOutput;
  def_dangerous : option bool;
  def_requiresApproval : option bool;
  def_execute : TInput → ToolContext → M World TOutput;
}.

Record Tool : Type := {
  name : string;
  description : string;
  category : string;
  inputSchema : Params → string + TInput;
  outputSchema : TOutput → string + TOutput;
  dangerous : bool;
  requiresApproval : bool;
  _executeFn : TInput → ToolContext → M World TOutput;
}.

Definition new (definition : ToolDefinition) : Tool :=
  {| name := def_name definition;
     description := def_description definition;
     category := def_category definition;
     inputSchema := def_inputSchema definition;
     outputSchema := def_outputSchema definition;
     dangerous := default false (def_dangerous definition);
     requiresApproval :=
       default (default false (def_dangerous definition))
               (def_requiresApproval definition);
     _executeFn := def_execute definition |}.

Definition execute (t : Tool) (input : Params) (context : ToolContext)
    : M World TOutput :=
  match inputSchema t input with
  | inl msg => throw (Error ("Invalid tool input: " +:+ msg))
  | inr data =>
      let* output := _executeFn t data context in
      match outputSchema t output with
      | inl msg => throw (Error ("Invalid tool output: " +:+ msg))
      | inr data' => ret data'
      end
  end.

End WithCollaborators.
Arguments ToolDefinition {_} _ _.
Arguments Tool {_} _ _.

End Tool.

Module Agent.

Inductive AgentRole : Type :=
  watcher | analyst | executor | coordinator | auditor | governor.

Inductive AgentStatus : Type := idle | running | paused | error | terminated.

#[export] Instance AgentStatus_eq_dec : EqDecision AgentStatus.
Proof. solve_decision. Defined.

(** The strings the enumerations are at run time. *)
Definition role_string (r : AgentRole) : string :=
  match r with
  | watcher => "watcher" | analyst => "analyst" | executor => "executor"
  | coordinator => "coordinator" | auditor => "auditor" | governor => "governor"
  end.

Definition status_string (s : AgentStatus) : string :=
  match s with
  | idle => "idle" | running => "running" | paused => "paused"
  | error => "error" | terminated => "terminated"
  end.

Record AgentConfig : Type := {
  cfg_id : option string;
  cfg_role : AgentRole;
  cfg_name : string;
  cfg_description : option string;
}.

Record AgentContext : Type := {
  ctx_runId : string;
  ctx_taskId : option string;
  ctx_input : option Params;
}.

Section WithCollaborators.
Context `{Collaborators} `{Host}.
Context {TInput TOutput : Type}.

(** The fields the methods below read or write; the memory and the
    configuration record are left out. *)
Record Agent : Type := {
  id : string;
  role : AgentRole;
  name : string;
  description : option string;
  _status : AgentStatus;
  _tools : gmap string (Tool.Tool TInput TOutput);
  _policy : option Policy.Policy;
  createdAt : Z;
  _updatedAt : Z;
}.

Definition new (config : AgentConfig) : M World Agent :=
  let* agentId := match truthy_string (cfg_id config) with
                  | Some given => ret given
                  | None => total uuidv4
                  end in
  let* now := total Date_now in
  ret {| id := agentId; role := cfg_role config; name := cfg_name config;
         description := cfg_description config; _status := idle; _tools := ∅;
         _policy := None; createdAt := now; _updatedAt := now |}.

Definition touch (now : Z) (a : Agent) : Agent :=
  {| id := id a; role := role a; name := name a; description := description a;
     _status := _status a; _tools := _tools a; _policy := _policy a;
     createdAt := createdAt a; _updatedAt := now |}.

Definition set_status (v : AgentStatus) (a : Agent) : Agent :=
  {| id := id a; role := role a; name := name a; description := description a;
     _status := v; _tools := _tools a; _policy := _policy a;
     createdAt := createdAt a; _updatedAt := _updatedAt a |}.

Definition set_tools (v : gmap string (Tool.Tool TInput TOutput)) (a : Agent)
    : Agent :=
  {| id := id a; role := role a; name := name a; description := description a;
     _status := _status a; _tools := v; _policy := _policy a;
     createdAt := createdAt a; _updatedAt := _updatedAt a |}.

Definition set_policy (v : option Policy.Policy) (a : Agent) : Agent :=
  {| id := id a; role := role a; name := name a; description := description a;
     _status := _status a; _tools := _tools a; _policy := v;
     createdAt := createdAt a; _updatedAt := _updatedAt a |}.

(** [this._updatedAt = Date.now()]. *)
Definition stamp : M (Agent * World) unit :=
  let* now := in_world (total Date_now) in
  in_local (modify (touch now)).

Definition setStatus (status : AgentStatus) : M (Agent * World) unit :=
  in_local (modify (set_status status));;
  stamp.

Definition isActive (a : Agent) : bool := bool_decide (_status a = running).

Definition canExecute (a : Agent) : bool :=
  bool_decide (_status a = idle) || bool_decide (_status a = running).

Definition registerTool (tool : Tool.Tool TInput TOutput) : M (Agent * World) unit :=
  in_local (modify (λ a, set_tools (<[Tool.name tool := tool]> (_tools a)) a));;
  stamp.

Definition unregisterTool (toolName : string) : M (Agent * World) bool :=
  let* a := in_local get in
  let removed := bool_decide (is_Some (_tools a !! toolName)) in
  in_local (modify (λ a, set_tools (delete toolName (_tools a)) a));;
  (if removed then stamp else ret tt);;
  ret removed.

Definition hasTool (toolName : string) (a : Agent) : bool :=
  bool_decide (is_Some (_tools a !! toolName)).

Definition setPolicy (policy : Policy.Policy) : M (Agent * World) unit :=
  in_local (modify (set_policy (Some policy)));;
  stamp.

(** The agent as a policy reads it. *)
Definition as_subject (a : Agent) : Policy.Agent :=
  {| Policy.agent_id := id a; Policy.agent_role := role_string (role a) |}.

(** [{ agentId: this.id, ...context }]. *)
Definition tool_context (a : Agent) (context : AgentContext) : Tool.ToolContext :=
  {| Tool.tc_runId := ctx_runId context; Tool.tc_agentId := id a;
     Tool.tc_taskId := ctx_taskId context; Tool.tc_dryRun := None;
     Tool.tc_input := ctx_input context |}.

(** [this._policy.checkPermission(this, toolName, params)], which reads the
    clock for the context of the evaluation. *)
Definition policy_allows (policy : Policy.Policy) (a : Agent) (toolName : string)
    (params : Params) : M World bool :=
  let* now := total Date_now in
  match Policy.checkPermission policy (as_subject a) toolName params now with
  | inl thrown => throw thrown
  | inr allowed => ret allowed
  end.

Definition executeTool (a : Agent) (toolName : string) (params : Params)
    (context : AgentContext) : M World TOutput :=
  match _tools a !! toolName with
  | None => throw (Error ("Tool not found: " +:+ toolName))
  | Some tool =>
      if negb (canExecute a)
      then throw (Error ("Agent cannot execute in status: "
                         +:+ status_string (_status a)))
      else
        match _policy a with
        | Some policy =>
            let* allowed := policy_allows policy a toolName params in
            if negb allowed
            then throw (Error ("Policy denied execution of tool: " +:+ toolName))
            else ret tt
        | None => ret tt
        end;;
        try_catch (Tool.execute tool params (tool_context a context))
                  (λ thrown, throw thrown)
  end.

(** What lets a tool call through: the tool is registered, the status is
    idle or running, and the policy, if one is set, allows the call at the
    clock reading taken from [w], which leaves [w0]. *)
Definition gate_passes (a : Agent) (toolName : string) (params : Params)
    (tool : Tool.Tool TInput TOutput) (w w0 : World) : Prop :=
  _tools a !! toolName = Some tool
  ∧ (_status a = idle ∨ _status a = running)
  ∧ match _policy a with
    | None => w0 = w
    | Some policy =>
        w0 = snd (Date_now w)
        ∧ Policy.checkPermission policy (as_subject a) toolName params
            (fst (Date_now w)) = inr true
    end.

End WithCollaborators.
Arguments Agent {_} _ _.

End Agent.

(* ===================================================================== *)
(** * Workflow configuration (util/config.ts)                            *)
(* ===================================================================== *)

(** Modelled from the spec: util/config.ts is not among the sources. A step
    of a workflow, "{capability, action, config, requireApproval?}", with
    the field names the runner reads. *)
Record WorkflowStep : Type := {
  plugin : string;
  action : string;
  step_config : option Obj;
  requireApproval : option bool;
}.

(** Modelled from the spec: util/config.ts is not among the sources. A
    workflow is "a named, ordered list of steps". *)
Record WorkflowConfig : Type := {
  steps : list WorkflowStep;
}.

(** Modelled from the spec: util/config.ts is not among the sources. The
    fields of the configuration that the runner and the orchestrator read:
    [general.dryRun], [general.requireApproval], [workflows], "a named
    mapping from workflow id" to workflow, and
    [analyze.scoring.thresholdAlert]. *)
Record DominionConfig : Type := {
  general_dryRun : bool;
  general_requireApproval : bool;
  workflows : gmap string WorkflowConfig;
  analyze_scoring_thresholdAlert : Z;
}.

(* ===================================================================== *)
(** * Orchestrator (core/orchestrator/orchestrator.ts)                   *)
(* ===================================================================== *)

Module Orchestrator.

Record Orchestrator : Type := {
  config : DominionConfig;
  dryRun : bool;
  currentRunId : option string;
  isRunning : bool;
}.

Definition set_currentRunId (v : option string) (o : Orchestrator) : Orchestrator :=
  {| config := config o; dryRun := dryRun o; currentRunId := v;
     isRunning := isRunning o |}.

Definition set_isRunning (v : bool) (o : Orchestrator) : Orchestrator :=
  {| config := config o; dryRun := dryRun o; currentRunId := currentRunId o;
     isRunning := v |}.


Section WithCollaborators.
Context `{Collaborators}.


(** The [finally] block of [runWorkflow]. *)
Definition runWorkflow_finally (o : Orchestrator) : Orchestrator :=
  set_currentRunId None (set_isRunning false o).

(** [cancel()]. The orchestrator's task manager, which was constructed with
    the database, is part of the state next to the world. *)
Definition cancel : M (Orchestrator * (TaskManager.TaskManager * World)) unit :=
  let* o := in_local get in
  match isRunning o, truthy_string (currentRunId o) with
  | true, Some runId =>
      in_world (TaskManager.cancelRunTasks runId);;
      let* now := in_world (in_world (total Date_now)) in
      in_world (in_world (db_runs_update runId
        {| uri_status := Some "cancelled"; uri_summary := None;
           uri_startedAt := None; uri_completedAt := Some now |}));;
      in_local (modify (set_isRunning false));;
      in_local (modify (set_currentRunId None))
  | _, _ => ret tt
  end.

End WithCollaborators.

End Orchestrator.

(* ===================================================================== *)
(** * Workflow runner (workflows/runner.ts)                              *)
(* ===================================================================== *)

Module WorkflowRunner.

Inductive RunStatus : Type := run_completed | run_failed | run_cancelled.

Inductive StepStatus : Type := step_completed | step_failed | step_skipped.

#[export] Instance RunStatus_eq_dec : EqDecision RunStatus.
Proof. solve_decision. Defined.

#[export] Instance StepStatus_eq_dec : EqDecision StepStatus.
Proof. solve_decision. Defined.

Definition run_status_name (s : RunStatus) : string :=
  match s with
  | run_completed => "completed" | run_failed => "failed"
  | run_cancelled => "cancelled"
  end.

Definition step_status_name (s : StepStatus) : string :=
  match s with
  | step_completed => "completed" | step_failed => "failed"
  | step_skipped => "skipped"
  end.

Record StepResult : Type := {
  sr_plugin : string;
  sr_action : string;
  sr_status : StepStatus;
  sr_duration : Z;
  sr_result : option Obj;
  sr_error : option string;
}.

Record WorkflowSummary : Type := {
  stepsCompleted : nat;
  stepsFailed : nat;
  observationsCount : nat;
  analysesCount : nat;
  actionsProposed : nat;
  actionsExecuted : nat;
  highScoreFindings : nat;
}.

Record WorkflowResult : Type := {
  res_runId : string;
  res_workflowId : string;
  res_status : RunStatus;
  res_startedAt : Z;
  res_completedAt : Z;
  res_duration : Z;
  res_steps : list StepResult;
  res_summary : WorkflowSummary;
  res_errors : list string;
}.

(** The fields of the runner; [dryRun] and [approve] are as the constructor
    resolved them. *)
Record WorkflowRunner : Type := {
  config : DominionConfig;
  dryRun : bool;
  approve : bool;
}.

Record WorkflowRunnerOptions : Type := {
  opt_config : DominionConfig;
  opt_dryRun : option bool;
  opt_approve : option bool;
}.

Definition new (options : WorkflowRunnerOptions) : WorkflowRunner :=
  {| config := opt_config options;
     dryRun := default (general_dryRun (opt_config options)) (opt_dryRun options);
     approve := default false (opt_approve options) |}.

(** The local variables of [run] that its [try] block writes. *)
Record Locals : Type := {
  stepResults : list StepResult;
  errors : list string;
  status : RunStatus;
}.

Definition initial_locals : Locals :=
  {| stepResults := []; errors := []; status := run_completed |}.

Definition push_stepResult (sr : StepResult) (l : Locals) : Locals :=
  {| stepResults := stepResults l ++ [sr]; errors := errors l; status := status l |}.

Definition push_error (e : string) (l : Locals) : Locals :=
  {| stepResults := stepResults l; errors := errors l ++ [e]; status := status l |}.

Definition set_run_status (s : RunStatus) (l : Locals) : Locals :=
  {| stepResults := stepResults l; errors := errors l; status := s |}.

(** A possibly undefined string inside a template literal. *)
Definition interpolate (o : option string) : string := default "undefined" o.

(** The entry [run] appends to [errors] for a failed step. *)
Definition error_entry (step : WorkflowStep) (sr : StepResult) : string :=
  plugin step +:+ ":" +:+ action step +:+ " - " +:+ interpolate (sr_error sr).

Definition summary_object (s : WorkflowSummary) : Obj :=
  {[ "stepsCompleted" := JNum (Z.of_nat (stepsCompleted s));
     "stepsFailed" := JNum (Z.of_nat (stepsFailed s));
     "observationsCount" := JNum (Z.of_nat (observationsCount s));
     "analysesCount" := JNum (Z.of_nat (analysesCount s));
     "actionsProposed" := JNum (Z.of_nat (actionsProposed s));
     "actionsExecuted" := JNum (Z.of_nat (actionsExecuted s));
     "highScoreFindings" := JNum (Z.of_nat (highScoreFindings s)) ]}.

Section WithCollaborators.
Context `{Collaborators}.

Definition no_update : UpdateTaskInput :=
  {| uti_status := None; uti_agentId := None; uti_output := None;
     uti_error := None; uti_retries := None; uti_startedAt := None;
     uti_completedAt := None |}.

Definition executeStep (self : WorkflowRunner) (runId : string)
    (step : WorkflowStep) (input : option Obj) : M World StepResult :=
  let* startTime := total Date_now in
  let* task :=
    db_tasks_create
      {| cti_id := None; cti_runId := runId;
         cti_type := plugin step +:+ ":" +:+ action step;
         cti_parentId := None; cti_agentId := None; cti_priority := None;
         cti_input := Some (JSON_stringify (spread input (step_config step)));
         cti_maxRetries := None |} in
  db_tasks_update (row_id task)
    {| uti_status := Some "running"; uti_agentId := None; uti_output := None;
       uti_error := None; uti_retries := None;
       uti_startedAt := Some (Some startTime); uti_completedAt := None |};;
  let* found := plugins_get (plugin step) in
  match found with
  | None =>
      let* failedAt := total Date_now in
      db_tasks_update (row_id task)
        {| uti_status := Some "failed"; uti_agentId := None; uti_output := None;
           uti_error := Some (Some "Plugin not found"); uti_retries := None;
           uti_startedAt := None; uti_completedAt := Some (Some failedAt) |};;
      let* returnedAt := total Date_now in
      ret {| sr_plugin := plugin step; sr_action := action step;
             sr_status := step_failed;
             sr_duration := returnedAt - startTime;
             sr_result := None;
             sr_error := Some ("Plugin not found: " +:+ plugin step) |}
  | Some p =>
      try_catch
        (let effectiveDryRun := dryRun self && negb (approve self) in
         let* result :=
           plugin_execute p (action step)
             {| pc_runId := runId; pc_taskId := row_id task;
                pc_dryRun := effectiveDryRun |}
             (spread input (step_config step)) in
         let* endTime := total Date_now in
         db_tasks_update (row_id task)
           {| uti_status := Some (if success result then "completed" else "failed");
              uti_agentId := None;
              uti_output := Some (JSON_stringify <$> data result);
              uti_error := Some (truthy_string (plugin_error result));
              uti_retries := None; uti_startedAt := None;
              uti_completedAt := Some (Some endTime) |};;
         ret {| sr_plugin := plugin step; sr_action := action step;
                sr_status := if success result then step_completed else step_failed;
                sr_duration := endTime - startTime;
                sr_result := data result;
                sr_error := plugin_error result |})
        (λ error,
         let* endTime := total Date_now in
         db_tasks_update (row_id task)
           {| uti_status := Some "failed"; uti_agentId := None; uti_output := None;
              uti_error := Some (Some (message error)); uti_retries := None;
              uti_startedAt := None; uti_completedAt := Some (Some endTime) |};;
         ret {| sr_plugin := plugin step; sr_action := action step;
                sr_status := step_failed;
                sr_duration := endTime - startTime;
                sr_result := None;
                sr_error := Some (message error) |})
  end.

Definition generateSummary (self : WorkflowRunner) (runId : string)
    (stepList : list StepResult) : M World WorkflowSummary :=
  let* observations := db_observations_findByRun runId in
  let* analyses := db_analyses_findByRun runId in
  let* actions := db_actions_findByRun runId in
  let highScoreThreshold := analyze_scoring_thresholdAlert (config self) in
  ret {| stepsCompleted :=
           length (filter (λ s, sr_status s = step_completed) stepList);
         stepsFailed := length (filter (λ s, sr_status s = step_failed) stepList);
         observationsCount := length observations;
         analysesCount := length analyses;
         actionsProposed :=
           length (filter (λ a, action_status a = "proposed") actions);
         actionsExecuted :=
           length (filter (λ a, action_status a = "executed") actions);
         highScoreFindings :=
           length (filter (λ a, highScoreThreshold ≤ analysis_score a)%Z analyses) |}.

(** The [for (const step of workflow.steps)] loop of [run], with its
    [break]. *)
Fixpoint run_steps (self : WorkflowRunner) (runId : string)
    (stepList : list WorkflowStep) (input : option Obj) : M (Locals * World) unit :=
  match stepList with
  | [] => ret tt
  | step :: rest =>
      let* stepResult := in_world (executeStep self runId step input) in
      in_local (modify (push_stepResult stepResult));;
      if bool_decide (sr_status stepResult = step_failed)
      then
        in_local (modify (push_error (error_entry step stepResult)));;
        if bool_decide (plugin step = "observe")
        then in_local (modify (set_run_status run_failed))
        else run_steps self runId rest input
      else run_steps self runId rest input
  end.

(** The [try { for ... } catch (error) { ... }] statement of [run]. *)
Definition run_steps_guarded (self : WorkflowRunner) (runId : string)
    (stepList : list WorkflowStep) (input : option Obj) : M (Locals * World) unit :=
  try_catch (run_steps self runId stepList input)
    (λ error,
     in_local (modify (set_run_status run_failed));;
     in_local (modify (push_error (message error)))).

(** The local variables of [run], allocated for the statements [body] that
    write them and read back afterwards. *)
Definition with_locals {A} (body : M (Locals * World) A) : M World (A * Locals) :=
  λ w, match body (initial_locals, w) with
       | (inr a, (locals, w')) => (inr (a, locals), w')
       | (inl error, (_, w')) => (inl error, w')
       end.

Definition run (self : WorkflowRunner) (workflowId : string) (input : option Obj)
    : M World WorkflowResult :=
  match workflows (config self) !! workflowId with
  | None => throw (Error ("Workflow not found: " +:+ workflowId))
  | Some workflow =>
      let* runId := total nanoid in
      db_runs_create
        {| cri_id := Some runId; cri_workflowId := workflowId;
           cri_config := Some (spread input
                                 (Some {[ "dryRun" := JBool (dryRun self) ]})) |};;
      let* startedAt := total Date_now in
      db_runs_update runId
        {| uri_status := Some "running"; uri_summary := None;
           uri_startedAt := Some startedAt; uri_completedAt := None |};;
      let* tried :=
        with_locals (run_steps_guarded self runId (steps workflow) input) in
      let locals := snd tried in
      let* completedAt := total Date_now in
      let* summary := generateSummary self runId (stepResults locals) in
      db_runs_update runId
        {| uri_status := Some (run_status_name (status locals));
           uri_summary := Some (summary_object summary);
           uri_startedAt := None; uri_completedAt := Some completedAt |};;
      ret {| res_runId := runId;
             res_workflowId := workflowId;
             res_status := status locals;
             res_startedAt := startedAt;
             res_completedAt := completedAt;
             res_duration := completedAt - startedAt;
             res_steps := stepResults locals;
             res_summary := summary;
             res_errors := errors locals |}
  end.

(** No call to the storage or to the plugin registry throws. *)
Definition storage_never_throws : Prop :=
  (∀ input w, ∃ row w', db_tasks_create input w = (inr row, w'))
  ∧ (∀ taskId input w, ∃ changed w', db_tasks_update taskId input w = (inr changed, w'))
  ∧ (∀ input w, ∃ row w', db_runs_create input w = (inr row, w'))
  ∧ (∀ runId input w, ∃ changed w', db_runs_update runId input w = (inr changed, w'))
  ∧ (∀ runId w, ∃ rows w', db_observations_findByRun runId w = (inr rows, w'))
  ∧ (∀ runId w, ∃ rows w', db_analyses_findByRun runId w = (inr rows, w'))
  ∧ (∀ runId w, ∃ rows w', db_actions_findByRun runId w = (inr rows, w'))
  ∧ (∀ name w, ∃ found w', plugins_get name w = (inr found, w')).

(** How a step result comes about: the plugin is not registered; or it
    was run and threw; or it was run and returned. *)
Definition step_outcome (step : WorkflowStep) (input : option Obj)
    (sr : StepResult) : Prop :=
  (sr_status sr = step_failed ∧ sr_result sr = None
   ∧ sr_error sr = Some ("Plugin not found: " +:+ plugin step))
  ∨ (∃ p ctx w e w',
       plugin_execute p (action step) ctx (spread input (step_config step)) w
       = (inl e, w')
       ∧ sr_status sr = step_failed ∧ sr_result sr = None
       ∧ sr_error sr = Some (message e))
  ∨ (∃ p ctx w result w',
       plugin_execute p (action step) ctx (spread input (step_config step)) w
       = (inr result, w')
       ∧ sr_status sr = (if success result then step_completed else step_failed)
       ∧ sr_result sr = data result
       ∧ sr_error sr = plugin_error result).

End WithCollaborators.

(** A step that failed and belongs to the observation plugin. *)
Definition failed_observe (sr : StepResult) : Prop :=
  sr_status sr = step_failed ∧ sr_plugin sr = "observe".

(** The plugin and action of a step, and of a step result. *)
Definition step_key (step : WorkflowStep) : string * string :=
  (plugin step, action step).

Definition result_key (sr : StepResult) : string * string :=
  (sr_plugin sr, sr_action sr).

(** The entry a failed step result leaves in [errors]. *)
Definition result_entry (sr : StepResult) : string :=
  sr_plugin sr +:+ ":" +:+ sr_action sr +:+ " - " +:+ interpolate (sr_error sr).

(** The entries of the failed steps, in order. *)
Definition failed_entries (l : list StepResult) : list string :=
  result_entry <$> filter (λ sr, sr_status sr = step_failed) l.

(** How a run over [stepList] can end: the results [ran] are those of its
    first steps, in order; a failed observation step is the last one; and
    either every step ran and none was a failed observation step, or the
    last one was, or an error escaped the next step and was caught by
    [run]. *)
Definition run_outcome (stepList : list WorkflowStep) (ran : list StepResult)
    (errs : list string) (st : RunStatus) : Prop :=
  result_key <$> ran = step_key <$> take (length ran) stepList
  ∧ (∀ i sr, ran !! i = Some sr → failed_observe sr → length ran = S i)
  ∧ ((st = run_completed ∧ errs = failed_entries ran
      ∧ length ran = length stepList
      ∧ Forall (λ sr, ¬ failed_observe sr) ran)
     ∨ (st = run_failed ∧ errs = failed_entries ran
        ∧ ∃ sr, last ran = Some sr ∧ failed_observe sr)
     ∨ (st = run_failed ∧ (∃ msg, errs = failed_entries ran ++ [msg])
        ∧ length ran < length stepList
        ∧ Forall (λ sr, ¬ failed_observe sr) ran)).

End WorkflowRunner.

(* ===================================================================== *)
(** * A small world to run the definitions in                            *)
(* ===================================================================== *)

Module Sample.

(** A clock that advances at each reading, a counter for identifiers, what
    the storage was asked to write, and how the plugins behave: an action
    listed in [sim_failing] as "plugin:action" reports [success: false],
    one listed in [sim_throwing] throws. The plugins registered are
    observe, analyze and execute. *)
Record SimWorld : Type := {
  sim_clock : Z;
  sim_ids : nat;
  sim_runs : list CreateRunInput;
  sim_created : list CreateTaskInput;
  sim_updates : list (string * UpdateTaskInput);
  sim_failing : list string;
  sim_throwing : list string;
}.

Definition tick (w : SimWorld) : SimWorld :=
  {| sim_clock := sim_clock w + 1; sim_ids := sim_ids w; sim_runs := sim_runs w;
     sim_created := sim_created w; sim_updates := sim_updates w;
     sim_failing := sim_failing w; sim_throwing := sim_throwing w |}.

Definition next_id (w : SimWorld) : SimWorld :=
  {| sim_clock := sim_clock w; sim_ids := S (sim_ids w); sim_runs := sim_runs w;
     sim_created := sim_created w; sim_updates := sim_updates w;
     sim_failing := sim_failing w; sim_throwing := sim_throwing w |}.

Definition log_run (r : CreateRunInput) (w : SimWorld) : SimWorld :=
  {| sim_clock := sim_clock w; sim_ids := sim_ids w; sim_runs := sim_runs w ++ [r];
     sim_created := sim_created w; sim_updates := sim_updates w;
     sim_failing := sim_failing w; sim_throwing := sim_throwing w |}.

Definition log_created (t : CreateTaskInput) (w : SimWorld) : SimWorld :=
  {| sim_clock := sim_clock w; sim_ids := S (sim_ids w); sim_runs := sim_runs w;
     sim_created := sim_created w ++ [t]; sim_updates := sim_updates w;
     sim_failing := sim_failing w; sim_throwing := sim_throwing w |}.

Definition log_update (taskId : string) (u : UpdateTaskInput) (w : SimWorld)
    : SimWorld :=
  {| sim_clock := sim_clock w; sim_ids := sim_ids w; sim_runs := sim_runs w;
     sim_created := sim_created w; sim_updates := sim_updates w ++ [(taskId, u)];
     sim_failing := sim_failing w; sim_throwing := sim_throwing w |}.

Definition sim_execute (p a : string) (w : SimWorld)
    : (JSError + PluginResult) * SimWorld :=
  if bool_decide (p +:+ ":" +:+ a ∈ sim_throwing w) then (inl (Error "crash"), w)
  else if bool_decide (p +:+ ":" +:+ a ∈ sim_failing w)
  then (inr {| success := false; data := None; plugin_error := Some "boom" |}, w)
  else (inr {| success := true; data := Some ∅; plugin_error := None |}, w).

Definition sim : Collaborators :=
  {| World := SimWorld;
     Plugin := string;
     Date_now := λ w, (sim_clock w, tick w);
     uuidv4 := λ w, ("uuid-" +:+ pretty (sim_ids w), next_id w);
     nanoid := λ w, ("run-" +:+ pretty (sim_ids w), next_id w);
     JSON_stringify := λ _, "{}";
     db_tasks_create := λ input w,
       (inr {| row_id := or_string (cti_id input) ("task-" +:+ pretty (sim_ids w));
               row_run_id := cti_runId input; row_type := cti_type input;
               row_status := "pending" |},
        log_created input w);
     db_tasks_update := λ taskId u w, (inr true, log_update taskId u w);
     db_runs_create := λ input w,
       (inr {| run_id := or_string (cri_id input) "run"; 
               run_workflow_id := cri_workflowId input; run_status := "pending" |},
        log_run input w);
     db_runs_update := λ _ _ w, (inr true, w);
     db_observations_findByRun := λ _ w, (inr [], w);
     db_analyses_findByRun := λ _ w, (inr [], w);
     db_actions_findByRun := λ _ w, (inr [], w);
     plugins_get := λ name w,
       (inr (if bool_decide (name ∈ ["observe"; "analyze"; "execute"])
             then Some name else None), w);
     plugin_execute := λ p a _ _ w, sim_execute p a w |}.

(** A world in which every action succeeds, one in which the listed
    actions report failure, and one in which the scoring and the second
    observation do. *)
Definition quiet : SimWorld :=
  {| sim_clock := 1000; sim_ids := 0; sim_runs := []; sim_created := [];
     sim_updates := []; sim_failing := []; sim_throwing := [] |}.

Definition failing (names : list string) : SimWorld :=
  {| sim_clock := 1000; sim_ids := 0; sim_runs := []; sim_created := [];
     sim_updates := []; sim_failing := names; sim_throwing := [] |}.

Definition troubled : SimWorld := failing ["analyze:score"; "observe:mempool"].

(** A task [A] of run [r1] with a child [B] registered under run [r2]. *)
Definition task_config (taskId runId : string) (parent : option string)
    : Task.TaskConfig :=
  {| Task.cfg_id := Some taskId; Task.cfg_runId := runId;
     Task.cfg_type := "observe:scan"; Task.cfg_input := "{}";
     Task.cfg_parentId := parent; Task.cfg_agentId := None;
     Task.cfg_priority := None; Task.cfg_maxRetries := None;
     Task.cfg_timeoutMs := None |}.

Definition parent_and_child : TaskManager.TaskManager * SimWorld :=
  snd ((@TaskManager.createTask sim (task_config "A" "r1" None);;
        @TaskManager.createTask sim (task_config "B" "r2" (Some "A")))
         (TaskManager.new true, quiet)).

(** The tasks of the run of [busy_orchestrator]: one pending task. *)
Definition run_tasks : TaskManager.TaskManager * SimWorld :=
  snd (@TaskManager.createTask sim (task_config "T1" "run-0" None)
         (TaskManager.new true, quiet)).

Definition step (p a : string) : WorkflowStep :=
  {| plugin := p; action := a; step_config := None; requireApproval := None |}.

Definition dominion_config : DominionConfig :=
  {| general_dryRun := true; general_requireApproval := true;
     workflows := {[ "audit" := {| steps := [step "observe" "blocks";
                                             step "analyze" "score";
                                             step "observe" "mempool";
                                             step "execute" "report"] |} ]};
     analyze_scoring_thresholdAlert := 80 |}.

Definition sample_runner : WorkflowRunner.WorkflowRunner :=
  WorkflowRunner.new {| WorkflowRunner.opt_config := dominion_config;
                        WorkflowRunner.opt_dryRun := None;
                        WorkflowRunner.opt_approve := None |}.

Definition busy_orchestrator : Orchestrator.Orchestrator :=
  {| Orchestrator.config := dominion_config; Orchestrator.dryRun := true;
     Orchestrator.currentRunId := Some "run-0"; Orchestrator.isRunning := true |}.


(** The fixtures of the repository's tests. *)
Definition test_task : Task.Task :=
  Task.new {| Task.cfg_id := None; Task.cfg_runId := "test-run-123";
              Task.cfg_type := "test:action"; Task.cfg_input := "{key: 'value'}";
              Task.cfg_parentId := None; Task.cfg_agentId := None;
              Task.cfg_priority := Some Task.normal;
              Task.cfg_maxRetries := Some 3; Task.cfg_timeoutMs := None |}
           "uuid-1" 1000.

Definition test_breaker (threshold timeout : Z) : CircuitBreaker.CircuitBreaker :=
  CircuitBreaker.new {| CircuitBreaker.opt_failureThreshold := threshold;
                        CircuitBreaker.opt_resetTimeoutMs := timeout;
                        CircuitBreaker.opt_halfOpenRequests := None |}.

Definition scenario_runner : WorkflowRunner.WorkflowRunner :=
  WorkflowRunner.new
    {| WorkflowRunner.opt_config :=
         {| general_dryRun := true; general_requireApproval := true;
            workflows :=
              {[ "two-steps" := {| steps := [step "observe" "scan";
                                             step "analyze" "score"] |};
                 "three-steps" := {| steps := [step "observe" "scan";
                                               step "analyze" "score";
                                               step "execute" "report"] |} ]};
            analyze_scoring_thresholdAlert := 80 |};
       WorkflowRunner.opt_dryRun := None;
       WorkflowRunner.opt_approve := None |}.

Definition error_runner : WorkflowRunner.WorkflowRunner :=
  WorkflowRunner.new
    {| WorkflowRunner.opt_config :=
         {| general_dryRun := true; general_requireApproval := true;
            workflows :=
              {[ "error_workflow" := {| steps := [step "nonexistent" "action"] |} ]};
            analyze_scoring_thresholdAlert := 80 |};
       WorkflowRunner.opt_dryRun := Some true;
       WorkflowRunner.opt_approve := None |}.

(** A tool that takes any parameters and returns the id of the agent that
    runs it, and an executor agent that has two of them. *)
Definition echo_tool (toolName : string) : Tool.Tool Params string :=
  @Tool.new sim Params string
    {| Tool.def_name := toolName; Tool.def_description := "echo";
       Tool.def_category := "test";
       Tool.def_inputSchema := λ params, inr params;
       Tool.def_outputSchema := λ output, inr output;
       Tool.def_dangerous := None; Tool.def_requiresApproval := None;
       Tool.def_execute := λ _ context, ret (Tool.tc_agentId context) |}.

Definition executor_agent : Agent.Agent Params string * SimWorld :=
  match @Agent.new sim Params string
          {| Agent.cfg_id := Some "a1"; Agent.cfg_role := Agent.executor;
             Agent.cfg_name := "Executor"; Agent.cfg_description := None |} quiet
  with
  | (inr a, w) =>
      snd ((Agent.registerTool (echo_tool "execute_swap");;
            Agent.registerTool (echo_tool "webhook_notify");;
            Agent.setPolicy (Policy.createExecutorPolicy "executor")) (a, w))
  | (inl _, w) =>
      ({| Agent.id := "a1"; Agent.role := Agent.executor; Agent.name := "Executor";
          Agent.description := None; Agent._status := Agent.idle;
          Agent._tools := ∅; Agent._policy := None; Agent.createdAt := 0;
          Agent._updatedAt := 0 |}, w)
  end.

Definition sample_context : Agent.AgentContext :=
  {| Agent.ctx_runId := "run-0"; Agent.ctx_taskId := None;
     Agent.ctx_input := None |}.

End Sample.

(* ===================================================================== *)
(** * Properties of the task state machine                               *)
(* ===================================================================== *)

Module TaskFacts.
Import Task.

Lemma isTerminal_status (t : Task) :
  isTerminal t =
  match status t with completed | failed | cancelled => true | _ => false end.
Proof. unfold isTerminal. by destruct (status t); vm_compute. Qed.

Lemma startable_status (s : TaskStatus) :
  bool_decide (s ∈ [pending; queued]) =
  match s with pending | queued => true | _ => false end.
Proof. by destruct s; vm_compute. Qed.

Ltac run_call :=
  unfold after; unfold call, queue, start, complete, fail, cancel, retry, bind, gets,
    get, modify, throw, ret, canRetry, invalid_transition, permits;
  cbv beta iota; cbn [verb fst snd];
  rewrite ?isTerminal_status, ?startable_status.

(** Case analysis on a call and on what its guard reads. *)
Ltac call_cases c t :=
  destruct c as [|agent ?| | | |]; run_call; unfold permits;
  [ | destruct (truthy_string agent) | | | 
    | destruct (bool_decide (retries t < maxRetries t)) eqn:?Hlt ];
  destruct (status t) eqn:?Hs; cbn [negb andb orb fst snd target];
  rewrite ?bool_decide_eq_true_2 by done;
  rewrite ?bool_decide_eq_false_2 by done;
  cbn [negb andb orb fst snd].

(** A call the status does not permit throws before it writes anything. *)
Lemma rejected_call (t : Task) (c : Call) :
  permits c t = false →
  call c t = (inl (invalid_transition c t), t).
Proof.
  intros H. destruct c; run_call; unfold permits in H.
  1-5: destruct (status t) eqn:Hs; vm_compute in H; try discriminate H;
       rewrite ?Hs; reflexivity.
  rewrite andb_comm, H. reflexivity.
Qed.



Ltac permits_cases c t := call_cases c t.

Lemma after_status (c : Call) (t : Task) :
  status (after c t) = if permits c t then target c else status t.
Proof. permits_cases c t; done. Qed.


Lemma after_maxRetries (c : Call) (t : Task) :
  maxRetries (after c t) = maxRetries t.
Proof. call_cases c t; reflexivity. Qed.

Lemma after_output (c : Call) (t : Task) :
  output (after c t) =
  match c with
  | Complete o _ => if permits c t then Some o else output t
  | _ => output t
  end.
Proof. permits_cases c t; done. Qed.

Lemma after_error (c : Call) (t : Task) :
  error (after c t) =
  match c with
  | Fail e _ => if permits c t then Some e else error t
  | Retry => if permits c t then None else error t
  | _ => error t
  end.
Proof. permits_cases c t; done. Qed.








Lemma after_invariant (c : Call) (t : Task) :
  task_invariant t → task_invariant (after c t).
Proof.
  unfold task_invariant.
  rewrite after_status, after_output, after_error.
  destruct c; unfold permits; destruct (status t) eqn:Hs;
    rewrite ?bool_decide_eq_true_2 by done;
    rewrite ?bool_decide_eq_false_2 by done;
    cbn [negb andb orb target]; rewrite ?Hs; try done.
  - intros [_ H]. split; [by eexists | done].
  - intros [H _]. split; [done| by eexists].
  - destruct (bool_decide _); cbn; rewrite ?Hs; [|done]. by intros [-> _].
Qed.

Lemma after_all_invariant (cs : list Call) (t : Task) :
  task_invariant t → task_invariant (after_all cs t).
Proof.
  revert t. induction cs as [|c cs IH]; intros t H; [done|].
  cbn. apply IH. by apply after_invariant.
Qed.

(** C1. A transition the current status does not permit throws the
    invalid-transition error of its method and leaves the task, every field
    of it, as it was before the call. *)
Theorem illegal_transition_fails (t : Task) (c : Call) :
  permits c t = false →
  call c t = (inl (invalid_transition c t), t).
Proof. apply rejected_call. Qed.

Lemma illegal_transition_fails_witness :
  let t := Task.new sample_config "uuid-0" 1000 in
  permits (Complete "{}" 1001) t = false ∧
  call (Complete "{}" 1001) t
  = (inl (Error "Cannot complete task in status: pending"), t).
Proof.
  split; [reflexivity |].
  apply (illegal_transition_fails (Task.new sample_config "uuid-0" 1000)
           (Complete "{}" 1001)).
  reflexivity.
Defined.


(** C8, as the code has it. In every state a task can reach, a completed
    task has [output] set and [error] null, a failed task has [error] set
    and [output] null, and a cancelled task has neither set (as has a task
    that is pending, queued or running). *)
Theorem terminal_output_error (config : TaskConfig) (uuid : string) (now : Z)
    (cs : list Call) :
  task_invariant (after_all cs (Task.new config uuid now)).
Proof. apply after_all_invariant. cbn. done. Qed.

(** C8 as stated fails: a task cancelled before it ran is terminal and has
    neither [output] nor [error] set. *)
Lemma cancelled_task_has_neither :
  let t := after_all [Cancel 1001] (Task.new sample_config "uuid-0" 1000) in
  isTerminal t = true ∧ status t = cancelled ∧ ¬ exactly_one_set t.
Proof.
  cbn zeta. split; [by vm_compute | split; [by vm_compute |]].
  intros [[[e H] _] | [_ [e H]]]; vm_compute in H; discriminate H.
Qed.

End TaskFacts.

(* ===================================================================== *)
(** * More of the task: permitted calls, time stamps, children           *)
(* ===================================================================== *)

Module TaskLifecycleFacts.
Import Task TaskFacts.

Lemma call_returns (c : Call) (t : Task) :
  permits c t = true → call c t = (inr tt, after c t).
Proof. call_cases c t; done. Qed.

Lemma after_rejected (c : Call) (t : Task) :
  permits c t = false → after c t = t.
Proof. intros H. unfold after. by rewrite rejected_call. Qed.

Lemma after_startedAt (c : Call) (t : Task) :
  startedAt (after c t) =
  match c with
  | Start _ now => if permits c t then Some now else startedAt t
  | Retry => if permits c t then None else startedAt t
  | _ => startedAt t
  end.
Proof. call_cases c t; done. Qed.

Lemma after_completedAt (c : Call) (t : Task) :
  completedAt (after c t) =
  match c with
  | Complete _ now | Fail _ now | Cancel now =>
      if permits c t then Some now else completedAt t
  | Retry => if permits c t then None else completedAt t
  | _ => completedAt t
  end.
Proof. call_cases c t; done. Qed.

(** The fields no transition writes. *)
Lemma after_frame (c : Call) (t : Task) :
  Task.id (after c t) = Task.id t ∧ runId (after c t) = runId t
  ∧ Task.type (after c t) = Task.type t ∧ parentId (after c t) = parentId t
  ∧ priority (after c t) = priority t ∧ timeoutMs (after c t) = timeoutMs t
  ∧ input (after c t) = input t ∧ children (after c t) = children t
  ∧ createdAt (after c t) = createdAt t.
Proof. call_cases c t; done. Qed.

(** X1. A transition goes through exactly when the status
    permits it (queue from pending; start from pending or queued; complete
    and fail from running; cancel from a status that is not terminal; retry
    from failed with a retry left): the call then returns and the task has
    the status the method sets; otherwise it throws. Either way the fields
    that identify the task, its input, its creation time and its children
    are as before. *)
Theorem transition_permitted (t : Task) (c : Call) :
  call c t = (if permits c t then inr tt else inl (invalid_transition c t), after c t)
  ∧ status (after c t) = (if permits c t then target c else status t)
  ∧ Task.id (after c t) = Task.id t ∧ runId (after c t) = runId t
  ∧ Task.type (after c t) = Task.type t ∧ parentId (after c t) = parentId t
  ∧ priority (after c t) = priority t ∧ maxRetries (after c t) = maxRetries t
  ∧ timeoutMs (after c t) = timeoutMs t ∧ input (after c t) = input t
  ∧ children (after c t) = children t ∧ createdAt (after c t) = createdAt t.
Proof.
  split; [|split; [apply after_status|]].
  - destruct (permits c t) eqn:Hp.
    + by apply call_returns.
    + rewrite after_rejected by done. by apply rejected_call.
  - destruct (after_frame c t) as (? & ? & ? & ? & ? & ? & ? & ? & ?).
    rewrite after_maxRetries. done.
Qed.

(** ** Time stamps *)

Lemma after_timestamps (c : Call) (t : Task) :
  timestamps_invariant t → timestamps_invariant (after c t).
Proof.
  unfold timestamps_invariant.
  rewrite after_status, after_startedAt, after_completedAt.
  destruct c; unfold permits; destruct (status t) eqn:Hs;
    rewrite ?bool_decide_eq_true_2 by done;
    rewrite ?bool_decide_eq_false_2 by done;
    cbn [negb andb orb target]; rewrite ?Hs; try done;
    try (intros [? ?]; split; by eauto).
  all: try (intros [-> ->]; by eauto).
  all: try (intros [H ->]; by eauto).
  destruct (bool_decide _); done.
Qed.

(** X2. In every state a task can reach, a pending or
    queued task has neither [startedAt] nor [completedAt]; a running task
    has [startedAt] and no [completedAt]; a completed or failed task has
    both; a cancelled task has [completedAt]. *)
Theorem timestamps_follow_status (config : TaskConfig) (uuid : string) (now : Z)
    (cs : list Call) :
  timestamps_invariant (after_all cs (Task.new config uuid now)).
Proof.
  assert (H : timestamps_invariant (Task.new config uuid now)) by (by cbn).
  revert H. generalize (Task.new config uuid now).
  induction cs as [|c cs IH]; intros t H; [done|].
  cbn. apply IH. by apply after_timestamps.
Qed.

(** ** Settled tasks *)

Lemma settled_permits (t : Task) : settled t ↔ ∀ c, permits c t = false.
Proof.
  unfold settled. split.
  - intros H c. destruct c; unfold permits;
      destruct H as [H|[H|[H Hr]]]; rewrite ?H;
      rewrite ?bool_decide_eq_true_2 by done;
      rewrite ?bool_decide_eq_false_2 by (done || lia); done.
  - intros H. pose proof (H (Cancel 0)) as Hc. pose proof (H Retry) as Hr.
    unfold permits in Hc, Hr.
    destruct (status t) eqn:Hs; try (vm_compute in Hc; discriminate Hc); eauto.
    right; right. split; [done|].
    rewrite bool_decide_eq_true_2 in Hr by done. cbn in Hr.
    apply bool_decide_eq_false in Hr. lia.
Qed.

Lemma settled_after_all (cs : list Call) (t : Task) :
  settled t → after_all cs t = t.
Proof.
  intros H. induction cs as [|c cs IH]; [done|].
  cbn. rewrite after_rejected; [done|]. by apply settled_permits.
Qed.

(** X3. A task that is completed or cancelled, or that has
    failed with its retries used up, is settled: these are exactly the
    states in which no transition is permitted, and whatever calls are made
    on such a task, each throws and the task stays as it is. *)
Theorem settled_task_never_changes (t : Task) :
  (settled t ↔ ∀ c, permits c t = false)
  ∧ (settled t → ∀ cs, after_all cs t = t
       ∧ Forall (λ c, call c t = (inl (invalid_transition c t), t)) cs).
Proof.
  split; [apply settled_permits|].
  intros H cs. split; [by apply settled_after_all|].
  apply Forall_forall. intros c _. apply rejected_call. by apply settled_permits.
Qed.

Lemma settled_task_never_changes_witness :
  let t := after_all [Start None 1001; Complete "{}" 1002]
             (Task.new sample_config "uuid-0" 1000) in
  settled t
  ∧ after_all [Retry; Cancel 1003; Start None 1004; Fail "late" 1005] t = t.
Proof.
  cbn zeta.
  assert (H : settled (after_all [Start None 1001; Complete "{}" 1002]
                         (Task.new sample_config "uuid-0" 1000)))
    by (by left).
  split; [exact H|].
  exact (proj1 (proj2 (settled_task_never_changes _) H
                  [Retry; Cancel 1003; Start None 1004; Fail "late" 1005])).
Defined.

(** ** Duration *)

Lemma after_stamps_ordered (lo m : Z) (c : Call) (t : Task) :
  (lo ≤ m)%Z → timestamps_invariant t → stamps_ordered lo m t →
  match call_time c with Some now => (m ≤ now)%Z | None => True end →
  stamps_ordered lo (default m (call_time c)) (after c t).
Proof.
  unfold stamps_ordered, timestamps_invariant.
  rewrite after_startedAt, after_completedAt.
  intros Hlo Hinv Hord Hm.
  destruct c; cbn in Hm |- *; unfold permits;
    destruct (status t) eqn:Hst;
    destruct (startedAt t) as [s|], (completedAt t) as [e|];
    repeat case_bool_decide; cbn [negb andb orb]; try done; try lia.
  all: try (by destruct Hinv as [? [=]]).
  all: try (by destruct Hinv as [[? [=]] ?]).
  all: try (by destruct Hinv as [[=] ?]).
Qed.

Lemma after_all_stamps_ordered (lo m : Z) (cs : list Call) (t : Task) :
  (lo ≤ m)%Z → timestamps_invariant t → stamps_ordered lo m t →
  clock_monotone m cs →
  timestamps_invariant (after_all cs t)
  ∧ stamps_ordered lo (last_reading m cs) (after_all cs t).
Proof.
  revert m t. induction cs as [|c cs IH]; intros m t Hlo Hinv Hord Hmono; [done|].
  cbn [clock_monotone] in Hmono. cbn [after_all foldl last_reading].
  apply IH.
  - destruct (call_time c); cbn; [lia | done].
  - by apply after_timestamps.
  - apply after_stamps_ordered; try done. destruct (call_time c); [lia | done].
  - destruct (call_time c); cbn; [by destruct Hmono | done].
Qed.

(** X4. When the clock does not run backwards, the
    [duration] of a task is never negative, whatever calls were made on it;
    and when the clock readings are positive, the duration of a terminal
    task does not depend on the time at which it is asked for. *)
Theorem duration_never_negative (config : TaskConfig) (uuid : string) (now : Z)
    (cs : list Call) (later : Z) :
  clock_monotone now cs → (last_reading now cs ≤ later)%Z →
  let t := after_all cs (Task.new config uuid now) in
  (∀ d, duration later t = Some d → (0 ≤ d)%Z)
  ∧ ((0 < now)%Z → isTerminal t = true →
     ∀ later', duration later' t = duration later t).
Proof.
  intros Hmono Hlater t.
  destruct (after_all_stamps_ordered now now cs (Task.new config uuid now))
    as [Hinv Hord]; [lia | by cbn | by cbn | done |].
  fold t in Hinv, Hord. unfold stamps_ordered in Hord.
  unfold duration. split.
  - intros d. destruct (startedAt t) as [s|]; [|done].
    case_bool_decide; [done|].
    destruct (completedAt t) as [e|]; [case_bool_decide|]; intros [= <-]; lia.
  - intros Hpos Hterm later'.
    rewrite isTerminal_status in Hterm. unfold timestamps_invariant in Hinv.
    destruct (startedAt t) as [s|]; [|done].
    destruct (completedAt t) as [e|].
    + repeat case_bool_decide; try done; lia.
    + destruct (status t); try done; by destruct Hinv as [? [=]] || destruct Hinv as [? ?].
Qed.

Lemma duration_never_negative_witness :
  let cs := [Queue; Start (Some "a1") 1005; Fail "boom" 1010; Retry;
             Start None 1020; Complete "{}" 1050] in
  let t := after_all cs (Task.new sample_config "uuid-0" 1000) in
  clock_monotone 1000 cs ∧ (last_reading 1000 cs ≤ 2000)%Z
  ∧ duration 2000 t = Some 30%Z
  ∧ (0 ≤ 30)%Z
  ∧ duration 9999 t = duration 2000 t.
Proof.
  cbn zeta.
  assert (Hmono : clock_monotone 1000
            [Queue; Start (Some "a1") 1005; Fail "boom" 1010; Retry;
             Start None 1020; Complete "{}" 1050]) by (cbn; lia).
  assert (Hlast : (last_reading 1000
            [Queue; Start (Some "a1") 1005; Fail "boom" 1010; Retry;
             Start None 1020; Complete "{}" 1050] ≤ 2000)%Z) by (cbn; lia).
  pose proof (duration_never_negative sample_config "uuid-0" 1000 _ 2000 Hmono Hlast)
    as [Hnonneg Hfixed].
  split; [exact Hmono|]. split; [exact Hlast|]. split; [reflexivity|].
  split; [by apply Hnonneg|].
  apply Hfixed; [lia | reflexivity].
Defined.

(** ** Children *)

Lemma child_call_returns (c : ChildCall) (t : Task) :
  child_call c t = (inr tt, snd (child_call c t)).
Proof.
  destruct c; cbn; unfold addChild, removeChild, bind, gets, modify, ret; cbn; [|done].
  by case_bool_decide.
Qed.

Lemma remove_at_first_NoDup (c : string) (l : list string) :
  NoDup l → NoDup (remove_at_first c l).
Proof.
  induction 1 as [|x l Hx Hl IH]; cbn; [constructor|].
  case_bool_decide; [done|]. constructor; [|done].
  intros Hin. apply Hx. clear -Hin.
  induction l as [|y l IHl]; cbn in *; [done|].
  case_bool_decide; [by right|].
  apply elem_of_cons in Hin as [->|Hin]; [by left | right; by apply IHl].
Qed.

Lemma remove_at_first_absent (c : string) (l : list string) :
  c ∉ l → remove_at_first c l = l.
Proof.
  induction l as [|x l IH]; [done|]. intros Hnot. cbn.
  rewrite bool_decide_eq_false_2; [|intros ->; apply Hnot; by left].
  rewrite IH; [done|]. intros Hin. apply Hnot. by right.
Qed.

Lemma remove_at_first_snoc (c : string) (l : list string) :
  c ∉ l → remove_at_first c (l ++ [c]) = l.
Proof.
  induction l as [|x l IH]; cbn.
  - by rewrite bool_decide_eq_true_2.
  - intros Hnot. rewrite bool_decide_eq_false_2; [|intros ->; apply Hnot; by left].
    rewrite IH; [done|]. intros Hin. apply Hnot. by right.
Qed.

Lemma children_child_call (c : ChildCall) (t : Task) :
  children (snd (child_call c t)) =
  match c with
  | AddChild childId =>
      if bool_decide (childId ∈ children t) then children t
      else children t ++ [childId]
  | RemoveChild childId => remove_at_first childId (children t)
  end.
Proof.
  destruct c; cbn; unfold addChild, removeChild, bind, gets, modify, ret; cbn; [|done].
  by case_bool_decide.
Qed.

Lemma child_call_NoDup (c : ChildCall) (t : Task) :
  NoDup (children t) → NoDup (children (snd (child_call c t))).
Proof.
  intros H. rewrite children_child_call. destruct c.
  - case_bool_decide; [done|]. apply NoDup_app. split; [done|].
    split; [|apply NoDup_singleton].
    intros x Hx Hx'. apply list_elem_of_singleton in Hx' as ->. done.
  - by apply remove_at_first_NoDup.
Qed.

Lemma remove_at_first_gone (c : string) (l : list string) :
  NoDup l → c ∉ remove_at_first c l.
Proof.
  induction 1 as [|x l Hx Hl IH]; cbn; [by intros ?%elem_of_nil|].
  case_bool_decide as Heq; [by subst|].
  intros [->|Hin]%elem_of_cons; [done | by apply IH].
Qed.

(** X5. Whatever [addChild] and [removeChild] calls are
    made on a task, its list of children holds no id twice; so after
    [addChild(id)] the id is a child, and after [removeChild(id)] it is
    not. *)
Theorem children_never_duplicated (config : TaskConfig) (uuid : string) (now : Z)
    (cs : list ChildCall) :
  let t := after_child_calls cs (Task.new config uuid now) in
  NoDup (children t)
  ∧ ∀ childId,
      childId ∈ children (snd (addChild childId t))
      ∧ childId ∉ children (snd (removeChild childId t)).
Proof.
  intros t.
  assert (H : NoDup (children t)).
  { unfold t.
    assert (H : NoDup (children (Task.new config uuid now))) by (cbn; constructor).
    revert H. generalize (Task.new config uuid now).
    induction cs as [|c cs IH]; intros t0 H; [done|].
    cbn. apply IH. by apply child_call_NoDup. }
  split; [done|]. intros childId. split.
  - change (addChild childId t) with (child_call (AddChild childId) t).
    rewrite children_child_call.
    case_bool_decide; [done|]. apply elem_of_app. right. by left.
  - change (removeChild childId t) with (child_call (RemoveChild childId) t).
    rewrite children_child_call. by apply remove_at_first_gone.
Qed.

(** X6. For an id that is not yet a child:
    [removeChild] undoes [addChild] and gives back the task as it was, a
    second [addChild] of the same id changes nothing, and [removeChild]
    alone changes nothing. *)
Theorem addChild_removeChild_round_trip (childId : string) (t : Task) :
  childId ∉ children t →
  snd (removeChild childId (snd (addChild childId t))) = t
  ∧ snd (addChild childId (snd (addChild childId t))) = snd (addChild childId t)
  ∧ snd (removeChild childId t) = t.
Proof.
  intros Hnot. unfold addChild, removeChild, bind, gets, modify, ret. cbn.
  rewrite bool_decide_eq_false_2 by done. cbn.
  rewrite bool_decide_eq_true_2 by (apply elem_of_app; right; by left). cbn.
  rewrite remove_at_first_snoc, remove_at_first_absent by done.
  by destruct t.
Qed.

Lemma addChild_removeChild_round_trip_witness :
  let t := snd (addChild "c1" (Task.new sample_config "uuid-0" 1000)) in
  ("c2" ∉ children t)
  ∧ snd (removeChild "c2" (snd (addChild "c2" t))) = t.
Proof.
  cbn zeta.
  assert (H : "c2" ∉ children (snd (addChild "c1" (Task.new sample_config "uuid-0" 1000)))).
  { cbn. intros Hin. apply list_elem_of_singleton in Hin. discriminate Hin. }
  split; [exact H|].
  exact (proj1 (addChild_removeChild_round_trip "c2" _ H)).
Defined.

End TaskLifecycleFacts.

(* ===================================================================== *)
(** * Properties of retrying with backoff                                *)
(* ===================================================================== *)

Module RetryFacts.
Import Retry.

Lemma nominal_delay_nonneg (attempt : Z) (base : Q) (multiplier : option Q) :
  (0 <= base)%Q → (0 <= default 2%Q multiplier)%Q →
  (0 <= nominal_delay attempt base multiplier)%Q.
Proof.
  intros Hb Hm. unfold nominal_delay.
  apply Qmult_le_0_compat; [done|]. by apply Qpower_0_le.
Qed.

(** X7. In exact arithmetic, for a random draw in [0, 1),
    a base delay and a multiplier that are not negative: the delay
    [calculateBackoff] returns never exceeds [maxDelayMs], is at most 110% of
    [baseDelayMs * multiplier^(attempt-1)], and is at least 90% of it unless
    the cap applies; with a multiplier of at least 1 that nominal delay does
    not shrink from one attempt to a later one. *)
Theorem calculateBackoff_bounds (random : Q) (attempt : Z) (base cap : Q)
    (multiplier : option Q) :
  (0 <= random)%Q → (random < 1)%Q →
  (0 <= base)%Q → (0 <= default 2%Q multiplier)%Q →
  let delay := nominal_delay attempt base multiplier in
  let result := calculateBackoff random attempt base cap multiplier in
  (result <= cap)%Q
  ∧ (result <= delay * (11 # 10))%Q
  ∧ (Qmin (delay * (9 # 10)) cap <= result)%Q
  ∧ (∀ later, (1 <= default 2%Q multiplier)%Q → (attempt ≤ later)%Z →
       (delay <= nominal_delay later base multiplier)%Q).
Proof.
  intros Hr0 Hr1 Hb Hm delay result.
  pose proof (nominal_delay_nonneg attempt base multiplier Hb Hm) as Hd.
  fold delay in Hd.
  assert (Hlo : (delay * (9 # 10) <= delay + delay * (1 # 10) * (random * 2 - 1))%Q)
    by nra.
  assert (Hhi : (delay + delay * (1 # 10) * (random * 2 - 1) <= delay * (11 # 10))%Q)
    by nra.
  unfold result, calculateBackoff. fold (nominal_delay attempt base multiplier).
  fold delay. cbn zeta.
  split; [apply Q.le_min_r|]. split; [|split].
  - eapply Qle_trans; [apply Q.le_min_l | exact Hhi].
  - by apply Q.min_le_compat_r.
  - intros later Hge Hle. unfold delay, nominal_delay.
    rewrite !(Qmult_comm base).
    apply Qmult_le_compat_r; [|done].
    apply Qpower_le_compat_l; [lia | done].
Qed.

Lemma calculateBackoff_bounds_witness :
  (calculateBackoff (1 # 4) 3 1000 30000 None <= 30000)%Q
  ∧ (calculateBackoff (1 # 4) 3 1000 30000 None
     <= nominal_delay 3 1000 None * (11 # 10))%Q
  ∧ (nominal_delay 3 1000 None <= nominal_delay 4 1000 None)%Q.
Proof.
  assert (H0 : (0 <= 1 # 4)%Q) by done.
  assert (H1 : (1 # 4 < 1)%Q) by done.
  assert (Hb : (0 <= 1000)%Q) by done.
  assert (Hm : (0 <= default 2%Q None)%Q) by done.
  pose proof (calculateBackoff_bounds (1 # 4) 3 1000 30000 None H0 H1 Hb Hm)
    as (Hcap & Hhi & _ & Hgrow).
  split; [exact Hcap|]. split; [exact Hhi|].
  apply Hgrow; [done | lia].
Defined.

Section Journal.
Context {W T : Type}.
Variable Math_random : W → Q * W.
Variable sleep : Q → W → W.
Variable fn : M W T.
Variable opts : RetryOptions.

Let n : nat := Z.to_nat (maxAttempts opts).
Let run := attempts (journaled_random Math_random) (journaled_sleep sleep) opts
             (journaled_fn fn).

Lemma attempts_journal (remaining : nat) (errors : list JSError) (attempt : Z)
    (j : Journal W T) :
  (length errors + remaining = n)%nat →
  attempt = (1 + Z.of_nat (length errors))%Z →
  outcomes j = inl <$> errors →
  Forall (retryable opts) errors →
  length (sleeps j) = Nat.min (length errors) (n - 1) →
  Forall (λ delay, delay <= maxDelayMs opts)%Q (sleeps j) →
  Forall (λ o, ∃ w, fst (fn w) = o) (outcomes j) →
  journal_closed fn opts (fst (run remaining attempt (last errors) j))
                 (snd (run remaining attempt (last errors) j)).
Proof.
  revert errors attempt j.
  induction remaining as [|remaining IH];
    intros errors attempt j Hn Hattempt Hout Hretry Hsleeps Hcap Hfn.
  - cbn. unfold journal_closed. rewrite Hout, length_fmap, Hsleeps.
    split; [unfold n in Hn; lia|]. split; [lia|]. split; [done|].
    split; [by rewrite <- Hout|].
    destruct (last errors) as [error|] eqn:Hlast.
    + apply last_Some in Hlast as [errors' ->].
      exists errors'. split; [done|]. split.
      * by apply Forall_app in Hretry as [? _].
      * left. unfold n in Hn. lia.
    + apply last_None in Hlast as ->. split; [done | cbn in Hn; unfold n in Hn; lia].
  - set (j1 := λ o : JSError + T,
                  {| outcomes := outcomes j ++ [o]; sleeps := sleeps j;
                     world := snd (fn (world j)) |}).
    assert (Hcall : journaled_fn fn j = (fst (fn (world j)), j1 (fst (fn (world j))))).
    { unfold journaled_fn, j1. by destruct (fn (world j)). }
    assert (Hfn1 : ∀ o, o = fst (fn (world j)) →
                   Forall (λ o, ∃ w, fst (fn w) = o) (outcomes (j1 o))).
    { intros o ->. cbn. apply Forall_app. split; [done|].
      constructor; [by eexists | done]. }
    unfold run. cbn [attempts]. rewrite Hcall.
    destruct (fst (fn (world j))) as [error|result].
    + destruct (gives_up opts error) eqn:Hgive.
      * cbn [fst snd]. unfold journal_closed. cbn [outcomes sleeps j1].
        rewrite Hout, length_app, length_fmap, Hsleeps. cbn [length].
        split; [unfold n in Hn; lia|]. split; [lia|]. split; [done|]. split.
        { rewrite <- Hout. by apply Hfn1. }
        exists errors. rewrite fmap_app. split; [done|]. split; [done|].
        right. unfold retryable. by rewrite Hgive.
      * set (j2 := if bool_decide (attempt < maxAttempts opts)%Z
                   then
                     match journaled_random Math_random (j1 (inl error)) with
                     | (random, j') =>
                         journaled_sleep sleep
                           (calculateBackoff random attempt (baseDelayMs opts)
                              (maxDelayMs opts) (backoffMultiplier opts)) j'
                     end
                   else j1 (inl error)).
        assert (Hj2 : outcomes j2 = inl <$> (errors ++ [error])
                      ∧ length (sleeps j2) = Nat.min (length (errors ++ [error])) (n - 1)
                      ∧ Forall (λ delay, delay <= maxDelayMs opts)%Q (sleeps j2)).
        { unfold j2. rewrite length_app. cbn [length].
          case_bool_decide as Hlt.
          - unfold journaled_random. cbn [world j1].
            destruct (Math_random _) as [random w']. cbn.
            rewrite Hout, fmap_app, length_app, Hsleeps. cbn [length].
            split; [done|]. split; [unfold n in *; lia|].
            apply Forall_app. split; [done|]. constructor; [|done].
            apply Q.le_min_r.
          - cbn. rewrite Hout, fmap_app, Hsleeps.
            split; [done|]. split; [unfold n in *; lia | done]. }
        destruct Hj2 as (Hout2 & Hsleeps2 & Hcap2).
        replace (Some error) with (last (errors ++ [error])) by apply last_snoc.
        apply IH; try done.
        -- rewrite length_app. cbn. lia.
        -- rewrite length_app. cbn. lia.
        -- apply Forall_app. split; [done|]. constructor; [|done]. done.
        -- rewrite Hout2, fmap_app, <- Hout. by apply (Hfn1 (inl error)).
    + cbn [fst snd]. unfold journal_closed. cbn [outcomes sleeps j1].
      rewrite Hout, length_app, length_fmap, Hsleeps. cbn [length].
      split; [unfold n in Hn; lia|]. split; [lia|]. split; [done|]. split.
      { rewrite <- Hout. by apply Hfn1. }
      by exists errors.
Qed.

Lemma withRetry_journal (options : PartialRetryOptions) (w : W) :
  opts = merge options →
  let run := withRetry (journaled_random Math_random) (journaled_sleep sleep)
               (journaled_fn fn) options (journal w) in
  journal_closed fn opts (fst run) (snd run).
Proof.
  intros Hopts. cbn zeta. unfold withRetry. rewrite <- Hopts.
  apply (attempts_journal (Z.to_nat (maxAttempts opts)) [] 1 (journal w));
    done.
Qed.

End Journal.

Section WithRetryFacts.
Context {W T : Type}.
Implicit Types (Math_random : W → Q * W) (sleep : Q → W → W) (fn : M W T).

(** X8. Whatever the function does, [withRetry] calls it
    at most [maxAttempts] times, sleeps exactly once between two calls and
    not after the last one, and never sleeps longer than [maxDelayMs]. *)
Theorem withRetry_attempts_bounded Math_random sleep fn
    (options : PartialRetryOptions) (w : W) :
  let j := snd (withRetry (journaled_random Math_random) (journaled_sleep sleep)
                  (journaled_fn fn) options (journal w)) in
  (length (outcomes j) ≤ Z.to_nat (maxAttempts (merge options)))%nat
  ∧ length (sleeps j) = Nat.pred (length (outcomes j))
  ∧ Forall (λ delay, delay <= maxDelayMs (merge options))%Q (sleeps j).
Proof.
  destruct (withRetry_journal Math_random sleep fn (merge options) options w)
    as (Hcalls & Hsleeps & Hcap & _); done.
Qed.


(** X10. When the function throws at every call, every
    error may be retried and [maxAttempts] is at least 1, [withRetry] calls
    it exactly [maxAttempts] times, sleeps [maxAttempts - 1] times, and
    throws the error of the last call. *)
Theorem withRetry_exhausted Math_random sleep fn
    (options : PartialRetryOptions) (w : W) :
  (∀ w, ∃ error w', fn w = (inl error, w')) →
  (∀ error, retryable (merge options) error) →
  (1 ≤ maxAttempts (merge options))%Z →
  let run := withRetry (journaled_random Math_random) (journaled_sleep sleep)
               (journaled_fn fn) options (journal w) in
  ∃ error, fst run = inl (Some error)
           ∧ last (outcomes (snd run)) = Some (inl error)
           ∧ length (outcomes (snd run)) = Z.to_nat (maxAttempts (merge options))
           ∧ length (sleeps (snd run)) = Nat.pred (Z.to_nat (maxAttempts (merge options))).
Proof.
  intros Hfails Hretry Hmax run.
  destruct (withRetry_journal Math_random sleep fn (merge options) options w)
    as (_ & Hsleeps & _ & Hfn & Hr); [done|].
  fold run in Hsleeps, Hfn, Hr.
  destruct (fst run) as [[error|]|result].
  - destruct Hr as (errors & Hout & _ & [Hlen | Hnot]); [|by destruct Hnot].
    exists error. split; [done|]. rewrite Hsleeps, Hlen.
    split; [|done]. rewrite Hout, fmap_app. apply last_snoc.
  - destruct Hr as [_ Hle]. lia.
  - destruct Hr as (errors & Hout & _). rewrite Hout in Hfn.
    apply Forall_app in Hfn as [_ Hlast]. apply Forall_cons in Hlast as [[w0 Hw0] _].
    destruct (Hfails w0) as (e & w' & Hcall). rewrite Hcall in Hw0. discriminate Hw0.
Qed.

End WithRetryFacts.

Lemma withRetry_exhausted_witness :
  let run := withRetry (journaled_random (λ w : nat, ((1 # 2)%Q, w)))
               (journaled_sleep (λ _ w, w)) (journaled_fn hopeless)
               sample_retry_options (journal 0%nat) in
  ∃ error, fst run = inl (Some error)
           ∧ last (outcomes (snd run)) = Some (inl error)
           ∧ length (outcomes (snd run)) = 3%nat
           ∧ length (sleeps (snd run)) = 2%nat.
Proof.
  apply (withRetry_exhausted (λ w : nat, ((1 # 2)%Q, w)) (λ _ w, w) hopeless
           sample_retry_options 0%nat).
  - intros w. by eexists _, _.
  - done.
  - cbn. lia.
Defined.

End RetryFacts.

(* ===================================================================== *)
(** * Properties of the rate limiter                                     *)
(* ===================================================================== *)

Module RateLimiterFacts.
Import RateLimiter.

Lemma remaining_eq (now : Z) (rl : RateLimiter) :
  remaining now rl
  = (inr (Z.max 0 (maxRequests rl - Z.of_nat (length (in_window now rl)))),
     set_requests (in_window now rl) rl).
Proof. reflexivity. Qed.

(** Pruning at [now] loses nothing a later reading would have counted. *)
Lemma in_window_later (now later : Z) (rl : RateLimiter) :
  (now ≤ later)%Z →
  in_window later (set_requests (in_window now rl) rl) = in_window later rl.
Proof.
  intros Hle. unfold in_window. cbn.
  induction (requests rl) as [|t l IH]; [done|].
  rewrite !filter_cons. repeat case_decide; rewrite ?filter_cons;
    repeat case_decide; try lia; by rewrite IH.
Qed.

Lemma in_window_unexpired (now : Z) (rl : RateLimiter) :
  Forall (λ t, now - t < windowMs rl)%Z (requests rl) →
  set_requests (in_window now rl) rl = rl.
Proof.
  intros H. unfold in_window.
  replace (filter _ (requests rl)) with (requests rl); [by destruct rl|].
  induction H as [|t l Ht Hl IH]; [done|].
  rewrite filter_cons. case_decide; [by rewrite <- IH | lia].
Qed.

(** C9, as the code has it. [remaining()] returns [maxRequests] minus the
    number of recorded timestamps within the current window, floored at 0.
    It does write the limiter: it drops the timestamps that have left the
    window and keeps the others, in order, with [maxRequests] and [windowMs]
    as they were. The limiter is unchanged when no timestamp has expired,
    and, for a clock that does not run backwards, what a later
    [remaining()] reports is what it would have reported without the
    earlier call. *)
Theorem remaining_prunes_expired (now : Z) (rl : RateLimiter) :
  let rl' := snd (remaining now rl) in
  fst (remaining now rl)
  = inr (Z.max 0 (maxRequests rl
                  - Z.of_nat (length (filter (λ t, now - t < windowMs rl)%Z
                                        (requests rl)))))
  ∧ requests rl' = filter (λ t, now - t < windowMs rl)%Z (requests rl)
  ∧ maxRequests rl' = maxRequests rl
  ∧ windowMs rl' = windowMs rl
  ∧ (Forall (λ t, now - t < windowMs rl)%Z (requests rl) → rl' = rl)
  ∧ (∀ later, (now ≤ later)%Z →
       fst (remaining later rl') = fst (remaining later rl)).
Proof.
  rewrite remaining_eq. cbn [fst snd]. repeat split.
  - apply in_window_unexpired.
  - intros later Hle. rewrite !remaining_eq. cbn [fst].
    by rewrite in_window_later.
Qed.

Lemma remaining_prunes_expired_witness :
  let rl := {| requests := [95; 98]%Z; maxRequests := 5; windowMs := 10 |} in
  Forall (λ t, 100 - t < windowMs rl)%Z (requests rl)
  ∧ (100 ≤ 103)%Z
  ∧ snd (remaining 100 rl) = rl
  ∧ fst (remaining 103 (snd (remaining 100 rl))) = fst (remaining 103 rl).
Proof.
  cbn zeta.
  pose proof (remaining_prunes_expired 100
    {| requests := [95; 98]%Z; maxRequests := 5; windowMs := 10 |}) as H.
  cbn zeta in H. destruct H as (_ & _ & _ & _ & Hsame & Hlater).
  assert (HF : Forall (λ t, 100 - t < 10)%Z [95; 98]%Z)
    by (repeat constructor; lia).
  split; [exact HF|]. split; [lia|]. split; [exact (Hsame HF)|].
  apply Hlater. lia.
Defined.

(** C9 as stated fails: a call of [remaining()] after a recorded timestamp
    has left the window changes the limiter, and the change can be seen
    from outside when the clock is set back: a later [remaining()] then
    reports 4 where it would have reported 3 without the earlier call. *)
Lemma remaining_mutates :
  remaining 100 sample
  = (inr 4%Z, {| requests := [95]%Z; maxRequests := 5; windowMs := 10 |})
  ∧ snd (remaining 100 sample) ≠ sample
  ∧ fst (remaining 5 (snd (remaining 100 sample))) = inr 4%Z
  ∧ fst (remaining 5 sample) = inr 3%Z.
Proof. repeat split; try reflexivity. discriminate. Qed.

(** ** Acquiring *)

(** The timestamps an [acquire] call keeps, before it pushes its own. *)
Lemma acquire_requests (now1 now2 now3 now4 : Z) (rl : RateLimiter) :
  let rl' := snd (acquire now1 now2 now3 now4 rl) in
  let l1 := in_window now1 rl in
  maxRequests rl' = maxRequests rl ∧ windowMs rl' = windowMs rl
  ∧ requests rl' =
    (if bool_decide (maxRequests rl ≤ Z.of_nat (length l1))%Z
     then match l1 !! 0%nat with
          | Some oldest =>
              if bool_decide (oldest = 0%Z) then l1
              else if bool_decide (0 < windowMs rl - (now2 - oldest))%Z
                   then filter (λ t, now3 - t < windowMs rl)%Z l1
                   else l1
          | None => l1
          end
     else l1) ++ [now4].
Proof.
  unfold acquire, cleanup, bind, modify, get, ret. cbn.
  case_bool_decide; [|done].
  destruct (in_window now1 rl !! 0%nat) as [oldest|] eqn:Hold; cbn; [|done].
  case_bool_decide; [done|]. cbn.
  case_bool_decide; done.
Qed.










Lemma sublist_filter {A} (P : A → Prop) `{∀ x, Decision (P x)} (l : list A) :
  sublist (filter P l) l.
Proof.
  induction l as [|x l IH]; [constructor|]. rewrite filter_cons.
  destruct (decide (P x)); by constructor.
Qed.

(** X12. [acquire()] never throws; it leaves [maxRequests]
    and [windowMs] as they are, appends the clock reading of the push as
    the last recorded request, and before it keeps, in order, recorded
    requests only, among them every one that is within the window both at
    the first and at the second cleanup. *)
Theorem acquire_records_request (now1 now2 now3 now4 : Z) (rl : RateLimiter) :
  let rl' := snd (acquire now1 now2 now3 now4 rl) in
  fst (acquire now1 now2 now3 now4 rl) = inr tt
  ∧ maxRequests rl' = maxRequests rl ∧ windowMs rl' = windowMs rl
  ∧ ∃ kept, requests rl' = kept ++ [now4]
            ∧ sublist kept (requests rl)
            ∧ ∀ t, t ∈ requests rl →
                   (now1 - t < windowMs rl)%Z → (now3 - t < windowMs rl)%Z →
                   t ∈ kept.
Proof.
  destruct (acquire_requests now1 now2 now3 now4 rl) as (Hm & Hw & Hreq).
  cbn zeta. split.
  { unfold acquire, cleanup, bind, modify, get, ret. cbn.
    case_bool_decide; [|done].
    destruct (in_window now1 rl !! 0%nat); cbn; [|done].
    case_bool_decide; [done|]. cbn. by case_bool_decide. }
  split; [done|]. split; [done|].
  eexists. split; [exact Hreq|].
  assert (H1 : sublist (in_window now1 rl) (requests rl)) by apply sublist_filter.
  assert (H3 : sublist (filter (λ t, now3 - t < windowMs rl)%Z (in_window now1 rl))
                 (requests rl)).
  { etransitivity; [apply sublist_filter | done]. }
  assert (Hin1 : ∀ t, t ∈ requests rl → (now1 - t < windowMs rl)%Z →
                 t ∈ in_window now1 rl).
  { intros t Ht H. by apply list_elem_of_filter. }
  assert (Hin3 : ∀ t, t ∈ requests rl → (now1 - t < windowMs rl)%Z →
                 (now3 - t < windowMs rl)%Z →
                 t ∈ filter (λ t, now3 - t < windowMs rl)%Z (in_window now1 rl)).
  { intros t Ht Ha Hb. apply list_elem_of_filter. split; [done|]. by apply Hin1. }
  case_bool_decide; [|by split; [|intros; apply Hin1]].
  destruct (in_window now1 rl !! 0%nat); [|by split; [|intros; apply Hin1]].
  case_bool_decide; [by split; [|intros; apply Hin1]|].
  case_bool_decide; [by split; [|intros; apply Hin3] | by split; [|intros; apply Hin1]].
Qed.

End RateLimiterFacts.

(* ===================================================================== *)
(** * Properties of the circuit breaker                                  *)
(* ===================================================================== *)

Module CircuitBreakerFacts.
Import CircuitBreaker.

Lemma onFailure_returns (now : Z) (cb : CircuitBreaker) :
  onFailure now cb = (inr tt, snd (onFailure now cb)).
Proof.
  unfold onFailure, bind, modify, get, ret. cbn.
  by destruct (_ || _).
Qed.

Lemma onSuccess_returns (cb : CircuitBreaker) :
  onSuccess cb = (inr tt, snd (onSuccess cb)).
Proof.
  unfold onSuccess, bind, modify, get, gets, ret. cbn.
  destruct (bool_decide (state cb = HALF_OPEN)); cbn; [|done].
  by destruct (bool_decide _).
Qed.

Section Breaker.
Context {W T : Type}.
Implicit Types (cb : CircuitBreaker) (w : W) (fn : M W T).

Lemma execute_rejected cb w fn checkedAt failedAt :
  state cb = OPEN →
  (checkedAt - lastFailureTime cb < resetTimeoutMs cb)%Z →
  execute checkedAt failedAt fn (cb, w)
  = (inl (Error "Circuit breaker is open"), (cb, w)).
Proof.
  intros Hs Hlt. unfold execute, bind, on_breaker, get. cbn.
  rewrite Hs. rewrite bool_decide_eq_true_2 by done.
  rewrite bool_decide_eq_false_2 by lia. reflexivity.
Qed.

Lemma execute_elapsed cb w fn checkedAt failedAt :
  state cb = OPEN →
  (resetTimeoutMs cb ≤ checkedAt - lastFailureTime cb)%Z →
  execute checkedAt failedAt fn (cb, w)
  = execute checkedAt failedAt fn (half_opened cb, w).
Proof.
  intros Hs Hle. unfold execute, bind, on_breaker, get. cbn.
  rewrite Hs. rewrite !bool_decide_eq_true_2 by done. reflexivity.
Qed.

Lemma execute_attempt cb w fn checkedAt failedAt :
  state cb ≠ OPEN →
  execute checkedAt failedAt fn (cb, w)
  = match fn w with
    | (inr result, w') => (inr result, (snd (onSuccess cb), w'))
    | (inl error, w') => (inl error, (snd (onFailure failedAt cb), w'))
    end.
Proof.
  intros Hs. unfold execute, bind, on_breaker, get, try_catch, on_world, ret, throw.
  rewrite bool_decide_eq_false_2 by done.
  destruct (fn w) as [[e|r] w'].
  - by rewrite onFailure_returns.
  - by rewrite onSuccess_returns.
Qed.

(** What a failure does to the breaker. *)
Lemma onFailure_state (now : Z) cb :
  let cb' := snd (onFailure now cb) in
  failures cb' = S (failures cb)
  ∧ lastFailureTime cb' = now
  ∧ failureThreshold cb' = failureThreshold cb
  ∧ resetTimeoutMs cb' = resetTimeoutMs cb
  ∧ state cb' =
      (if bool_decide (state cb = HALF_OPEN)
          || bool_decide (failureThreshold cb ≤ Z.of_nat (S (failures cb)))%Z
       then OPEN else state cb).
Proof.
  unfold onFailure, bind, modify, get, ret. cbn.
  by destruct (_ || _).
Qed.

Lemma onSuccess_state cb :
  let cb' := snd (onSuccess cb) in
  failureThreshold cb' = failureThreshold cb
  ∧ (state cb ≠ HALF_OPEN → state cb' = state cb ∧ failures cb' = 0)
  ∧ (state cb = HALF_OPEN →
       if bool_decide (halfOpenRequests cb ≤ Z.of_nat (S (halfOpenSuccesses cb)))%Z
       then state cb' = CLOSED ∧ failures cb' = 0
       else state cb' = HALF_OPEN).
Proof.
  unfold onSuccess, bind, modify, get, gets, ret. cbn.
  case_bool_decide as Hs; cbn.
  - destruct (bool_decide _); cbn; repeat split; try done.
  - repeat split; done.
Qed.

(** A call whose guarded function throws, or that the open breaker
    rejects, leaves the breaker open unless it was closed with failures to
    spare. *)
Lemma after_failing_call (c : ExecuteCall W T) cb w :
  always_fails (snd c) →
  let cb' := fst (after_execute c (cb, w)) in
  failureThreshold cb' = failureThreshold cb
  ∧ (state cb ≠ CLOSED → state cb' = OPEN)
  ∧ (state cb = CLOSED →
       (failureThreshold cb ≤ Z.of_nat (S (failures cb)))%Z → state cb' = OPEN)
  ∧ (state cb = CLOSED →
       (Z.of_nat (S (failures cb)) < failureThreshold cb)%Z →
       state cb' = CLOSED ∧ failures cb' = S (failures cb)).
Proof.
  destruct c as [[checkedAt failedAt] fn]. cbn [snd]. intros Hfail.
  unfold after_execute.
  assert (Hattempt : ∀ cb0, state cb0 ≠ OPEN →
    fst (snd (execute checkedAt failedAt fn (cb0, w))) = snd (onFailure failedAt cb0)).
  { intros cb0 H0. rewrite execute_attempt by done.
    destruct (Hfail w) as (e & w' & ->). done. }
  destruct (state cb) eqn:Hs.
  - rewrite Hattempt by congruence.
    destruct (onFailure_state failedAt cb) as (_ & _ & Ht & _ & Hst).
    rewrite Hst, Hs. rewrite (bool_decide_eq_false_2 (CLOSED = HALF_OPEN)) by done.
    cbn [orb]. repeat split; try done.
    + intros _ Hle. by rewrite bool_decide_eq_true_2.
    + by rewrite bool_decide_eq_false_2 by lia.
    + apply (onFailure_state failedAt cb).
  - destruct (decide (resetTimeoutMs cb ≤ checkedAt - lastFailureTime cb)%Z).
    + rewrite execute_elapsed by done. rewrite Hattempt by done.
      destruct (onFailure_state failedAt (half_opened cb)) as (_ & _ & Ht & _ & Hst).
      rewrite Hst. cbn. repeat split; done.
    + rewrite execute_rejected by (done || lia). cbn. repeat split; done.
  - rewrite Hattempt by congruence.
    destruct (onFailure_state failedAt cb) as (_ & _ & Ht & _ & Hst).
    rewrite Hst, Hs. cbn. repeat split; done.
Qed.

(** Consecutive failing calls from a closed breaker: it is open as soon as
    the failure count has reached the threshold, and stays open. *)
Lemma after_failing_calls (cs : list (ExecuteCall W T)) cb w :
  Forall (λ c, always_fails (snd c)) cs →
  let cb' := fst (after_executes cs (cb, w)) in
  failureThreshold cb' = failureThreshold cb
  ∧ (state cb = OPEN → state cb' = OPEN)
  ∧ (state cb = CLOSED →
     if bool_decide (failureThreshold cb ≤ Z.of_nat (failures cb + length cs))%Z
     then cs ≠ [] → state cb' = OPEN
     else state cb' = CLOSED ∧ failures cb' = (failures cb + length cs)%nat).
Proof.
  intros Hall. revert cb w. induction Hall as [|c cs Hc Hcs IH]; intros cb w.
  { cbn. repeat split; try done. intros Hs. case_bool_decide; [done|].
    split; [done | lia]. }
  change (after_executes (c :: cs) (cb, w))
    with (after_executes cs (after_execute c (cb, w))).
  destruct (after_execute c (cb, w)) as [cb1 w1] eqn:Hstep.
  pose proof (after_failing_call c cb w Hc) as H1. rewrite Hstep in H1.
  cbn [fst] in H1. destruct H1 as (Ht1 & Hopen1 & Hreach1 & Hbelow1).
  destruct (IH cb1 w1) as (Ht & Hopen & Hclosed).
  cbn zeta. split; [congruence|]. split.
  { intros Hs. apply Hopen, Hopen1. congruence. }
  intros Hs. cbn [length].
  destruct (decide (failureThreshold cb ≤ Z.of_nat (S (failures cb)))%Z) as [Hle|Hgt].
  - rewrite bool_decide_eq_true_2 by lia. intros _. apply Hopen. by apply Hreach1.
  - destruct (Hbelow1 Hs) as [Hs1 Hf1]; [lia|].
    specialize (Hclosed Hs1). rewrite Hf1, Ht1 in Hclosed.
    rewrite Nat.add_succ_r, <- Nat.add_succ_l.
    revert Hclosed. case_bool_decide; [|done].
    intros Hclosed _. apply Hclosed. intros ->. cbn in *. lia.
Qed.

(** C5. From a closed breaker, consecutive failing [execute] calls, as many
    as [failureThreshold] or more and at least one, leave it open. While it is open and the time-out
    has not elapsed since the last failure, [execute] throws the
    circuit-open error and the guarded function is not run: the world it
    acts on is untouched and the outcome does not depend on it. Once the
    time-out has elapsed, the breaker is half-open when the function is
    attempted. With [halfOpenRequests = 1] one success while half-open
    closes the breaker, and any failure while half-open opens it again
    with the failure clock set to the time of that failure. *)
Theorem circuit_breaker_cycle :
  (∀ (cs : list (ExecuteCall W T)) cb w,
     state cb = CLOSED → cs ≠ [] →
     Forall (λ c, always_fails (snd c)) cs →
     (failureThreshold cb ≤ Z.of_nat (length cs))%Z →
     state (fst (after_executes cs (cb, w))) = OPEN)
  ∧ (∀ cb w fn checkedAt failedAt,
     state cb = OPEN →
     (checkedAt - lastFailureTime cb < resetTimeoutMs cb)%Z →
     execute checkedAt failedAt fn (cb, w)
     = (inl (Error "Circuit breaker is open"), (cb, w)))
  ∧ (∀ cb w fn checkedAt failedAt,
     state cb = OPEN →
     (resetTimeoutMs cb ≤ checkedAt - lastFailureTime cb)%Z →
     state (half_opened cb) = HALF_OPEN
     ∧ execute checkedAt failedAt fn (cb, w)
       = match fn w with
         | (inr result, w') => (inr result, (snd (onSuccess (half_opened cb)), w'))
         | (inl error, w') =>
             (inl error, (snd (onFailure failedAt (half_opened cb)), w'))
         end)
  ∧ (∀ cb w fn checkedAt failedAt result w',
     state cb = HALF_OPEN
     ∨ (state cb = OPEN ∧ (resetTimeoutMs cb ≤ checkedAt - lastFailureTime cb)%Z) →
     halfOpenRequests cb = 1%Z →
     fn w = (inr result, w') →
     ∃ cb', execute checkedAt failedAt fn (cb, w) = (inr result, (cb', w'))
            ∧ state cb' = CLOSED ∧ failures cb' = 0%nat)
  ∧ (∀ cb w fn checkedAt failedAt error w',
     state cb = HALF_OPEN →
     fn w = (inl error, w') →
     ∃ cb', execute checkedAt failedAt fn (cb, w) = (inl error, (cb', w'))
            ∧ state cb' = OPEN ∧ lastFailureTime cb' = failedAt).
Proof.
  split; [|split; [|split; [|split]]].
  - intros cs cb w Hs Hne Hall Hle.
    destruct (after_failing_calls cs cb w Hall) as (_ & _ & Hclosed).
    specialize (Hclosed Hs). rewrite bool_decide_eq_true_2 in Hclosed by lia.
    by apply Hclosed.
  - intros. by apply execute_rejected.
  - intros cb w fn checkedAt failedAt Hs Hle. split; [done|].
    rewrite execute_elapsed by done. by rewrite execute_attempt.
  - intros cb w fn checkedAt failedAt result w' Hs Hone Hfn.
    assert (Hprobe : ∀ cb0, state cb0 = HALF_OPEN → halfOpenRequests cb0 = 1%Z →
      ∃ cb', execute checkedAt failedAt fn (cb0, w) = (inr result, (cb', w'))
             ∧ state cb' = CLOSED ∧ failures cb' = 0%nat).
    { intros cb0 Hs0 Hone0. rewrite execute_attempt by congruence. rewrite Hfn.
      eexists; split; [done|].
      destruct (onSuccess_state cb0) as (_ & _ & Hhalf). specialize (Hhalf Hs0).
      rewrite bool_decide_eq_true_2 in Hhalf by lia. done. }
    destruct Hs as [Hs | [Hs Hle]]; [by apply Hprobe|].
    rewrite execute_elapsed by done. by apply Hprobe.
  - intros cb w fn checkedAt failedAt error w' Hs Hfn.
    rewrite execute_attempt by congruence. rewrite Hfn.
    eexists; split; [done|].
    destruct (onFailure_state failedAt cb) as (_ & Hlast & _ & _ & Hst).
    rewrite Hst, Hs. by rewrite bool_decide_eq_true_2.
Qed.

(** C10. For a breaker whose [failureThreshold] is at least 1, "closed
    implies [failures < failureThreshold]" holds when it is constructed and
    is preserved by every [execute] call, whatever the guarded function
    does, and by every [reset] call. *)
Theorem closed_implies_below_threshold :
  (∀ options, (1 ≤ opt_failureThreshold options)%Z →
     closed_below_threshold (new options))
  ∧ (∀ cb w (c : ExecuteCall W T),
     (1 ≤ failureThreshold cb)%Z →
     closed_below_threshold cb →
     let cb' := fst (after_execute c (cb, w)) in
     failureThreshold cb' = failureThreshold cb ∧ closed_below_threshold cb')
  ∧ (∀ cb,
     (1 ≤ failureThreshold cb)%Z →
     closed_below_threshold cb →
     failureThreshold (snd (reset cb)) = failureThreshold cb
     ∧ closed_below_threshold (snd (reset cb))).
Proof.
  split; [|split].
  - intros options Hge _. cbn. lia.
  - intros cb w [[checkedAt failedAt] fn] Hge Hinv.
    assert (Hattempt : ∀ cb0, state cb0 ≠ OPEN →
      failureThreshold cb0 = failureThreshold cb →
      let cb' := fst (snd (execute checkedAt failedAt fn (cb0, w))) in
      failureThreshold cb' = failureThreshold cb ∧ closed_below_threshold cb').
    { intros cb0 Hs0 Ht0. rewrite execute_attempt by done.
      destruct (fn w) as [[e|r] w1]; cbn [fst snd]; unfold closed_below_threshold.
      - destruct (onFailure_state failedAt cb0) as (Hf & _ & Ht & _ & Hst).
        rewrite Ht, Hst, Hf. split; [done|].
        destruct (bool_decide (state cb0 = HALF_OPEN)); cbn [orb]; [done|].
        case_bool_decide; [done | lia].
      - destruct (onSuccess_state cb0) as (Ht & Hother & Hhalf).
        rewrite Ht. split; [done|].
        destruct (decide (state cb0 = HALF_OPEN)) as [Hs|Hs].
        + specialize (Hhalf Hs). destruct (bool_decide _).
          * destruct Hhalf as [_ ->]. lia.
          * by rewrite Hhalf.
        + destruct (Hother Hs) as [_ ->]. lia. }
    unfold after_execute. cbn zeta.
    destruct (decide (state cb = OPEN)) as [Hs|Hs]; [|by apply Hattempt].
    destruct (decide (resetTimeoutMs cb ≤ checkedAt - lastFailureTime cb)%Z).
    + rewrite execute_elapsed by done. by apply Hattempt.
    + rewrite execute_rejected by (done || lia). done.
  - intros cb Hge _. cbn. split; [done|]. intros _. cbn. lia.
Qed.
End Breaker.


Lemma failing_fn_always_fails : always_fails failing_fn.
Proof. intros w. by eexists _, _. Qed.

Lemma circuit_breaker_cycle_witness :
  state (fst (after_executes [(0, 1, failing_fn); (2, 3, failing_fn)]%Z
                (new sample_options, 0%nat))) = OPEN
  ∧ execute 5500 5501 succeeding_fn (sample_open, 7%nat)
    = (inl (Error "Circuit breaker is open"), (sample_open, 7%nat))
  ∧ (∃ cb', execute 6000 6001 succeeding_fn (sample_open, 7%nat)
            = (inr "success", (cb', 8%nat))
            ∧ state cb' = CLOSED ∧ failures cb' = 0%nat)
  ∧ (∃ cb', execute 6000 6001 failing_fn (half_opened sample_open, 7%nat)
            = (inl (Error "fail"), (cb', 8%nat))
            ∧ state cb' = OPEN ∧ lastFailureTime cb' = 6001%Z).
Proof.
  destruct (@circuit_breaker_cycle nat string)
    as (Hopen & Hreject & _ & Hclose & Hreopen).
  split; [|split; [|split]].
  - apply Hopen.
    + reflexivity.
    + discriminate.
    + repeat constructor; apply failing_fn_always_fails.
    + cbn. lia.
  - apply Hreject; [reflexivity | cbn; lia].
  - apply Hclose; [right; split; [reflexivity | cbn; lia] | reflexivity | reflexivity].
  - apply Hreopen; reflexivity.
Defined.

Lemma closed_implies_below_threshold_witness :
  let cb := new sample_options in
  let cb' := fst (after_execute (0, 1, failing_fn)%Z (cb, 0%nat)) in
  (1 ≤ failureThreshold cb)%Z
  ∧ closed_below_threshold cb
  ∧ failureThreshold cb' = failureThreshold cb
  ∧ closed_below_threshold cb'.
Proof.
  cbn zeta.
  assert (Hge : (1 ≤ failureThreshold (new sample_options))%Z) by (cbn; lia).
  assert (Hinv : closed_below_threshold (new sample_options))
    by (intros _; cbn; lia).
  split; [exact Hge|]. split; [exact Hinv|].
  exact (proj1 (proj2 (@closed_implies_below_threshold nat string))
           (new sample_options) 0%nat (0, 1, failing_fn)%Z Hge Hinv).
Defined.

(** ** Sequences of calls *)

Section Sequences.
Context {W T : Type}.
Implicit Types (cb : CircuitBreaker) (w : W) (fn : M W T).

Lemma after_scripted_call (c : ExecuteCall W T * bool) cb w :
  scripted c → state cb = CLOSED →
  let cb' := fst (after_execute (fst c) (cb, w)) in
  failureThreshold cb' = failureThreshold cb
  ∧ if snd c then state cb' = CLOSED ∧ failures cb' = 0%nat
    else failures cb' = S (failures cb)
         ∧ state cb' = (if bool_decide (failureThreshold cb ≤ Z.of_nat (S (failures cb)))%Z
                        then OPEN else CLOSED).
Proof.
  destruct c as [[[checkedAt failedAt] fn] ok]. unfold scripted. cbn [fst snd].
  intros Hfn Hs. unfold after_execute.
  rewrite execute_attempt by congruence.
  destruct ok.
  - destruct (Hfn w) as (r & w' & ->). cbn [fst snd].
    destruct (onSuccess_state cb) as (Ht & Hother & _).
    split; [done|]. rewrite <- Hs. apply Hother. congruence.
  - destruct (Hfn w) as (e & w' & ->). cbn [fst snd].
    destruct (onFailure_state failedAt cb) as (Hf & _ & Ht & _ & Hst).
    split; [done|]. split; [done|]. rewrite Hst, Hs.
    rewrite (bool_decide_eq_false_2 (CLOSED = HALF_OPEN)) by done. done.
Qed.

Lemma after_scripted_calls (cs : list (ExecuteCall W T * bool)) cb w :
  Forall scripted cs → state cb = CLOSED →
  runs_below (failureThreshold cb) (failures cb) (snd <$> cs) →
  let cb' := fst (after_executes (fst <$> cs) (cb, w)) in
  state cb' = CLOSED
  ∧ failures cb' = trailing_failures (failures cb) (snd <$> cs)
  ∧ failureThreshold cb' = failureThreshold cb.
Proof.
  intros Hall. revert cb w. induction Hall as [|c cs Hc Hcs IH]; intros cb w Hs Hruns.
  { done. }
  rewrite !fmap_cons in *.
  change (after_executes (fst c :: (fst <$> cs)) (cb, w))
    with (after_executes (fst <$> cs) (after_execute (fst c) (cb, w))).
  pose proof (after_scripted_call c cb w Hc Hs) as [Ht Hstep].
  destruct (after_execute (fst c) (cb, w)) as [cb1 w1]. cbn [fst] in Ht, Hstep.
  cbn [runs_below trailing_failures] in *.
  destruct (snd c).
  - destruct Hstep as [Hs1 Hf1].
    destruct (IH cb1 w1 Hs1) as (? & ? & ?); [by rewrite Ht, Hf1|].
    cbn zeta. rewrite <- Hf1. repeat split; congruence.
  - destruct Hstep as [Hf1 Hs1]. destruct Hruns as [Hlt Hruns].
    rewrite bool_decide_eq_false_2 in Hs1 by lia.
    destruct (IH cb1 w1 Hs1) as (? & ? & ?); [by rewrite Ht, Hf1|].
    cbn zeta. rewrite <- Hf1. repeat split; congruence.
Qed.

(** X13. Only failures in a row count: along a sequence
    of [execute] calls on a new breaker in which no run of consecutive
    failing calls reaches [failureThreshold], the breaker stays closed, and
    its failure count is the number of failing calls since the last call
    that succeeded. *)
Theorem breaker_stays_closed_below_threshold
    (options : CircuitBreakerOptions) (cs : list (ExecuteCall W T * bool)) w :
  Forall scripted cs →
  runs_below (opt_failureThreshold options) 0 (snd <$> cs) →
  let cb' := fst (after_executes (fst <$> cs) (new options, w)) in
  state cb' = CLOSED ∧ failures cb' = trailing_failures 0 (snd <$> cs).
Proof.
  intros Hall Hruns.
  destruct (after_scripted_calls cs (new options) w Hall) as (? & ? & _); done.
Qed.

Lemma after_probing_call (c : ExecuteCall W T) cb w :
  always_succeeds (snd c) → state cb = HALF_OPEN →
  let cb' := fst (after_execute c (cb, w)) in
  halfOpenRequests cb' = halfOpenRequests cb
  ∧ if bool_decide (halfOpenRequests cb ≤ Z.of_nat (S (halfOpenSuccesses cb)))%Z
    then state cb' = CLOSED ∧ failures cb' = 0%nat
    else state cb' = HALF_OPEN ∧ halfOpenSuccesses cb' = S (halfOpenSuccesses cb).
Proof.
  destruct c as [[checkedAt failedAt] fn]. cbn [snd]. intros Hfn Hs.
  unfold after_execute. rewrite execute_attempt by congruence.
  destruct (Hfn w) as (r & w' & ->). cbn [fst snd].
  unfold onSuccess, bind, modify, get, gets, ret. cbn.
  rewrite Hs. rewrite bool_decide_eq_true_2 by done. cbn.
  case_bool_decide; cbn; done.
Qed.

Lemma after_closed_success (c : ExecuteCall W T) cb w :
  always_succeeds (snd c) → state cb = CLOSED →
  let cb' := fst (after_execute c (cb, w)) in
  state cb' = CLOSED ∧ failures cb' = 0%nat.
Proof.
  intros Hfn Hs.
  destruct (after_scripted_call (c, true) cb w) as [_ H]; done.
Qed.

(** X14. A half-open breaker whose calls succeed stays
    half-open, counting the successes, as long as their number is below
    [halfOpenRequests]; the success that reaches [halfOpenRequests] closes it
    with the failure count at 0, and it is closed after any further
    success. *)
Theorem half_open_closes_after_enough_successes
    (cs : list (ExecuteCall W T)) cb w :
  state cb = HALF_OPEN →
  Forall (λ c, always_succeeds (snd c)) cs →
  let cb' := fst (after_executes cs (cb, w)) in
  let successes := (halfOpenSuccesses cb + length cs)%nat in
  if bool_decide (Z.of_nat successes < halfOpenRequests cb)%Z
  then state cb' = HALF_OPEN ∧ halfOpenSuccesses cb' = successes
  else cs ≠ [] → state cb' = CLOSED ∧ failures cb' = 0%nat.
Proof.
  intros Hs Hall. revert cb w Hs.
  induction Hall as [|c cs Hc Hcs IH]; intros cb w Hs.
  { cbn. case_bool_decide; [|done]. split; [done | lia]. }
  change (after_executes (c :: cs) (cb, w))
    with (after_executes cs (after_execute c (cb, w))).
  pose proof (after_probing_call c cb w Hc Hs) as [Hn Hstep].
  destruct (after_execute c (cb, w)) as [cb1 w1]. cbn [fst] in Hn, Hstep.
  cbn zeta. cbn [length].
  revert Hstep. case_bool_decide as Hreach.
  - intros [Hs1 Hf1]. rewrite bool_decide_eq_false_2 by lia. intros _.
    clear IH Hn. revert cb1 w1 Hs1 Hf1.
    induction Hcs as [|c' cs Hc' Hcs IH]; intros cb1 w1 Hs1 Hf1; [done|].
    change (after_executes (c' :: cs) (cb1, w1))
      with (after_executes cs (after_execute c' (cb1, w1))).
    pose proof (after_closed_success c' cb1 w1 Hc' Hs1) as [Hs2 Hf2].
    destruct (after_execute c' (cb1, w1)) as [cb2 w2]. cbn [fst] in *.
    by apply IH.
  - intros [Hs1 Hh1]. specialize (IH cb1 w1 Hs1). cbn zeta in IH.
    rewrite Hh1, Hn in IH.
    cbn [Nat.add] in IH. rewrite !Nat.add_succ_r.
    case_bool_decide; [done|]. intros _.
    destruct cs as [|c' cs]; [cbn in *; lia|]. by apply IH.
Qed.

End Sequences.

Lemma succeeding_fn_always_succeeds : always_succeeds succeeding_fn.
Proof. intros w. by eexists _, _. Qed.

Lemma breaker_stays_closed_below_threshold_witness :
  let cs := [((0, 1, failing_fn), false); ((2, 3, succeeding_fn), true);
             ((4, 5, failing_fn), false); ((6, 7, succeeding_fn), true);
             ((8, 9, failing_fn), false)]%Z in
  let cb' := fst (after_executes (fst <$> cs) (new sample_options, 0%nat)) in
  state cb' = CLOSED ∧ failures cb' = 1%nat.
Proof.
  apply (breaker_stays_closed_below_threshold sample_options
           [((0, 1, failing_fn), false); ((2, 3, succeeding_fn), true);
            ((4, 5, failing_fn), false); ((6, 7, succeeding_fn), true);
            ((8, 9, failing_fn), false)]%Z 0%nat).
  - repeat constructor;
      (apply failing_fn_always_fails || apply succeeding_fn_always_succeeds).
  - cbn. lia.
Defined.

Lemma half_open_closes_after_enough_successes_witness :
  let cb := {| state := HALF_OPEN; failures := 2; lastFailureTime := 5000;
               halfOpenSuccesses := 0; failureThreshold := 2;
               resetTimeoutMs := 1000; halfOpenRequests := 2 |} in
  (let cb' := fst (after_executes [(6000, 6001, succeeding_fn)]%Z (cb, 0%nat)) in
   state cb' = HALF_OPEN ∧ halfOpenSuccesses cb' = 1%nat)
  ∧ (let cb' := fst (after_executes [(6000, 6001, succeeding_fn);
                                     (6002, 6003, succeeding_fn)]%Z (cb, 0%nat)) in
     state cb' = CLOSED ∧ failures cb' = 0%nat).
Proof.
  cbn zeta. split.
  - apply (half_open_closes_after_enough_successes [(6000, 6001, succeeding_fn)]%Z
             {| state := HALF_OPEN; failures := 2; lastFailureTime := 5000;
                halfOpenSuccesses := 0; failureThreshold := 2;
                resetTimeoutMs := 1000; halfOpenRequests := 2 |} 0%nat);
      [reflexivity | repeat constructor; apply succeeding_fn_always_succeeds].
  - apply (half_open_closes_after_enough_successes
             [(6000, 6001, succeeding_fn); (6002, 6003, succeeding_fn)]%Z
             {| state := HALF_OPEN; failures := 2; lastFailureTime := 5000;
                halfOpenSuccesses := 0; failureThreshold := 2;
                resetTimeoutMs := 1000; halfOpenRequests := 2 |} 0%nat);
      [reflexivity | repeat constructor; apply succeeding_fn_always_succeeds
       | discriminate].
Defined.

End CircuitBreakerFacts.

(* ===================================================================== *)
(** * Properties of policy evaluation                                    *)
(* ===================================================================== *)

Module PolicyFacts.
Import Policy.

Implicit Types (r x y : PolicyRule) (l : list PolicyRule).

(** ** The stable sort *)

Lemma insert_rule_swap x y l :
  (priority x < priority y)%Z →
  insert_rule y (insert_rule x l) = insert_rule x (insert_rule y l).
Proof.
  intros Hlt. induction l as [|z l IH]; cbn.
  - rewrite bool_decide_eq_false_2 by lia.
    by rewrite bool_decide_eq_true_2 by lia.
  - repeat case_bool_decide; cbn; repeat case_bool_decide;
      try lia; try done. by rewrite IH.
Qed.

Lemma foldr_insert_insert x l s :
  foldr insert_rule s (insert_rule x l) = insert_rule x (foldr insert_rule s l).
Proof.
  induction l as [|y l IH]; [done|]. cbn. case_bool_decide; [|done].
  cbn. rewrite IH. by apply insert_rule_swap.
Qed.

Lemma sort_rules_cons x l : sort_rules (x :: l) = insert_rule x (sort_rules l).
Proof. reflexivity. Qed.

Lemma foldr_insert_sort l s :
  foldr insert_rule s (sort_rules l) = foldr insert_rule s l.
Proof.
  induction l as [|x l IH]; [done|].
  by rewrite sort_rules_cons, foldr_insert_insert, IH.
Qed.

Lemma sort_rules_app l1 l2 :
  sort_rules (l1 ++ l2) = foldr insert_rule (sort_rules l2) l1.
Proof. unfold sort_rules. by rewrite foldr_app. Qed.

(** Sorting again after a push is sorting the whole insertion sequence. *)
Lemma sort_rules_push l l2 :
  sort_rules (sort_rules l ++ l2) = sort_rules (l ++ l2).
Proof. by rewrite !sort_rules_app, foldr_insert_sort. Qed.

Lemma elem_of_insert_rule x y l : x ∈ insert_rule y l ↔ x = y ∨ x ∈ l.
Proof.
  induction l as [|z l IH]; cbn.
  - rewrite list_elem_of_singleton, elem_of_nil. tauto.
  - case_bool_decide; rewrite !elem_of_cons, ?IH; tauto.
Qed.


Lemma insert_rule_sorted x l :
  StronglySorted (λ a b, priority b ≤ priority a)%Z l →
  StronglySorted (λ a b, priority b ≤ priority a)%Z (insert_rule x l).
Proof.
  induction 1 as [|z l Hl IH Hz]; cbn.
  - repeat constructor.
  - case_bool_decide.
    + constructor; [done|]. apply Forall_forall. intros w Hw.
      apply elem_of_insert_rule in Hw as [->|Hw]; [lia|].
      by eapply Forall_forall in Hz.
    + constructor; [by constructor|]. constructor; [lia|].
      eapply Forall_impl; [done|]. cbn. intros; lia.
Qed.

Lemma sort_rules_sorted l : by_priority (sort_rules l).
Proof.
  unfold by_priority. induction l as [|x l IH]; [constructor|].
  rewrite sort_rules_cons. by apply insert_rule_sorted.
Qed.



Section Ahead.
Context (Q : PolicyRule → Prop).


End Ahead.

Lemma rules_add_all (added : list PolicyRule) (p : Policy) (h : list PolicyRule) :
  rules p = sort_rules h →
  rules (add_all added p) = sort_rules (h ++ added)
  ∧ defaultAction (add_all added p) = defaultAction p.
Proof.
  revert p h. induction added as [|r added IH]; intros p h Hp.
  - by rewrite app_nil_r.
  - change (add_all (r :: added) p) with (add_all added (snd (addRule r p))).
    destruct (IH (snd (addRule r p)) (h ++ [r])) as [-> ->].
    + cbn. by rewrite Hp, sort_rules_push.
    + by rewrite <- app_assoc.
Qed.

Section Evaluate.
Context `{Host}.





End Evaluate.

Section Claim.
Context `{Host}.

End Claim.


(** ** Removing rules, rules that cannot match, presets *)

(** Where a pushed rule lands among the rules already sorted. *)
Lemma insert_rule_sorted_head x l :
  by_priority l → Forall (λ y, priority y ≤ priority x)%Z l →
  insert_rule x l = x :: l.
Proof.
  intros _ Hle. destruct l as [|y l]; [done|]. cbn.
  apply Forall_cons in Hle as [Hy _]. by rewrite bool_decide_eq_false_2 by lia.
Qed.

Lemma sort_rules_snoc l r :
  ∃ l1 l2, sort_rules l = l1 ++ l2 ∧ sort_rules (l ++ [r]) = l1 ++ r :: l2.
Proof.
  induction l as [|x l (l1 & l2 & Hl & Hlr)].
  { by exists [], []. }
  rewrite <- app_comm_cons, !sort_rules_cons, Hl, Hlr.
  assert (Hsorted : by_priority (l1 ++ r :: l2))
    by (rewrite <- Hlr; apply sort_rules_sorted).
  clear Hl Hlr. unfold by_priority in Hsorted.
  induction l1 as [|y l1 IH]; cbn.
  - case_bool_decide as Hlt.
    + by exists [], (insert_rule x l2).
    + exists [x], l2. split; [|done]. cbn.
      apply insert_rule_sorted_head.
      * by apply StronglySorted_inv in Hsorted as [? _].
      * apply StronglySorted_inv in Hsorted as [_ Hall].
        eapply Forall_impl; [exact Hall|]. cbn. intros; lia.
  - case_bool_decide.
    + destruct IH as (l1' & l2' & -> & ->).
      { by apply StronglySorted_inv in Hsorted as [? _]. }
      by exists (y :: l1'), l2'.
    + by exists (x :: y :: l1), l2.
Qed.

Lemma remove_first_middle ruleId l1 r l2 :
  Forall (λ y, id y ≠ ruleId) l1 → id r = ruleId →
  remove_first ruleId (l1 ++ r :: l2) = Some (l1 ++ l2).
Proof.
  intros Hl1 Hr. induction Hl1 as [|y l1 Hy Hl1 IH]; cbn.
  - by rewrite bool_decide_eq_true_2.
  - rewrite bool_decide_eq_false_2 by done. by rewrite IH.
Qed.

Lemma remove_first_absent ruleId l :
  Forall (λ y, id y ≠ ruleId) l → remove_first ruleId l = None.
Proof.
  induction 1 as [|y l Hy Hl IH]; cbn; [done|].
  rewrite bool_decide_eq_false_2 by done. by rewrite IH.
Qed.

(** X15. [removeRule(id)] never throws. When no rule has the
    id it returns false and leaves the policy as it is; otherwise it returns
    true and removes the first rule with that id in evaluation order, and
    only that one: later rules with the same id stay, and no rule is
    added. *)
Theorem removeRule_removes_first (ruleId : string) (p : Policy) :
  (Forall (λ y, id y ≠ ruleId) (rules p) → removeRule ruleId p = (inr false, p))
  ∧ (∀ l1 r l2,
       rules p = l1 ++ r :: l2 → Forall (λ y, id y ≠ ruleId) l1 → id r = ruleId →
       removeRule ruleId p = (inr true, set_rules (l1 ++ l2) p))
  ∧ (∀ r, r ∈ rules (snd (removeRule ruleId p)) → r ∈ rules p)
  ∧ (fst (removeRule ruleId p) = inr true ∨ fst (removeRule ruleId p) = inr false).
Proof.
  unfold removeRule, bind, get, modify, ret. split; [|split; [|split]].
  - intros Hnone. by rewrite remove_first_absent.
  - intros l1 r l2 Hsplit Hl1 Hr. by rewrite Hsplit, remove_first_middle.
  - intros r. destruct (remove_first ruleId (rules p)) as [l'|] eqn:Hrm; cbn; [|done].
    revert l' Hrm. induction (rules p) as [|y l IH]; intros l'; cbn; [done|].
    case_bool_decide.
    + intros [= <-] Hin. by right.
    + destruct (remove_first ruleId l) as [l0|]; [|done].
      intros [= <-] [->|Hin]%elem_of_cons; [by left|]. right. by apply (IH l0).
  - destruct (remove_first ruleId (rules p)); cbn; [by left | by right].
Qed.

Lemma removeRule_removes_first_witness :
  let first := tool_rule "r1" contains "read" allow 100 in
  let second := tool_rule "r2" contains "write" deny 50 in
  let again := tool_rule "r1" contains "exec" deny 10 in
  let p := Policy.new {| cfg_id := "p1"; cfg_name := "sample"; cfg_description := None;
                         cfg_defaultAction := None;
                         cfg_rules := Some [again; second; first] |} in
  removeRule "r1" p = (inr true, set_rules [second; again] p)
  ∧ removeRule "r9" p = (inr false, p).
Proof.
  cbn zeta. split.
  - apply (proj1 (proj2 (removeRule_removes_first "r1" _))
             [] (tool_rule "r1" contains "read" allow 100)
             [tool_rule "r2" contains "write" deny 50;
              tool_rule "r1" contains "exec" deny 10]);
      [reflexivity | constructor | reflexivity].
  - apply (proj1 (removeRule_removes_first "r9" _)).
    repeat constructor; discriminate.
Defined.

(** X16. For a policy built from its configuration and
    [addRule] calls, and a rule whose id no rule of the policy has:
    [removeRule] of that id after [addRule] of the rule returns true and
    gives back the policy as it was. *)
Theorem addRule_removeRule_round_trip (config : PolicyConfig)
    (added : list PolicyRule) (r : PolicyRule) :
  let p := add_all added (Policy.new config) in
  Forall (λ y, id y ≠ id r) (rules p) →
  removeRule (id r) (snd (addRule r p)) = (inr true, p).
Proof.
  intros p Hfresh.
  destruct (rules_add_all added (Policy.new config) (default [] (cfg_rules config)))
    as [Hrules _].
  { cbn. by destruct (cfg_rules config). }
  fold p in Hrules.
  destruct (sort_rules_snoc (default [] (cfg_rules config) ++ added) r)
    as (l1 & l2 & Hl & Hlr).
  assert (Hadd : rules (snd (addRule r p)) = l1 ++ r :: l2).
  { cbn. by rewrite Hrules, sort_rules_push. }
  unfold removeRule, bind, get, modify, ret.
  rewrite Hadd, remove_first_middle; [|..|done].
  - cbn. unfold set_rules. cbn. rewrite <- Hl, <- Hrules. by destruct p.
  - rewrite Hrules, Hl in Hfresh. by apply Forall_app in Hfresh as [? _].
Qed.

Lemma addRule_removeRule_round_trip_witness :
  let p := add_all [tool_rule "r2" contains "write" deny 50]
             (Policy.new {| cfg_id := "p1"; cfg_name := "sample";
                            cfg_description := None; cfg_defaultAction := None;
                            cfg_rules := Some [tool_rule "r1" contains "read" allow 100] |}) in
  let r := tool_rule "r3" contains "exec" deny 75 in
  rules (snd (addRule r p))
  = [tool_rule "r1" contains "read" allow 100; r;
     tool_rule "r2" contains "write" deny 50]
  ∧ removeRule (id r) (snd (addRule r p)) = (inr true, p).
Proof.
  cbn zeta. split; [reflexivity|].
  apply (addRule_removeRule_round_trip
           {| cfg_id := "p1"; cfg_name := "sample";
              cfg_description := None; cfg_defaultAction := None;
              cfg_rules := Some [tool_rule "r1" contains "read" allow 100] |}
           [tool_rule "r2" contains "write" deny 50]
           (tool_rule "r3" contains "exec" deny 75)).
  repeat constructor; discriminate.
Defined.

Section Inert.
Context `{Host}.

Lemma never_matches_false (c : PolicyCondition) (ctx : Context) :
  never_matches c = true → evaluateCondition c ctx = inr false.
Proof.
  unfold never_matches, evaluateCondition, evaluateToolCondition,
    evaluateRoleCondition, evaluateCustomCondition.
  destruct (type c); try done.
  - by destruct (operator c).
  - by destruct (operator c).
  - destruct (truthy_string (field c)); [|done]. by destruct (operator c).
Qed.

Lemma first_match_skip (ctx : Context) l1 r l2 :
  evaluateCondition (condition r) ctx = inr false →
  first_match ctx (l1 ++ r :: l2) = first_match ctx (l1 ++ l2).
Proof.
  intros Hr. induction l1 as [|y l1 IH]; cbn.
  - by rewrite Hr.
  - by rewrite IH.
Qed.

(** X17. A rule whose condition has no case in
    [evaluateCondition] (type time or rate, an operator its type does not
    handle, a custom condition without a field) matches no call, and adding
    it to a policy, whatever its priority and action, changes the result of
    no evaluation. *)
Theorem unsupported_rule_changes_nothing (config : PolicyConfig)
    (added : list PolicyRule) (r : PolicyRule)
    (agent : Agent) (toolName : string) (params : gmap string JSValue) (now : Z) :
  never_matches (condition r) = true →
  let p := add_all added (Policy.new config) in
  rule_matches r agent toolName params = inr false
  ∧ evaluate (snd (addRule r p)) agent toolName params now
    = evaluate p agent toolName params now.
Proof.
  intros Hnever p. split; [by apply never_matches_false|].
  destruct (rules_add_all added (Policy.new config) (default [] (cfg_rules config)))
    as [Hrules _].
  { cbn. by destruct (cfg_rules config). }
  fold p in Hrules.
  destruct (sort_rules_snoc (default [] (cfg_rules config) ++ added) r)
    as (l1 & l2 & Hl & Hlr).
  unfold evaluate, unmatched.
  replace (rules (snd (addRule r p))) with (l1 ++ r :: l2)
    by (cbn; by rewrite Hrules, sort_rules_push).
  rewrite first_match_skip by (by apply never_matches_false).
  by rewrite Hrules, Hl.
Qed.

Lemma includes_contains_rule ruleId ruleName needle a prio ctx :
  String_of_string →
  evaluateCondition (condition (contains_rule ruleId ruleName needle a prio)) ctx
  = inr (includes needle (ctx_toolName ctx)).
Proof. intros Hs. cbn. unfold evaluateToolCondition. cbn. by rewrite Hs. Qed.

(** X18. When [String(s)] is [s] for strings, the preset
    policies decide a call by its tool name alone: the read-only policy
    allows it exactly when the name contains read, get, list or watch, and
    denies it otherwise; the executor policy requires approval when the
    name contains execute, else allows it when the name contains webhook or
    file_write, else denies it; the approval-required policy requires
    approval for every call. None of them throws, and the call is allowed
    only where the action is allow. *)
Theorem presets_decide_by_tool_name (policyId : string) (agent : Agent)
    (toolName : string) (params : gmap string JSValue) (now : Z) :
  String_of_string →
  let has := λ needle, includes needle toolName in
  decides (createReadOnlyPolicy policyId) agent toolName params now
    (if has "read" || has "get" || has "list" || has "watch" then allow else deny)
  ∧ decides (createExecutorPolicy policyId) agent toolName params now
      (if has "execute" then require_approval
       else if has "webhook" || has "file_write" then allow else deny)
  ∧ decides (createApprovalRequiredPolicy policyId) agent toolName params now
      require_approval.
Proof.
  intros Hs has.
  assert (Hrule : ∀ ruleId ruleName needle a prio,
    evaluateCondition (condition (contains_rule ruleId ruleName needle a prio))
      {| ctx_agent := agent; ctx_toolName := toolName; ctx_params := params;
         ctx_timestamp := now |} = inr (has needle)).
  { intros. by rewrite includes_contains_rule. }
  unfold decides, checkPermission. split; [|split].
  - unfold evaluate, createReadOnlyPolicy. cbn [rules Policy.new cfg_rules].
    change (sort_rules _) with
      [contains_rule "allow-read" "Allow Read Operations" "read" allow 100;
       contains_rule "allow-get" "Allow Get Operations" "get" allow 100;
       contains_rule "allow-list" "Allow List Operations" "list" allow 100;
       contains_rule "allow-watch" "Allow Watch Operations" "watch" allow 100].
    cbn [first_match]. rewrite !Hrule.
    destruct (has "read"); [by eexists|].
    destruct (has "get"); [by eexists|].
    destruct (has "list"); [by eexists|].
    destruct (has "watch"); by eexists.
  - unfold evaluate, createExecutorPolicy. cbn [rules Policy.new cfg_rules].
    change (sort_rules _) with
      [contains_rule "allow-execute" "Allow Execute Operations" "execute"
         require_approval 100;
       contains_rule "allow-webhook" "Allow Webhook Operations" "webhook" allow 90;
       contains_rule "allow-file" "Allow File Write to Reports" "file_write" allow 90].
    cbn [first_match]. rewrite !Hrule.
    destruct (has "execute"); [by eexists|].
    destruct (has "webhook"); [by eexists|].
    destruct (has "file_write"); by eexists.
  - by eexists.
Qed.

End Inert.

Lemma unsupported_rule_changes_nothing_witness :
  let config := {| cfg_id := "p1"; cfg_name := "sample"; cfg_description := None;
                   cfg_defaultAction := Some allow;
                   cfg_rules := Some [tool_rule "r1" contains "read" allow 100] |} in
  let curfew := {| id := "night"; name := "No writes at night"; description := None;
                   condition := {| type := time; operator := gt; value := JNum 22;
                                   field := None |};
                   action := deny; priority := 1000 |} in
  never_matches (condition curfew) = true
  ∧ @evaluate sample_host (snd (addRule curfew (add_all [] (Policy.new config))))
      sample_agent "file_write" ∅ 0
    = @evaluate sample_host (add_all [] (Policy.new config))
        sample_agent "file_write" ∅ 0.
Proof.
  cbn zeta. split; [reflexivity|].
  apply (@unsupported_rule_changes_nothing sample_host
           {| cfg_id := "p1"; cfg_name := "sample"; cfg_description := None;
              cfg_defaultAction := Some allow;
              cfg_rules := Some [tool_rule "r1" contains "read" allow 100] |} []
           {| id := "night"; name := "No writes at night"; description := None;
              condition := {| type := time; operator := gt; value := JNum 22;
                              field := None |};
              action := deny; priority := 1000 |}
           sample_agent "file_write" ∅ 0%Z).
  reflexivity.
Defined.

Lemma presets_decide_by_tool_name_witness :
  @String_of_string sample_host
  ∧ @decides sample_host (createReadOnlyPolicy "p") sample_agent
      "execute_thread_dump" ∅ 0 allow
  ∧ @decides sample_host (createExecutorPolicy "p") sample_agent
      "execute_thread_dump" ∅ 0 require_approval
  ∧ @decides sample_host (createApprovalRequiredPolicy "p") sample_agent
      "execute_thread_dump" ∅ 0 require_approval.
Proof.
  assert (Hs : @String_of_string sample_host) by (by intros s).
  split; [exact Hs|].
  exact (@presets_decide_by_tool_name sample_host "p" sample_agent
           "execute_thread_dump" ∅ 0%Z Hs).
Defined.

End PolicyFacts.

(* ===================================================================== *)
(** * Properties of the task manager                                     *)
(* ===================================================================== *)

Module TaskManagerFacts.
Import Task TaskManager.

Lemma cancel_live (now : Z) (task : Task) :
  isTerminal task = false →
  call (Cancel now) task = (inr tt, cancelled_at now task).
Proof.
  intros Hlive. unfold call, cancel, bind, gets, modify. by rewrite Hlive.
Qed.

Lemma cancelled_at_terminal (now : Z) (task : Task) :
  isTerminal (cancelled_at now task) = true.
Proof. by rewrite TaskFacts.isTerminal_status. Qed.

Lemma filter_agree {A} (P1 P2 : A → Prop) `{!∀ x, Decision (P1 x)}
    `{!∀ x, Decision (P2 x)} (l : list A) :
  Forall (λ x, P1 x ↔ P2 x) l → filter P1 l = filter P2 l.
Proof.
  induction 1 as [|x l Hx Hl IH]; [done|].
  rewrite !filter_cons, IH. by repeat case_decide; try tauto.
Qed.

Section Manager.
Context `{Collaborators}.
Implicit Types (tm : TaskManager) (w : World).

Lemma syncToDb_returns taskId tm w :
  (has_db tm = true → storage_accepts_updates) →
  ∃ w', syncToDb taskId (tm, w) = (inr tt, (tm, w')).
Proof.
  intros Hdb. unfold syncToDb, bind, in_local, get. cbn.
  destruct (has_db tm) eqn:Hhas; cbn; [|by eexists].
  destruct (tasks tm !! taskId) as [task|]; [|by eexists].
  unfold in_world.
  match goal with |- context [db_tasks_update ?a ?b w] =>
    destruct (Hdb eq_refl a b w) as (changed & w' & ->) end.
  by eexists.
Qed.

Lemma live_insert_ne tm taskId task other :
  other ≠ taskId →
  live (set_tasks (<[taskId := task]> (tasks tm)) tm) other = live tm other.
Proof. intros Hne. unfold live. cbn. by rewrite lookup_insert_ne. Qed.

Lemma cancel_each_spec (taskIds : list string) (cancelled : nat) tm w :
  (has_db tm = true → storage_accepts_updates) →
  NoDup taskIds →
  ∃ tm' w',
    cancel_each taskIds cancelled (tm, w)
    = (inr (cancelled + length (filter (λ taskId, live tm taskId = true) taskIds))%nat,
       (tm', w'))
    ∧ tasksByRun tm' = tasksByRun tm
    ∧ has_db tm' = has_db tm
    ∧ (∀ taskId task,
         tasks tm !! taskId = Some task → taskId ∈ taskIds →
         isTerminal task = false →
         ∃ now, tasks tm' !! taskId = Some (cancelled_at now task))
    ∧ (∀ taskId,
         taskId ∉ taskIds ∨ live tm taskId = false →
         tasks tm' !! taskId = tasks tm !! taskId).
Proof.
  intros Hdb Hnodup. revert cancelled tm w Hdb.
  induction Hnodup as [|taskId rest Hfresh Hnodup IH]; intros cancelled tm w Hdb.
  { exists tm, w. cbn. rewrite Nat.add_0_r. repeat split; try done.
    intros ? ? _ Hin. by apply elem_of_nil in Hin. }
  cbn [cancel_each]. unfold bind at 1. unfold in_local at 1, get at 1.
  cbn [fst snd].
  rewrite filter_cons.
  assert (Hlv : live tm taskId
                  = match tasks tm !! taskId with
                    | Some task => negb (isTerminal task) | None => false end)
    by done.
  destruct (tasks tm !! taskId) as [task|] eqn:Htask.
  2: { destruct (IH cancelled tm w Hdb) as (tm' & w' & -> & Hruns & Hhas & Hin & Hout).
       rewrite decide_False by (by rewrite Hlv).
       exists tm', w'. repeat split; try done.
       - intros id t Hid Hmem Hlive.
         apply elem_of_cons in Hmem as [->|Hmem]; [congruence|]. by eapply Hin.
       - intros id [Hno|Hdead]; apply Hout; [left|by right].
         intros Hmem. apply Hno. by right. }
  destruct (isTerminal task) eqn:Hterm; cbn [negb] in *.
  { destruct (IH cancelled tm w Hdb) as (tm' & w' & -> & Hruns & Hhas & Hin & Hout).
    rewrite decide_False by (by rewrite Hlv).
    exists tm', w'. repeat split; try done.
    - intros id t Hid Hmem Hlive.
      apply elem_of_cons in Hmem as [->|Hmem]; [congruence|]. by eapply Hin.
    - intros id [Hno|Hdead]; apply Hout; [left|by right].
      intros Hmem. apply Hno. by right. }
  rewrite decide_True by done. cbn [length].
  unfold bind at 1, on_task_timed at 1.
  destruct (Date_now w) as [now w1] eqn:Hnow.
  rewrite (cancel_live now task Hterm).
  set (tm1 := set_tasks (<[taskId := cancelled_at now task]> (tasks tm)) tm).
  unfold bind at 1.
  destruct (syncToDb_returns taskId tm1 w1 Hdb) as (w2 & ->).
  destruct (IH (S cancelled) tm1 w2 Hdb) as (tm' & w' & -> & Hruns & Hhas & Hin & Hout).
  exists tm', w'.
  assert (Hsame : filter (λ id, live tm1 id = true) rest
                  = filter (λ id, live tm id = true) rest).
  { apply filter_agree. apply Forall_forall. intros id Hid.
    unfold tm1. rewrite live_insert_ne; [done|]. by intros ->. }
  rewrite Hsame. split; [f_equal; f_equal; lia|].
  split; [done|]. split; [done|]. split.
  - intros id t Hid Hmem Hlive.
    apply elem_of_cons in Hmem as [->|Hmem].
    + exists now. rewrite Hout.
      * unfold tm1. cbn. rewrite lookup_insert_eq. congruence.
      * by left.
    + eapply Hin; [|done..]. unfold tm1. cbn.
      rewrite lookup_insert_ne; [done|]. by intros ->.
  - intros id Hcase.
    assert (Hne : id ≠ taskId).
    { intros ->. destruct Hcase as [Hno|Hdead].
      - apply Hno. by left.
      - congruence. }
    rewrite Hout.
    + unfold tm1. cbn. by rewrite lookup_insert_ne.
    + destruct Hcase as [Hno|Hdead].
      * left. intros Hmem. apply Hno. by right.
      * right. unfold tm1. by rewrite live_insert_ne.
Qed.

(** C7, as the code has it. [cancelRunTasks(runId)] cancels the tasks
    registered under the run that are not terminal, and those only: it
    returns their number, each of them is left cancelled with its
    completion time stamped, and every other task is left as it was, be it
    terminal or registered under another run. The loop does not follow the
    child links: a descendant is cancelled when it is itself registered
    under the run. Stated for a manager whose storage, if it has one,
    accepts the updates, and whose ids of the run form a set, as
    [set_add] keeps them. *)
Theorem cancelRunTasks_cancels_registered (runId : string) tm w :
  (has_db tm = true → storage_accepts_updates) →
  NoDup (run_ids tm runId) →
  ∃ (count : nat) tm' w',
    cancelRunTasks runId (tm, w) = (inr count, (tm', w'))
    ∧ count = length (filter (λ taskId, live tm taskId = true) (run_ids tm runId))
    ∧ tasksByRun tm' = tasksByRun tm
    ∧ (∀ taskId task,
         tasks tm !! taskId = Some task → taskId ∈ run_ids tm runId →
         isTerminal task = false →
         ∃ now, tasks tm' !! taskId = Some (cancelled_at now task))
    ∧ (∀ taskId,
         taskId ∉ run_ids tm runId ∨ live tm taskId = false →
         tasks tm' !! taskId = tasks tm !! taskId).
Proof.
  intros Hdb Hnodup. unfold cancelRunTasks, bind, in_local, get. cbn.
  destruct (cancel_each_spec (getTasksByRun tm runId) 0 tm w Hdb)
    as (tm' & w' & -> & Hruns & _ & Hin & Hout).
  { by apply NoDup_filter. }
  exists (length (filter (λ taskId, live tm taskId = true) (getTasksByRun tm runId))),
    tm', w'.
  split; [done|]. split.
  { f_equal. unfold getTasksByRun. rewrite list_filter_filter.
    apply filter_agree, Forall_forall. intros taskId _. unfold live.
    destruct (tasks tm !! taskId); [|by split; [intros [? _]|]].
    split; [by intros [? _] | by split]. }
  split; [done|]. split.
  - intros taskId task Htask Hmem Hlive. eapply Hin; [done| |done].
    unfold getTasksByRun. apply list_elem_of_filter. by rewrite Htask.
  - intros taskId Hcase. apply Hout.
    destruct Hcase as [Hno|Hdead]; [left|by right].
    unfold getTasksByRun. rewrite list_elem_of_filter. by intros [_ ?].
Qed.
End Manager.

(** [set.add] keeps the ids of a run free of repetition. *)
Lemma set_add_NoDup (x : string) (l : list string) : NoDup l → NoDup (set_add x l).
Proof.
  intros Hl. unfold set_add. case_bool_decide as Hx; [done|].
  apply NoDup_app. repeat split; [done | | apply NoDup_singleton].
  intros y Hy Hy'. apply list_elem_of_singleton in Hy'. by subst.
Qed.

Lemma sim_accepts_updates : @storage_accepts_updates Sample.sim.
Proof. intros taskId input w. by eexists _, _. Qed.

Lemma sample_run_ids : run_ids (fst Sample.parent_and_child) "r1" = ["A"].
Proof. by vm_compute. Qed.

Lemma cancelRunTasks_cancels_registered_witness :
  ∃ (count : nat) tm' w',
    @cancelRunTasks Sample.sim "r1" Sample.parent_and_child = (inr count, (tm', w'))
    ∧ count = 1%nat
    ∧ (∃ now, tasks tm' !! "A"
              = Some (cancelled_at now
                        (set_children ["B"]
                           (Task.new (Sample.task_config "A" "r1" None) EmptyString 1000))))
    ∧ tasks tm' !! "B" = tasks (fst Sample.parent_and_child) !! "B".
Proof.
  destruct (@cancelRunTasks_cancels_registered Sample.sim "r1"
              (fst Sample.parent_and_child) (snd Sample.parent_and_child))
    as (count & tm' & w' & Hrun & Hcount & _ & Hin & Hout).
  - intros _. apply sim_accepts_updates.
  - rewrite sample_run_ids. apply NoDup_singleton.
  - exists count, tm', w'. split; [exact Hrun|]. split; [by rewrite Hcount|].
    split.
    + apply Hin; [by vm_compute | | by vm_compute].
      rewrite sample_run_ids. by apply list_elem_of_singleton.
    + apply Hout. left. rewrite sample_run_ids.
      intros Hmem. by apply list_elem_of_singleton in Hmem.
Defined.

(** C7 as stated fails: task [A] of run [r1] has one descendant, [B], which
    is not terminal; [cancelRunTasks("r1")] cancels one task, not two, and
    leaves [B] pending. *)
Lemma cancelRunTasks_skips_descendant :
  let before := fst Sample.parent_and_child in
  let after := fst (snd (@cancelRunTasks Sample.sim "r1" Sample.parent_and_child)) in
  (children <$> tasks before !! "A") = Some ["B"]
  ∧ (parentId <$> tasks before !! "B") = Some (Some "A")
  ∧ (isTerminal <$> tasks before !! "B") = Some false
  ∧ fst (@cancelRunTasks Sample.sim "r1" Sample.parent_and_child) = inr 1%nat
  ∧ (status <$> tasks after !! "A") = Some cancelled
  ∧ (status <$> tasks after !! "B") = Some pending.
Proof. by vm_compute. Qed.


(** [cancelTask], for comparison, follows the child links: called on [A]
    it cancels [B] as well, whatever run [B] is registered under. *)
Lemma cancelTask_follows_children :
  let after := fst (snd (@cancelTask Sample.sim 2 "A" Sample.parent_and_child)) in
  (status <$> tasks after !! "A") = Some cancelled
  ∧ (status <$> tasks after !! "B") = Some cancelled.
Proof. by vm_compute. Qed.

(** ** The other methods of the manager *)

Section Methods.
Context `{Collaborators}.
Implicit Types (tm : TaskManager) (w : World).

Lemma set_tasks_same tm taskId task :
  tasks tm !! taskId = Some task →
  set_tasks (<[taskId := task]> (tasks tm)) tm = tm.
Proof. intros Hin. unfold set_tasks. rewrite insert_id by done. by destruct tm. Qed.

Lemma syncToDb_eq taskId tm w :
  syncToDb taskId (tm, w)
  = if has_db tm
    then match tasks tm !! taskId with
         | Some task =>
             match db_tasks_update (Task.id task) (sync_input task) w with
             | (inr _, w') => (inr tt, (tm, w'))
             | (inl e, w') => (inl e, (tm, w'))
             end
         | None => (inr tt, (tm, w))
         end
    else (inr tt, (tm, w)).
Proof.
  unfold syncToDb, bind, in_local, in_world, get, ret. cbn.
  destruct (has_db tm); cbn; [|done].
  destruct (tasks tm !! taskId) as [task|]; [|done].
  fold (sync_input task).
  by destruct (db_tasks_update (Task.id task) (sync_input task) w) as [[e|b] w'].
Qed.

Lemma cancelTask_unknown_or_terminal (fuel : nat) (taskId : string) tm w :
  match tasks tm !! taskId with
  | None =>
      cancelTask fuel taskId (tm, w)
      = (inl (Error ("Task not found: " +:+ taskId)), (tm, w))
  | Some task =>
      isTerminal task = true →
      cancelTask fuel taskId (tm, w)
      = (inl (invalid_transition (Cancel (fst (Date_now w))) task), (tm, w))
  end.
Proof.
  destruct (tasks tm !! taskId) as [task|] eqn:Htask.
  - intros Hterm. destruct fuel; cbn [cancelTask];
      unfold bind at 1, in_local at 1, get; cbn [fst snd]; rewrite Htask;
      unfold bind at 1, on_task_timed; destruct (Date_now w) as [now w1];
      cbn [fst]; (rewrite TaskFacts.rejected_call;
        [by rewrite set_tasks_same|]);
      unfold permits; rewrite TaskFacts.isTerminal_status in Hterm;
      by destruct (status task).
  - destruct fuel; cbn [cancelTask]; unfold bind, in_local, get; cbn [fst snd];
      by rewrite Htask.
Qed.

(** X19. A state-changing method of the manager called
    with an id it does not know throws "Task not found: id"; called for a
    task whose status does not permit the transition, it throws the error of
    the task's method. In both cases the manager and the world are as
    before: the clock has not advanced and storage has not been asked to
    write anything. *)
Theorem manager_call_unknown_or_refused (taskId : string) (c : ManagerCall) tm w :
  match tasks tm !! taskId with
  | None =>
      manager_call taskId c (tm, w)
      = (inl (Error ("Task not found: " +:+ taskId)), (tm, w))
      ∧ ∀ fuel, cancelTask fuel taskId (tm, w)
                = (inl (Error ("Task not found: " +:+ taskId)), (tm, w))
  | Some task =>
      let now := fst (Date_now w) in
      (permits (task_call c now) task = false →
       manager_call taskId c (tm, w)
       = (inl (invalid_transition (task_call c now) task), (tm, w)))
      ∧ (isTerminal task = true →
         ∀ fuel, cancelTask fuel taskId (tm, w)
                 = (inl (invalid_transition (Cancel now) task), (tm, w)))
  end.
Proof.
  pose proof (λ fuel, cancelTask_unknown_or_terminal fuel taskId tm w) as Hcancel.
  destruct (tasks tm !! taskId) as [task|] eqn:Htask; (split; [|by auto]).
  - intros Hno.
    destruct c; cbn [manager_call task_call] in *;
      unfold queueTask, startTask, completeTask, failTask, retryTask,
        transitionTask, bind at 1, in_local at 1, get; cbn [fst snd];
      rewrite Htask; unfold bind at 1.
    + unfold on_task, in_local.
      change queue with (Task.call Queue). rewrite TaskFacts.rejected_call by done.
      by rewrite set_tasks_same.
    + unfold on_task_timed. destruct (Date_now w) as [now w1]. cbn [fst] in Hno.
      rewrite TaskFacts.rejected_call by done. by rewrite set_tasks_same.
    + unfold on_task_timed. destruct (Date_now w) as [now w1]. cbn [fst] in Hno.
      rewrite TaskFacts.rejected_call by done. by rewrite set_tasks_same.
    + unfold on_task_timed. destruct (Date_now w) as [now w1]. cbn [fst] in Hno.
      rewrite TaskFacts.rejected_call by done. by rewrite set_tasks_same.
    + unfold on_task, in_local.
      change retry with (Task.call Retry). rewrite TaskFacts.rejected_call by done.
      by rewrite set_tasks_same.
  - destruct c; cbn [manager_call];
      unfold queueTask, startTask, completeTask, failTask, retryTask,
        transitionTask, bind, in_local, get; cbn [fst snd]; by rewrite Htask.
Qed.

(** X20. A state-changing method of the manager called for
    a known task whose status permits the transition returns, replaces the
    task by what the task's own method makes of it at the clock reading
    taken, leaves every other task and the run index alone, and, when the
    manager has storage, asks it for exactly one update, which carries the
    status, agent, output, error, retries and time stamps of the task after
    the transition. *)
Theorem manager_call_mirrors_task (taskId : string) (c : ManagerCall) tm w task :
  tasks tm !! taskId = Some task →
  permits (task_call c (fst (Date_now w))) task = true →
  (has_db tm = true → storage_accepts_updates) →
  let task' := after (task_call c (fst (Date_now w))) task in
  let w1 := if stamps_time c then snd (Date_now w) else w in
  manager_call taskId c (tm, w)
  = (inr tt,
     (set_tasks (<[taskId := task']> (tasks tm)) tm,
      if has_db tm
      then snd (db_tasks_update (Task.id task') (sync_input task') w1)
      else w1)).
Proof.
  intros Htask Hok Hdb. cbn zeta.
  assert (Hsync : ∀ tm1 w1 task1,
    has_db tm1 = has_db tm → tasks tm1 !! taskId = Some task1 →
    syncToDb taskId (tm1, w1)
    = (inr tt, (tm1, if has_db tm
                     then snd (db_tasks_update (Task.id task1) (sync_input task1) w1)
                     else w1))).
  { intros tm1 w1 task1 Hhas Hin. rewrite syncToDb_eq, Hhas, Hin.
    destruct (has_db tm) eqn:Hdb'; [|done].
    destruct (Hdb eq_refl (Task.id task1) (sync_input task1) w1) as (b & w' & ->).
    done. }
  destruct c; cbn [manager_call task_call stamps_time] in *;
    unfold queueTask, startTask, completeTask, failTask, retryTask,
      transitionTask, bind at 1, in_local at 1, get; cbn [fst snd];
    rewrite Htask; unfold bind at 1.
  - unfold on_task, in_local.
    change queue with (Task.call Queue).
    rewrite TaskLifecycleFacts.call_returns by done.
    erewrite Hsync; [done | done | cbn; by rewrite lookup_insert_eq].
  - unfold on_task_timed. destruct (Date_now w) as [now w1]. cbn [fst snd] in *.
    rewrite TaskLifecycleFacts.call_returns by done.
    erewrite Hsync; [done | done | cbn; by rewrite lookup_insert_eq].
  - unfold on_task_timed. destruct (Date_now w) as [now w1]. cbn [fst snd] in *.
    rewrite TaskLifecycleFacts.call_returns by done.
    erewrite Hsync; [done | done | cbn; by rewrite lookup_insert_eq].
  - unfold on_task_timed. destruct (Date_now w) as [now w1]. cbn [fst snd] in *.
    rewrite TaskLifecycleFacts.call_returns by done.
    erewrite Hsync; [done | done | cbn; by rewrite lookup_insert_eq].
  - unfold on_task, in_local.
    change retry with (Task.call Retry).
    rewrite TaskLifecycleFacts.call_returns by done.
    erewrite Hsync; [done | done | cbn; by rewrite lookup_insert_eq].
Qed.

Lemma createTask_eq (config : TaskConfig) tm w :
  (has_db tm = true → storage_accepts_tasks) →
  ∃ uuid now w',
    let task := Task.new config uuid now in
    let tm' := registered task tm in
    createTask config (tm, w)
    = (inr (default task (tasks tm' !! Task.id task)), (tm', w')).
Proof.
  intros Hdb. unfold createTask.
  set (first := match truthy_string (cfg_id config) with
                | Some _ => ret EmptyString
                | None => in_world (total uuidv4)
                end).
  assert (Hfirst : ∃ uuid w1, first (tm, w) = (inr uuid, (tm, w1))).
  { unfold first. destruct (truthy_string (cfg_id config)).
    - by eexists _, _.
    - unfold in_world, total. destruct (uuidv4 w) as [u w1]. by eexists _, _. }
  destruct Hfirst as (uuid & w1 & Hfirst).
  unfold bind at 1. rewrite Hfirst.
  unfold bind at 1, in_world at 1, total at 1.
  destruct (Date_now w1) as [now w2].
  exists uuid, now.
  set (task := Task.new config uuid now).
  unfold bind at 1, in_local at 1, modify at 1.
  unfold bind at 1, in_local at 1, modify at 1.
  unfold bind at 1, in_local at 1, get at 1.
  set (tm1 := set_tasks (<[Task.id task := task]> (tasks tm)) tm).
  set (tm2 := set_tasksByRun _ tm1).
  assert (Hlink : ∃ tm3, tm3 = registered task tm ∧
    (match parentId task with
     | Some parent =>
         match tasks tm2 !! parent with
         | Some parentTask => on_task parent parentTask (addChild (Task.id task))
         | None => ret tt
         end
     | None => ret tt
     end) (tm2, w2) = (inr tt, (tm3, w2))).
  { unfold registered. fold tm1. fold tm2.
    destruct (parentId task) as [parent|]; [|by eexists].
    destruct (tasks tm2 !! parent) as [parentTask|]; [|by eexists].
    eexists. split; [done|]. unfold on_task, in_local.
    change (addChild (Task.id task)) with (child_call (AddChild (Task.id task))).
    by rewrite TaskLifecycleFacts.child_call_returns. }
  destruct Hlink as (tm3 & Htm3 & Hlink).
  unfold bind at 1. rewrite Hlink.
  unfold bind at 1, in_local at 1, get at 1.
  assert (Hhas : has_db tm3 = has_db tm).
  { rewrite Htm3. unfold registered.
    destruct (parentId task); [|done]. by destruct (tasks _ !! _). }
  rewrite Hhas. destruct (has_db tm).
  - unfold bind at 1. unfold bind at 1, in_world at 1.
    match goal with |- context [db_tasks_create ?i w2] =>
      destruct (Hdb eq_refl i w2) as (row & w3 & ->) end.
    exists w3. cbn zeta. rewrite <- Htm3. reflexivity.
  - exists w2. cbn zeta. rewrite <- Htm3. reflexivity.
Qed.

Lemma addChild_frame (childId : string) (t : Task) :
  let t' := snd (addChild childId t) in
  Task.id t' = Task.id t ∧ runId t' = runId t ∧ Task.type t' = Task.type t
  ∧ status t' = status t ∧ retries t' = retries t ∧ output t' = output t
  ∧ error t' = error t ∧ parentId t' = parentId t.
Proof.
  unfold addChild, bind, gets, modify, ret. cbn. by case_bool_decide.
Qed.

(** X21. When storage, if there is one, accepts the new
    record, [createTask] returns the task it has stored under the task's
    id: a pending task with no retries, output or error, of the run, type
    and parent of the configuration, with the configuration's id when that
    is given. The task is listed by [getTasksByRun] for its run, a parent
    other than itself that the manager knows has it among its children, no
    other task and no other run's index has changed, and run indexes that
    were free of repetition still are. *)
Theorem createTask_registers (config : TaskConfig) tm w :
  (has_db tm = true → storage_accepts_tasks) →
  ∃ task tm' w',
    createTask config (tm, w) = (inr task, (tm', w'))
    ∧ tasks tm' !! Task.id task = Some task
    ∧ Task.id task ∈ getTasksByRun tm' (runId task)
    ∧ (status task = pending ∧ retries task = 0%nat ∧ output task = None
       ∧ error task = None ∧ runId task = cfg_runId config
       ∧ Task.type task = cfg_type config
       ∧ parentId task = truthy_string (cfg_parentId config)
       ∧ ∀ i, truthy_string (cfg_id config) = Some i → Task.id task = i)
    ∧ (∀ parent parentTask,
         parentId task = Some parent → parent ≠ Task.id task →
         tasks tm !! parent = Some parentTask →
         tasks tm' !! parent = Some (snd (addChild (Task.id task) parentTask)))
    ∧ (∀ k, k ≠ Task.id task → parentId task ≠ Some k →
         tasks tm' !! k = tasks tm !! k)
    ∧ (∀ r, r ≠ runId task → run_ids tm' r = run_ids tm r)
    ∧ (run_index_wf tm → run_index_wf tm').
Proof.
  intros Hdb. destruct (createTask_eq config tm w Hdb) as (uuid & now & w' & Heq).
  cbn zeta in Heq.
  set (task0 := Task.new config uuid now) in *.
  set (tm' := registered task0 tm) in *.
  set (tm1 := set_tasks (<[Task.id task0 := task0]> (tasks tm)) tm).
  set (tm2 := set_tasksByRun
                (<[Task.runId task0 := set_add (Task.id task0) (run_ids tm1 (Task.runId task0))]>
                   (tasksByRun tm1)) tm1).
  assert (Hreg : tm' = match parentId task0 with
                       | Some parent =>
                           match tasks tm2 !! parent with
                           | Some parentTask =>
                               set_tasks (<[parent := snd (addChild (Task.id task0) parentTask)]>
                                            (tasks tm2)) tm2
                           | None => tm2
                           end
                       | None => tm2
                       end) by done.
  assert (Hruns : tasksByRun tm' = tasksByRun tm2).
  { rewrite Hreg. destruct (parentId task0); [|done]. by destruct (tasks tm2 !! _). }
  assert (Hown : tasks tm2 !! Task.id task0 = Some task0)
    by (cbn; by rewrite lookup_insert_eq).
  assert (Hstored : ∃ task, tasks tm' !! Task.id task0 = Some task
            ∧ (task = task0 ∨ task = snd (addChild (Task.id task0) task0))).
  { rewrite Hreg. destruct (parentId task0) as [parent|]; [|by eauto].
    destruct (tasks tm2 !! parent) as [parentTask|] eqn:Hp; [|by eauto].
    destruct (decide (parent = Task.id task0)) as [->|Hne].
    - cbn. rewrite lookup_insert_eq. rewrite Hown in Hp. injection Hp as <-. by eauto.
    - cbn. rewrite lookup_insert_ne by done. rewrite lookup_insert_eq. by eauto. }
  destruct Hstored as (task & Hstored & Hshape).
  assert (Hfields : Task.id task = Task.id task0 ∧ runId task = runId task0
            ∧ Task.type task = Task.type task0
            ∧ status task = status task0 ∧ retries task = retries task0
            ∧ output task = output task0 ∧ error task = error task0
            ∧ parentId task = parentId task0).
  { destruct Hshape as [->| ->]; [done|]. apply addChild_frame. }
  destruct Hfields as (Hid & Hrun & Hty & Hst & Hre & Hout & Herr & Hpar).
  exists task, tm', w'. rewrite Hstored in Heq. cbn [default] in Heq.
  split; [exact Heq|]. rewrite Hid, Hrun, Hty, Hst, Hre, Hout, Herr, Hpar.
  split; [done|]. split.
  { unfold getTasksByRun. apply list_elem_of_filter. split; [by rewrite Hstored|].
    unfold run_ids. rewrite Hruns. cbn. rewrite lookup_insert_eq. cbn.
    unfold set_add. case_bool_decide; [done|]. apply elem_of_app. right. by left. }
  split.
  { repeat split; try done. intros i Hi. cbn. unfold or_string. by rewrite Hi. }
  split.
  { intros parent parentTask Hp Hne Hin. rewrite Hreg, Hp.
    assert (Hp2 : tasks tm2 !! parent = Some parentTask)
      by (cbn; by rewrite lookup_insert_ne).
    rewrite Hp2. cbn. by rewrite lookup_insert_eq. }
  split.
  { intros k Hk Hnp. rewrite Hreg.
    assert (Hk2 : tasks tm2 !! k = tasks tm !! k)
      by (cbn; by rewrite lookup_insert_ne).
    destruct (parentId task0) as [parent|]; [|done].
    destruct (tasks tm2 !! parent); [|done].
    cbn. rewrite lookup_insert_ne by congruence. by rewrite lookup_insert_ne. }
  assert (Hids : ∀ r, run_ids tm' r
            = if decide (r = runId task0)
              then set_add (Task.id task0) (run_ids tm r) else run_ids tm r).
  { intros r. unfold run_ids at 1. rewrite Hruns. unfold tm2.
    cbn [tasksByRun set_tasksByRun].
    destruct (decide (r = runId task0)) as [->|Hne].
    - rewrite lookup_insert_eq. reflexivity.
    - rewrite lookup_insert_ne by done. reflexivity. }
  split.
  { intros r Hr. by rewrite Hids, decide_False. }
  intros Hwf r. rewrite Hids. destruct (decide _); [|done].
  by apply set_add_NoDup.
Qed.

Lemma lookup_foldl_delete (taskIds : list string) (m : gmap string Task) (k : string) :
  foldl (λ m taskId, delete taskId m) m taskIds !! k
  = if decide (k ∈ taskIds) then None else m !! k.
Proof.
  revert m. induction taskIds as [|x l IH]; intros m; cbn.
  - rewrite decide_False; [done|]. apply not_elem_of_nil.
  - rewrite IH. destruct (decide (k ∈ l)) as [Hin|Hout].
    + rewrite decide_True; [done|]. by right.
    + destruct (decide (k = x)) as [->|Hne].
      * rewrite lookup_delete_eq. rewrite decide_True; [done|]. by left.
      * rewrite lookup_delete_ne by done. rewrite decide_False; [done|].
        intros [?|?]%elem_of_cons; done.
Qed.

(** X22. [clearRunTasks(runId)] never throws and does not
    touch the world, storage included: afterwards no id is indexed under
    the run, every task that was indexed under it is gone from the manager,
    every other task and every other run's index is as before, and
    [cancelRunTasks(runId)] finds nothing to cancel. *)
Theorem clearRunTasks_forgets_run (runId : string) tm w :
  ∃ tm',
    clearRunTasks runId (tm, w) = (inr tt, (tm', w))
    ∧ run_ids tm' runId = []
    ∧ (∀ k, k ∈ run_ids tm runId → tasks tm' !! k = None)
    ∧ (∀ k, k ∉ run_ids tm runId → tasks tm' !! k = tasks tm !! k)
    ∧ (∀ r, r ≠ runId → run_ids tm' r = run_ids tm r)
    ∧ cancelRunTasks runId (tm', w) = (inr 0%nat, (tm', w)).
Proof.
  unfold clearRunTasks, bind, in_local, get, modify, ret. cbn [fst snd].
  unfold run_ids.
  destruct (tasksByRun tm !! runId) as [taskIds|] eqn:Hrun; cbn [default].
  - eexists. split; [reflexivity|]. cbn [tasksByRun tasks set_tasks set_tasksByRun].
    split; [by rewrite lookup_delete_eq|].
    split. { intros k Hk. rewrite lookup_foldl_delete. by rewrite decide_True. }
    split. { intros k Hk. rewrite lookup_foldl_delete. by rewrite decide_False. }
    split. { intros r Hr. by rewrite lookup_delete_ne. }
    unfold cancelRunTasks, bind, in_local, get, getTasksByRun, run_ids.
    cbn [fst snd tasksByRun set_tasks set_tasksByRun].
    by rewrite lookup_delete_eq.
  - exists tm. split; [reflexivity|]. rewrite Hrun.
    split; [done|]. split; [by intros k ?%elem_of_nil|]. split; [done|].
    split; [done|].
    unfold cancelRunTasks, bind, in_local, get, getTasksByRun, run_ids.
    cbn [fst snd]. by rewrite Hrun.
Qed.

(** ** Cancelling a task and its children *)

Lemma only_cancelled_refl tm : only_cancelled tm tm.
Proof.
  split; [done|]. split; [done|]. intros k.
  destruct (tasks tm !! k); [by left | done].
Qed.

Lemma only_cancelled_trans tm1 tm2 tm3 :
  only_cancelled tm1 tm2 → only_cancelled tm2 tm3 → only_cancelled tm1 tm3.
Proof.
  intros (Hr1 & Hd1 & H1) (Hr2 & Hd2 & H2).
  split; [congruence|]. split; [congruence|]. intros k.
  specialize (H1 k). specialize (H2 k).
  destruct (tasks tm1 !! k) as [t|].
  - destruct H1 as [H1|(Hlive & now & H1)]; rewrite H1 in H2.
    + done.
    + destruct H2 as [H2|(Hlive2 & _)]; [right; by eauto|].
      by rewrite cancelled_at_terminal in Hlive2.
  - by rewrite H1 in H2.
Qed.

Lemma only_cancelled_terminal tm tm' k t :
  only_cancelled tm tm' → tasks tm !! k = Some t → isTerminal t = true →
  tasks tm' !! k = Some t.
Proof.
  intros (_ & _ & Hk) Hin Hterm. specialize (Hk k). rewrite Hin in Hk.
  destruct Hk as [?|(Hlive & _)]; [done | congruence].
Qed.

Lemma only_cancelled_insert tm k t now :
  tasks tm !! k = Some t → isTerminal t = false →
  only_cancelled tm (set_tasks (<[k := cancelled_at now t]> (tasks tm)) tm).
Proof.
  intros Hin Hlive. split; [done|]. split; [done|]. intros k'. cbn.
  destruct (decide (k' = k)) as [->|Hne].
  - rewrite Hin, lookup_insert_eq. right. by eauto.
  - rewrite lookup_insert_ne by done. destruct (tasks tm !! k'); [by left | done].
Qed.

(** What a task that is in the map after cancellations was before. *)
Lemma only_cancelled_present tm tm' k t' :
  only_cancelled tm tm' → tasks tm' !! k = Some t' →
  ∃ t, tasks tm !! k = Some t.
Proof.
  intros (_ & _ & Hk) Hin. specialize (Hk k).
  destruct (tasks tm !! k); [by eauto | congruence].
Qed.

Section Cascade.

Lemma cancel_children (fuel : nat) (childIds : list string) tm w :
  cancelTask_ok fuel →
  (has_db tm = true → storage_accepts_updates) →
  ∃ tm' w',
    (fix each (childIds : list string) : M (TaskManager * World) unit :=
       match childIds with
       | [] => ret tt
       | childId :: rest =>
           let* tm := in_local get in
           (match tasks tm !! childId with
            | Some child =>
                if negb (isTerminal child) then cancelTask fuel childId
                else ret tt
            | None => ret tt
            end);;
           each rest
       end) childIds (tm, w) = (inr tt, (tm', w'))
    ∧ only_cancelled tm tm'
    ∧ ∀ childId child, childId ∈ childIds → tasks tm' !! childId = Some child →
        isTerminal child = true.
Proof.
  intros Hok. revert tm w. induction childIds as [|childId rest IH]; intros tm w Hdb.
  { exists tm, w. split; [done|]. split; [apply only_cancelled_refl|].
    by intros ? ? ?%elem_of_nil. }
  unfold bind at 1, in_local at 1, get at 1. cbn [fst snd].
  assert (Hhead : ∃ tm1 w1,
    (match tasks tm !! childId with
     | Some child => if negb (isTerminal child) then cancelTask fuel childId else ret tt
     | None => ret tt
     end) (tm, w) = (inr tt, (tm1, w1))
    ∧ only_cancelled tm tm1
    ∧ ∀ child, tasks tm1 !! childId = Some child → isTerminal child = true).
  { destruct (tasks tm !! childId) as [child|] eqn:Hchild.
    - destruct (isTerminal child) eqn:Hterm; cbn [negb].
      + exists tm, w. split; [done|]. split; [apply only_cancelled_refl|]. congruence.
      + destruct (Hok childId tm w child Hdb Hchild Hterm)
          as (tm1 & w1 & -> & Honly & now & Hc).
        exists tm1, w1. split; [done|]. split; [done|].
        intros c. rewrite Hc. intros [= <-]. apply cancelled_at_terminal.
    - exists tm, w. split; [done|]. split; [apply only_cancelled_refl|]. congruence. }
  destruct Hhead as (tm1 & w1 & Hhead & Honly1 & Hterm1).
  unfold bind at 1. rewrite Hhead.
  destruct (IH tm1 w1) as (tm' & w' & -> & Honly & Hrest).
  { destruct Honly1 as (_ & -> & _). exact Hdb. }
  exists tm', w'. split; [done|]. split; [by eapply only_cancelled_trans|].
  intros c child [->|Hin]%elem_of_cons Hc; [|by eapply Hrest].
  destruct (only_cancelled_present tm1 tm' childId child Honly Hc) as [child1 Hc1].
  pose proof (Hterm1 child1 Hc1) as Ht1.
  rewrite (only_cancelled_terminal tm1 tm' childId child1 Honly Hc1 Ht1) in Hc.
  congruence.
Qed.

Lemma cancelTask_live (fuel : nat) : cancelTask_ok fuel.
Proof.
  induction fuel as [|fuel IH]; intros taskId tm w task Hdb Htask Hlive.
  - cbn [cancelTask]. unfold bind at 1, in_local at 1, get at 1. cbn [fst snd].
    rewrite Htask. unfold bind at 1, on_task_timed.
    destruct (Date_now w) as [now w1]. rewrite (cancel_live now task Hlive).
    set (tm1 := set_tasks (<[taskId := cancelled_at now task]> (tasks tm)) tm).
    unfold bind at 1.
    destruct (syncToDb_returns taskId tm1 w1 Hdb) as (w2 & ->).
    exists tm1, w2. split; [done|]. split; [by apply only_cancelled_insert|].
    exists now. unfold tm1. cbn. by rewrite lookup_insert_eq.
  - cbn [cancelTask]. unfold bind at 1, in_local at 1, get at 1. cbn [fst snd].
    rewrite Htask. unfold bind at 1, on_task_timed.
    destruct (Date_now w) as [now w1]. rewrite (cancel_live now task Hlive).
    set (tm1 := set_tasks (<[taskId := cancelled_at now task]> (tasks tm)) tm).
    unfold bind at 1.
    destruct (syncToDb_returns taskId tm1 w1 Hdb) as (w2 & ->).
    destruct (cancel_children fuel (children task) tm1 w2 IH Hdb)
      as (tm' & w' & -> & Honly & _).
    exists tm', w'. split; [done|].
    assert (Hfirst : only_cancelled tm tm1) by (by apply only_cancelled_insert).
    split; [by eapply only_cancelled_trans|].
    exists now. eapply only_cancelled_terminal; [exact Honly | | apply cancelled_at_terminal].
    unfold tm1. cbn. by rewrite lookup_insert_eq.
Qed.

(** X23. When storage, if there is one, accepts the
    updates, [cancelTask] called for a task that is not terminal returns:
    the task is then cancelled with the time stamped, every child of it
    that the manager knows is terminal, and nothing else has happened to
    the manager than tasks that were not terminal being cancelled. *)
Theorem cancelTask_cancels_children (fuel : nat) (taskId : string) tm w task :
  (has_db tm = true → storage_accepts_updates) →
  tasks tm !! taskId = Some task → isTerminal task = false →
  ∃ tm' w',
    cancelTask (S fuel) taskId (tm, w) = (inr tt, (tm', w'))
    ∧ (∃ now, tasks tm' !! taskId = Some (cancelled_at now task))
    ∧ (∀ childId child,
         childId ∈ children task → tasks tm' !! childId = Some child →
         isTerminal child = true)
    ∧ only_cancelled tm tm'.
Proof.
  intros Hdb Htask Hlive.
  cbn [cancelTask]. unfold bind at 1, in_local at 1, get at 1. cbn [fst snd].
  rewrite Htask. unfold bind at 1, on_task_timed.
  destruct (Date_now w) as [now w1]. rewrite (cancel_live now task Hlive).
  set (tm1 := set_tasks (<[taskId := cancelled_at now task]> (tasks tm)) tm).
  unfold bind at 1.
  destruct (syncToDb_returns taskId tm1 w1 Hdb) as (w2 & ->).
  destruct (cancel_children fuel (children task) tm1 w2 (cancelTask_live fuel) Hdb)
    as (tm' & w' & -> & Honly & Hchildren).
  exists tm', w'. split; [done|].
  assert (Hfirst : only_cancelled tm tm1) by (by apply only_cancelled_insert).
  split.
  { exists now. eapply only_cancelled_terminal; [exact Honly | | apply cancelled_at_terminal].
    unfold tm1. cbn. by rewrite lookup_insert_eq. }
  split; [done|]. by eapply only_cancelled_trans.
Qed.

End Cascade.

End Methods.

Lemma sim_accepts_tasks : @storage_accepts_tasks Sample.sim.
Proof. intros input w. by eexists _, _. Qed.

Lemma manager_call_unknown_or_refused_witness :
  @manager_call Sample.sim "Z" (StartTask None) Sample.parent_and_child
  = (inl (Error "Task not found: Z"), Sample.parent_and_child)
  ∧ @manager_call Sample.sim "A" (CompleteTask "{}") Sample.parent_and_child
    = (inl (Error "Cannot complete task in status: pending"), Sample.parent_and_child).
Proof.
  pose proof (@manager_call_unknown_or_refused Sample.sim "Z" (StartTask None)
                (fst Sample.parent_and_child) (snd Sample.parent_and_child)) as HZ.
  pose proof (@manager_call_unknown_or_refused Sample.sim "A" (CompleteTask "{}")
                (fst Sample.parent_and_child) (snd Sample.parent_and_child)) as HA.
  split.
  - exact (proj1 HZ).
  - exact (proj1 HA eq_refl).
Defined.

Lemma sample_task_A :
  tasks (fst Sample.parent_and_child) !! "A"
  = Some (set_children ["B"]
            (Task.new (Sample.task_config "A" "r1" None) EmptyString 1000)).
Proof. by vm_compute. Qed.

Lemma manager_call_mirrors_task_witness :
  ∃ tm' w',
    @manager_call Sample.sim "A" (StartTask (Some "agent-7")) Sample.parent_and_child
    = (inr tt, (tm', w'))
    ∧ (status <$> tasks tm' !! "A") = Some running
    ∧ (agentId <$> tasks tm' !! "A") = Some (Some "agent-7")
    ∧ last (Sample.sim_updates w')
      = Some ("A", {| uti_status := Some "running"; uti_agentId := Some (Some "agent-7");
                      uti_output := Some None; uti_error := Some None;
                      uti_retries := Some 0%nat; uti_startedAt := Some (Some 1002%Z);
                      uti_completedAt := Some None |}).
Proof.
  eexists _, _. split.
  - apply (@manager_call_mirrors_task Sample.sim "A" (StartTask (Some "agent-7"))
             (fst Sample.parent_and_child) (snd Sample.parent_and_child) _ sample_task_A).
    + reflexivity.
    + intros _. apply sim_accepts_updates.
  - by vm_compute.
Defined.

Lemma createTask_registers_witness :
  ∃ task tm' w',
    @createTask Sample.sim (Sample.task_config "C" "r1" (Some "A")) Sample.parent_and_child
    = (inr task, (tm', w'))
    ∧ tasks tm' !! Task.id task = Some task
    ∧ Task.id task ∈ getTasksByRun tm' (runId task)
    ∧ status task = pending.
Proof.
  destruct (@createTask_registers Sample.sim (Sample.task_config "C" "r1" (Some "A"))
              (fst Sample.parent_and_child) (snd Sample.parent_and_child))
    as (task & tm' & w' & Hrun & Hstored & Hindexed & (Hstatus & _) & _).
  - intros _. apply sim_accepts_tasks.
  - exists task, tm', w'. repeat split; done.
Defined.

Lemma cancelTask_cancels_children_witness :
  ∃ tm' w',
    @cancelTask Sample.sim 1 "A" Sample.parent_and_child = (inr tt, (tm', w'))
    ∧ (∀ child, tasks tm' !! "B" = Some child → isTerminal child = true).
Proof.
  destruct (@cancelTask_cancels_children Sample.sim 0 "A"
              (fst Sample.parent_and_child) (snd Sample.parent_and_child)
              (set_children ["B"]
                 (Task.new (Sample.task_config "A" "r1" None) EmptyString 1000)))
    as (tm' & w' & Hrun & _ & Hchildren & _).
  - intros _. apply sim_accepts_updates.
  - exact sample_task_A.
  - reflexivity.
  - exists tm', w'. split; [exact Hrun|].
    intros child. apply Hchildren. cbn. by left.
Defined.

(** ** Queries *)

Section Queries.
Implicit Types (x y t : Task) (l all : list Task) (q : TaskQuery).

Lemma compare_tasks_le x y :
  (compare_tasks x y ≤ 0)%Z
  ↔ (priorityOrder (priority x) < priorityOrder (priority y)
     ∨ (priorityOrder (priority x) = priorityOrder (priority y)
        ∧ createdAt x ≤ createdAt y))%Z.
Proof. unfold compare_tasks. case_bool_decide; lia. Qed.

Lemma insert_task_perm x l : insert_task x l ≡ₚ x :: l.
Proof.
  induction l as [|y l IH]; cbn; [done|].
  case_bool_decide; [|done]. rewrite IH. apply Permutation_swap.
Qed.

Lemma sort_tasks_perm l : sort_tasks l ≡ₚ l.
Proof.
  induction l as [|x l IH]; [done|]. cbn.
  by rewrite insert_task_perm, IH.
Qed.

Lemma insert_task_ordered x l : in_query_order l → in_query_order (insert_task x l).
Proof.
  unfold in_query_order. induction 1 as [|y l Hl IH Hy]; cbn.
  - repeat constructor.
  - case_bool_decide as Hgt.
    + constructor; [done|]. apply Forall_forall. intros z Hz.
      rewrite insert_task_perm in Hz. apply elem_of_cons in Hz as [->|Hz].
      * apply compare_tasks_le. unfold compare_tasks in Hgt.
        revert Hgt. case_bool_decide; lia.
      * by eapply Forall_forall in Hy.
    + constructor; [by constructor|]. constructor; [lia|].
      eapply Forall_impl; [exact Hy|]. cbn. intros z Hz.
      apply compare_tasks_le. apply compare_tasks_le in Hz.
      assert (Hxy : (compare_tasks x y ≤ 0)%Z) by lia.
      apply compare_tasks_le in Hxy. lia.
Qed.

Lemma sort_tasks_ordered l : in_query_order (sort_tasks l).
Proof.
  induction l as [|x l IH]; [constructor|]. cbn. by apply insert_task_ordered.
Qed.

Lemma filter_when_selected {A} (key : option A) (test : A → Task → bool) l :
  filter_when key test l
  = filter (λ t, match key with Some v => test v t | None => true end = true) l.
Proof.
  destruct key as [v|]; cbn; [done|].
  induction l as [|x l IH]; [done|]. rewrite filter_cons, decide_True by done.
  by rewrite <- IH.
Qed.

Lemma filter_and (P Q : Task → bool) l :
  filter (λ t, Q t = true) (filter (λ t, P t = true) l)
  = filter (λ t, P t && Q t = true) l.
Proof.
  induction l as [|x l IH]; [done|]. rewrite !filter_cons.
  destruct (P x) eqn:HP; cbn.
  - rewrite decide_True by done. rewrite filter_cons.
    destruct (Q x) eqn:HQ; cbn.
    + rewrite !decide_True by done. by rewrite IH.
    + rewrite !decide_False by done. by rewrite IH.
  - rewrite decide_False by done. rewrite decide_False by done. by rewrite IH.
Qed.

(** The tasks a query sorts: those that pass all its filters. *)
Lemma query_eq q all :
  query q all
  = let sorted := sort_tasks (filter (λ t, selected q t = true) all) in
    match q_limit q with
    | Some limit => if bool_decide (limit = 0%Z) then sorted else slice_to limit sorted
    | None => sorted
    end.
Proof.
  unfold query. cbn zeta. rewrite !filter_when_selected, !filter_and.
  rewrite (list_filter_iff _ (λ t, selected q t = true)); [done|].
  intros t. unfold selected. by rewrite !andb_assoc.
Qed.

Lemma slice_to_prefix (limit : Z) l : ∃ n, slice_to limit l = take n l.
Proof. unfold slice_to. case_bool_decide; by eexists. Qed.

Lemma take_ordered (n : nat) l : in_query_order l → in_query_order (take n l).
Proof.
  unfold in_query_order. intros Hl. revert n.
  induction Hl as [|y l Hl IH Hy]; intros [|n]; cbn; try constructor; [done|].
  apply Forall_forall. intros z Hz. rewrite Forall_forall in Hy. apply Hy.
  apply elem_of_take in Hz as (i & Hi & _). by eapply list_elem_of_lookup_2.
Qed.

(** X24. [query(query)] returns tasks of the manager that pass
    every filter the query sets, ordered by priority (critical first) and,
    within a priority, by creation time. Without a limit, or with the limit
    0, these are all the tasks that pass the filters; a positive limit keeps
    the first [limit] of them, a negative one drops the last [-limit]. *)
Theorem query_selects_and_orders q all :
  let result := query q all in
  let unlimited := sort_tasks (filter (λ t, selected q t = true) all) in
  in_query_order result
  ∧ (∀ t, t ∈ result → t ∈ all ∧ selected q t = true)
  ∧ unlimited ≡ₚ filter (λ t, selected q t = true) all
  ∧ match q_limit q with
    | None => result = unlimited
    | Some limit =>
        if bool_decide (limit = 0%Z) then result = unlimited
        else if bool_decide (0 < limit)%Z
             then result = take (Z.to_nat limit) unlimited
                  ∧ (Z.of_nat (length result) ≤ limit)%Z
             else result = take (Z.to_nat (Z.of_nat (length unlimited) + limit)) unlimited
    end.
Proof.
  cbn zeta. rewrite query_eq. cbn zeta.
  set (unlimited := sort_tasks (filter (λ t, selected q t = true) all)).
  assert (Hord : in_query_order unlimited) by apply sort_tasks_ordered.
  assert (Hperm : unlimited ≡ₚ filter (λ t, selected q t = true) all)
    by apply sort_tasks_perm.
  assert (Hin : ∀ t, t ∈ unlimited → t ∈ all ∧ selected q t = true).
  { intros t Ht. rewrite Hperm in Ht. by apply list_elem_of_filter in Ht as [? ?]. }
  assert (Hprefix : ∀ n, in_query_order (take n unlimited)
            ∧ ∀ t, t ∈ take n unlimited → t ∈ all ∧ selected q t = true).
  { intros n. split; [by apply take_ordered|].
    intros t Ht. apply Hin.
    apply elem_of_take in Ht as (i & Hi & _). by eapply list_elem_of_lookup_2. }
  destruct (q_limit q) as [limit|]; [|done].
  case_bool_decide; [done|].
  unfold slice_to. case_bool_decide as Hneg.
  - rewrite bool_decide_eq_false_2 by lia.
    destruct (Hprefix (Z.to_nat (Z.of_nat (length unlimited) + limit))) as [? ?].
    done.
  - rewrite bool_decide_eq_true_2 by lia.
    destruct (Hprefix (Z.to_nat limit)) as [? ?].
    split; [done|]. split; [done|]. split; [done|]. split; [done|].
    rewrite length_take. lia.
Qed.

End Queries.

End TaskManagerFacts.

(* ===================================================================== *)
(** * Facts: policy engine, tools and agents                             *)
(* ===================================================================== *)

Module PolicyEngineFacts.
Import Policy PolicyEngine.

Lemma in_use_spec policyId e :
  in_use policyId e = true
  ↔ ∃ agentId, agentPolicies e !! agentId = Some policyId.
Proof.
  unfold in_use. rewrite existsb_exists. split.
  - intros ([agentId pid] & Hin & Hpid). apply bool_decide_eq_true in Hpid.
    cbn in Hpid. subst pid. exists agentId.
    apply elem_of_map_to_list. by apply list_elem_of_In.
  - intros (agentId & Hbound). exists (agentId, policyId). split.
    + apply list_elem_of_In. by apply elem_of_map_to_list.
    + by apply bool_decide_eq_true.
Qed.

Lemma engine_call_invariant c e :
  bindings_registered e ∧ keyed_by_id e →
  bindings_registered (engine_call c e) ∧ keyed_by_id (engine_call c e).
Proof.
  intros [Hbound Hkeyed]. destruct c as [policy|policyId|agentId policyId|agentId]; cbn.
  - split.
    + intros a pid Ha. cbn in *.
      destruct (decide (pid = policy_id policy)) as [->|Hne].
      * rewrite lookup_insert_eq. by eexists.
      * rewrite lookup_insert_ne by done. by eapply Hbound.
    + intros pid p. cbn.
      destruct (decide (pid = policy_id policy)) as [->|Hne].
      * rewrite lookup_insert_eq. by intros [= <-].
      * rewrite lookup_insert_ne by done. apply Hkeyed.
  - unfold unregisterPolicy, bind, get. cbn.
    destruct (in_use policyId e) eqn:Huse; cbn; [done|].
    split.
    + intros a pid Ha. cbn in *.
      destruct (decide (pid = policyId)) as [->|Hne].
      * assert (in_use policyId e = true) by (apply in_use_spec; by eexists).
        congruence.
      * rewrite lookup_delete_ne by done. by eapply Hbound.
    + intros pid p. cbn. intros Hp. apply lookup_delete_Some in Hp as [_ Hp].
      by apply Hkeyed.
  - unfold assignPolicy, bind, get. cbn.
    destruct (policies e !! policyId) as [policy|] eqn:Hp; cbn; [|done].
    split; [|done].
    intros a pid. cbn. destruct (decide (a = agentId)) as [->|Hne].
    + rewrite lookup_insert_eq. intros [= <-]. by eexists.
    + rewrite lookup_insert_ne by done. apply Hbound.
  - split; [|done]. intros a pid. cbn. intros Ha.
    apply lookup_delete_Some in Ha as [_ Ha]. by eapply Hbound.
Qed.

Lemma engine_call_settings c e :
  defaultPolicy (engine_call c e) = defaultPolicy e
  ∧ strictMode (engine_call c e) = strictMode e.
Proof.
  destruct c as [policy|policyId|agentId policyId|agentId]; cbn; try done.
  - unfold unregisterPolicy, bind, get. cbn. by destruct (in_use policyId e).
  - unfold assignPolicy, bind, get. cbn. by destruct (policies e !! policyId).
Qed.

Lemma after_engine_calls_snoc cs c e :
  after_engine_calls (cs ++ [c]) e = engine_call c (after_engine_calls cs e).
Proof. unfold after_engine_calls. by rewrite foldl_app. Qed.

(** X25. Whatever policies are registered and unregistered
    and whatever bindings are assigned and unassigned on a new engine, every
    agent binding names a registered policy and every policy is registered
    under its own id; the default policy and the strict mode stay those of
    the configuration. So [getAgentPolicy] of an agent bound to a policy id
    other than the empty string is the policy registered under that id,
    never undefined. *)
Theorem bindings_never_dangle (config : PolicyEngineConfig) (calls : list EngineCall) :
  let e := after_engine_calls calls (new config) in
  bindings_registered e
  ∧ keyed_by_id e
  ∧ defaultPolicy e = cfg_defaultPolicy config
  ∧ strictMode e = default true (cfg_strictMode config)
  ∧ ∀ agentId policyId,
      agentPolicies e !! agentId = Some policyId → policyId ≠ EmptyString →
      ∃ policy, getAgentPolicy agentId e = Some policy
                ∧ getPolicy policyId e = Some policy
                ∧ policy_id policy = policyId.
Proof.
  cbn zeta.
  assert (Hinv : bindings_registered (after_engine_calls calls (new config))
                 ∧ keyed_by_id (after_engine_calls calls (new config))
                 ∧ defaultPolicy (after_engine_calls calls (new config))
                   = cfg_defaultPolicy config
                 ∧ strictMode (after_engine_calls calls (new config))
                   = default true (cfg_strictMode config)).
  { induction calls as [|c cs IH] using rev_ind.
    - cbn. repeat split; intros ? ? Hx; cbn in Hx; by rewrite lookup_empty in Hx.
    - rewrite after_engine_calls_snoc. destruct IH as (Hb & Hk & Hd & Hs).
      destruct (engine_call_invariant c _ (conj Hb Hk)) as [Hb' Hk'].
      destruct (engine_call_settings c (after_engine_calls cs (new config)))
        as [Hd' Hs'].
      split; [done|]. split; [done|]. split; congruence. }
  destruct Hinv as (Hb & Hk & Hd & Hs).
  split; [done|]. split; [done|]. split; [done|]. split; [done|].
  intros agentId policyId Hbound Hne.
  destruct (Hb _ _ Hbound) as [policy Hp]. exists policy.
  unfold getAgentPolicy, getPolicy. rewrite Hbound. cbn.
  rewrite decide_False by done. split; [done|]. split; [done|]. by eapply Hk.
Qed.

Section Assigned.
Context `{Host}.

(** X26. [assignPolicy(agentId, policyId)] with a non-empty
    [policyId] never throws. It returns false and changes nothing when no
    policy is registered under the id. Otherwise it returns true, and then
    [evaluate] for that agent is the evaluation by that policy, whatever the
    default policy and strict mode are; [unregisterPolicy(policyId)] returns
    false and changes nothing; and [unassignPolicy(agentId)] gives the
    engine that unassigning before the assignment gives. *)
Theorem assigned_policy_decides (e : PolicyEngine) (agent : Agent)
    (policyId toolName : string) (params : gmap string JSValue) (now : Z) :
  policyId ≠ EmptyString →
  match assignPolicy (agent_id agent) policyId e with
  | (inr true, e') =>
      ∃ policy, getPolicy policyId e = Some policy
        ∧ getAgentPolicy (agent_id agent) e' = Some policy
        ∧ evaluate e' agent toolName params now
          = Policy.evaluate policy agent toolName params now
        ∧ unregisterPolicy policyId e' = (inr false, e')
        ∧ snd (unassignPolicy (agent_id agent) e')
          = snd (unassignPolicy (agent_id agent) e)
  | (inr false, e') => getPolicy policyId e = None ∧ e' = e
  | (inl _, _) => False
  end.
Proof.
  intros Hne. unfold assignPolicy, bind, get, getPolicy. cbn.
  destruct (policies e !! policyId) as [policy|] eqn:Hp; cbn; [|done].
  exists policy. split; [done|].
  assert (Hget : getAgentPolicy (agent_id agent)
                   (set_agentPolicies (<[agent_id agent:=policyId]> (agentPolicies e)) e)
                 = Some policy).
  { unfold getAgentPolicy. cbn. rewrite lookup_insert_eq. cbn.
    by rewrite decide_False. }
  split; [done|]. split; [unfold evaluate; by rewrite Hget|]. split.
  - unfold unregisterPolicy, bind, get. cbn.
    rewrite (proj2 (in_use_spec policyId _)); [done|].
    exists (agent_id agent). cbn. by rewrite lookup_insert_eq.
  - cbn. unfold set_agentPolicies. cbn. by rewrite delete_insert_eq.
Qed.

End Assigned.

Lemma assigned_policy_decides_witness :
  "executor" ≠ EmptyString
  ∧ match assignPolicy "a1" "executor" sample_engine with
    | (inr true, e') =>
        ∃ policy, getPolicy "executor" sample_engine = Some policy
          ∧ getAgentPolicy "a1" e' = Some policy
          ∧ @evaluate sample_host e' sample_agent "execute_swap" ∅ 0
            = @Policy.evaluate sample_host policy sample_agent "execute_swap" ∅ 0
          ∧ unregisterPolicy "executor" e' = (inr false, e')
          ∧ snd (unassignPolicy "a1" e') = snd (unassignPolicy "a1" sample_engine)
    | (inr false, e') => getPolicy "executor" sample_engine = None ∧ e' = sample_engine
    | (inl _, _) => False
    end.
Proof.
  split; [done|].
  apply (@assigned_policy_decides sample_host sample_engine sample_agent
           "executor" "execute_swap" ∅ 0). done.
Defined.

End PolicyEngineFacts.

Module AgentFacts.
Import Agent.

Section Gate.
Context `{Collaborators} `{Host}.
Context {TInput TOutput : Type}.
Implicit Types (a : Agent TInput TOutput) (tool : Tool.Tool TInput TOutput).

Lemma bind_returns {S A B} (m : M S A) (k : A → M S B) (s s' : S) (b : B) :
  bind m k s = (inr b, s')
  ↔ ∃ x s0, m s = (inr x, s0) ∧ k x s0 = (inr b, s').
Proof.
  unfold bind. split.
  - destruct (m s) as [[e|x] s0]; [discriminate|]. intros Hk. by exists x, s0.
  - intros (x & s0 & -> & Hk). done.
Qed.

Lemma rethrow_returns {S A} (m : M S A) (s s' : S) (x : A) :
  try_catch m (λ thrown, throw thrown) s = (inr x, s') ↔ m s = (inr x, s').
Proof. unfold try_catch, throw. by destruct (m s) as [[e|y] s0]. Qed.

Lemma execute_returns tool (params : Params) (c : Tool.ToolContext)
    (w w' : World) (value : TOutput) :
  Tool.execute tool params c w = (inr value, w')
  ↔ ∃ data output,
      Tool.inputSchema tool params = inr data
      ∧ Tool._executeFn tool data c w = (inr output, w')
      ∧ Tool.outputSchema tool output = inr value.
Proof.
  unfold Tool.execute. split.
  - destruct (Tool.inputSchema tool params) as [msg|data]; [discriminate|].
    intros Hrun. apply bind_returns in Hrun as (output & w0 & Hfn & Hout).
    exists data, output.
    destruct (Tool.outputSchema tool output) as [msg|data']; [discriminate|].
    unfold ret in Hout. by injection Hout as <- <-.
  - intros (data & output & -> & Hfn & Hout).
    apply bind_returns. exists output, w'. split; [done|]. by rewrite Hout.
Qed.

Lemma policy_allows_returns (policy : Policy.Policy) a (toolName : string)
    (params : Params) (w w0 : World) (allowed : bool) :
  policy_allows policy a toolName params w = (inr allowed, w0)
  ↔ w0 = snd (Date_now w)
    ∧ Policy.checkPermission policy (as_subject a) toolName params
        (fst (Date_now w)) = inr allowed.
Proof.
  unfold policy_allows, bind, total, throw, ret.
  destruct (Date_now w) as [now w1]. cbn.
  destruct (Policy.checkPermission policy (as_subject a) toolName params now)
    as [thrown|b]; split.
  - discriminate.
  - by intros [_ ?].
  - by intros [= <- <-].
  - by intros [-> [= ->]].
Qed.

Lemma executeTool_returns a (toolName : string) (params : Params)
    (context : AgentContext) (w w' : World) (value : TOutput) :
  executeTool a toolName params context w = (inr value, w')
  ↔ ∃ tool data output w0,
      gate_passes a toolName params tool w w0
      ∧ Tool.inputSchema tool params = inr data
      ∧ Tool._executeFn tool data (tool_context a context) w0 = (inr output, w')
      ∧ Tool.outputSchema tool output = inr value.
Proof.
  assert (Hcan : canExecute a = true ↔ _status a = idle ∨ _status a = running).
  { unfold canExecute. rewrite orb_true_iff, !bool_decide_eq_true. done. }
  unfold executeTool, gate_passes. split.
  - destruct (_tools a !! toolName) as [tool|] eqn:Htool; [|discriminate].
    destruct (canExecute a) eqn:Hstatus; [|discriminate]. cbn [negb].
    intros Hrun. apply bind_returns in Hrun as ([] & w0 & Hgate & Hrun).
    apply rethrow_returns, execute_returns in Hrun as (data & output & Hin & Hfn & Hout).
    exists tool, data, output, w0.
    split; [|done]. split; [done|]. split; [by apply Hcan|].
    destruct (_policy a) as [policy|].
    + apply bind_returns in Hgate as (allowed & w1 & Hallowed & Hgate).
      destruct allowed; [|discriminate]. cbn in Hgate. unfold ret in Hgate.
      injection Hgate as ->. by apply policy_allows_returns.
    + unfold ret in Hgate. by injection Hgate as ->.
  - intros (tool & data & output & w0 & (Htool & Hstatus & Hpolicy) & Hin & Hfn & Hout).
    rewrite Htool. rewrite (proj2 Hcan Hstatus). cbn [negb].
    apply bind_returns. exists tt, w0. split.
    + destruct (_policy a) as [policy|]; [|by subst w0].
      apply bind_returns. exists true, w0. split; [|done].
      by apply policy_allows_returns.
    + apply rethrow_returns, execute_returns. by exists data, output.
Qed.

Lemma executeTool_refused a (toolName : string) (params : Params)
    (context : AgentContext) (w : World) :
  (∀ tool w0, ¬ gate_passes a toolName params tool w w0) →
  ∃ thrown w0, executeTool a toolName params context w = (inl thrown, w0)
               ∧ (w0 = w ∨ w0 = snd (Date_now w)).
Proof.
  intros Hgate. unfold executeTool.
  destruct (_tools a !! toolName) as [tool|] eqn:Htool;
    [|eexists _, _; split; [reflexivity|by left]].
  destruct (canExecute a) eqn:Hstatus; cbn [negb];
    [|eexists _, _; split; [reflexivity|by left]].
  assert (Hcan : _status a = idle ∨ _status a = running).
  { unfold canExecute in Hstatus.
    apply orb_true_iff in Hstatus as [?%bool_decide_eq_true | ?%bool_decide_eq_true];
      [by left | by right]. }
  destruct (_policy a) as [policy|] eqn:Hpolicy.
  - unfold bind at 1. unfold bind at 1.
    destruct (policy_allows policy a toolName params w) as [[thrown|allowed] w0]
      eqn:Hallowed.
    + exists thrown, w0. split; [done|]. right.
      unfold policy_allows, bind, total, throw, ret in Hallowed.
      destruct (Date_now w) as [now w1]. cbn in *.
      destruct (Policy.checkPermission _ _ _ _ _); congruence.
    + apply policy_allows_returns in Hallowed as [-> Hallowed].
      destruct allowed; cbn [negb].
      * exfalso. apply (Hgate tool (snd (Date_now w))).
        unfold gate_passes. rewrite Hpolicy. done.
      * eexists _, _. split; [reflexivity|by right].
  - exfalso. apply (Hgate tool w). unfold gate_passes. by rewrite Hpolicy.
Qed.

(** X27. [executeTool] returns a value exactly when the tool is
    registered with the agent, the agent is idle or running, its policy, if
    it has one, allows the call (an action of require_approval does not),
    the parameters pass the tool's input schema, the tool's function
    returns, and its result passes the output schema; the value is the
    parsed result, and the function was given the parsed input and a
    context with the agent's id. When the tool is missing, the status is
    another one or the policy does not allow the call, [executeTool] throws
    and the tool's function has not run: the world is as before, up to the
    one clock reading of the policy. *)
Theorem executeTool_gated a (toolName : string) (params : Params)
    (context : AgentContext) (w : World) :
  (∀ (value : TOutput) (w' : World),
     executeTool a toolName params context w = (inr value, w')
     ↔ ∃ tool data output w0,
         gate_passes a toolName params tool w w0
         ∧ Tool.inputSchema tool params = inr data
         ∧ Tool._executeFn tool data (tool_context a context) w0 = (inr output, w')
         ∧ Tool.outputSchema tool output = inr value)
  ∧ ((∀ tool w0, ¬ gate_passes a toolName params tool w w0) →
     ∃ thrown w0, executeTool a toolName params context w = (inl thrown, w0)
                  ∧ (w0 = w ∨ w0 = snd (Date_now w))).
Proof.
  split.
  - intros value w'. apply executeTool_returns.
  - apply executeTool_refused.
Qed.

End Gate.

End AgentFacts.

(* ===================================================================== *)
(** * Properties of the orchestrator and of the workflow runner          *)
(* ===================================================================== *)

Module OrchestratorFacts.
Import Orchestrator.

Section Entry.
Context `{Collaborators}.

End Entry.


(** ** Cancelling the run *)

Section CancelFacts.
Context `{Collaborators}.
Implicit Types (o : Orchestrator) (tm : TaskManager.TaskManager) (w : World).

(** X28. [cancel()] on an orchestrator that is not
    running, or that has no run id, does nothing at all. On a running one,
    when storage accepts the updates, it returns with the orchestrator idle
    again and without a run id: every task indexed under the run that the
    manager knows is then terminal, and nothing else has happened to the
    manager than tasks that were not terminal being cancelled. When storage
    refuses the update of the run record, [cancel()] throws and the
    orchestrator still counts as running. *)
Theorem cancel_stops_run o tm w :
  (isRunning o = false ∨ truthy_string (currentRunId o) = None →
   cancel (o, (tm, w)) = (inr tt, (o, (tm, w))))
  ∧ (∀ runId,
       isRunning o = true → truthy_string (currentRunId o) = Some runId →
       (TaskManager.has_db tm = true → TaskManager.storage_accepts_updates) →
       NoDup (TaskManager.run_ids tm runId) →
       (∀ input w0, ∃ changed w1, db_runs_update runId input w0 = (inr changed, w1)) →
       ∃ o' tm' w',
         cancel (o, (tm, w)) = (inr tt, (o', (tm', w')))
         ∧ isRunning o' = false ∧ currentRunId o' = None
         ∧ config o' = config o ∧ dryRun o' = dryRun o
         ∧ TaskManager.only_cancelled tm tm'
         ∧ ∀ taskId task,
             taskId ∈ TaskManager.run_ids tm runId →
             TaskManager.tasks tm' !! taskId = Some task →
             Task.isTerminal task = true)
  ∧ (∀ runId e,
       isRunning o = true → truthy_string (currentRunId o) = Some runId →
       (∀ input w0, ∃ w1, db_runs_update runId input w0 = (inl e, w1)) →
       ∀ r o' s', cancel (o, (tm, w)) = (r, (o', s')) → o' = o ∧ ∃ e', r = inl e').
Proof.
  split; [|split].
  - intros Hidle. unfold cancel, bind, in_local, get. cbn [fst snd].
    destruct Hidle as [-> | ->]; [done|]. by destruct (isRunning o).
  - intros runId Hrun Hid Hdb Hnodup Hupdate.
    unfold cancel. unfold bind at 1, in_local at 1, get at 1. cbn [fst snd].
    rewrite Hrun, Hid.
    unfold TaskManager.cancelRunTasks.
    unfold bind at 1, in_world at 1, bind at 1, in_local at 1, get at 1. cbn [fst snd].
    destruct (TaskManagerFacts.cancel_each_spec (TaskManager.getTasksByRun tm runId)
                0 tm w Hdb) as (tm' & w1 & Heach & Hruns & Hhas & Hin & Hout).
    { by apply NoDup_filter. }
    rewrite Heach.
    unfold bind at 1, in_world at 1, in_world at 1, total at 1.
    destruct (Date_now w1) as [now w2].
    unfold bind at 1, in_world at 1, in_world at 1.
    match goal with |- context [db_runs_update runId ?u w2] =>
      destruct (Hupdate u w2) as (b & w3 & ->) end.
    unfold bind, in_local, modify. cbn [fst snd].
    eexists _, _, _. split; [reflexivity|]. cbn.
    repeat split; try done.
    + intros taskId. destruct (TaskManager.tasks tm !! taskId) as [task|] eqn:Htask.
      * destruct (Task.isTerminal task) eqn:Hterm.
        -- left. rewrite Hout; [done|]. right. unfold TaskManager.live.
           by rewrite Htask, Hterm.
        -- destruct (decide (taskId ∈ TaskManager.getTasksByRun tm runId)) as [Hmem|Hno].
           ++ right. split; [done|]. by eapply Hin.
           ++ left. rewrite Hout; [done|]. by left.
      * rewrite Hout; [done|]. right. unfold TaskManager.live. by rewrite Htask.
    + intros taskId task Hmem Htask.
      destruct (TaskManager.tasks tm !! taskId) as [task0|] eqn:Htask0.
      * destruct (Task.isTerminal task0) eqn:Hterm.
        -- rewrite Hout in Htask.
           ++ congruence.
           ++ right. unfold TaskManager.live. by rewrite Htask0, Hterm.
        -- destruct (Hin taskId task0 Htask0) as (now' & Hc); [|done|].
           { unfold TaskManager.getTasksByRun. apply list_elem_of_filter.
             by rewrite Htask0. }
           rewrite Hc in Htask. injection Htask as <-.
           apply TaskManagerFacts.cancelled_at_terminal.
      * rewrite Hout in Htask; [congruence|]. right. unfold TaskManager.live.
        by rewrite Htask0.
  - intros runId e Hrun Hid Hupdate r o' s'.
    unfold cancel. unfold bind at 1, in_local at 1, get at 1. cbn [fst snd].
    rewrite Hrun, Hid.
    unfold bind at 1, in_world at 1.
    destruct (TaskManager.cancelRunTasks runId (tm, w)) as [[e0|count] [tm1 w1]].
    { intros [= <- <- <-]. split; [done | by eexists]. }
    unfold bind at 1, in_world at 1, in_world at 1, total at 1.
    destruct (Date_now w1) as [now w2].
    unfold bind at 1, in_world at 1, in_world at 1.
    match goal with |- context [db_runs_update runId ?u w2] =>
      destruct (Hupdate u w2) as (w3 & ->) end.
    intros [= <- <- <-]. split; [done | by eexists].
Qed.

End CancelFacts.

Lemma cancel_stops_run_witness :
  ∃ o' tm' w',
    @cancel Sample.sim (Sample.busy_orchestrator, Sample.run_tasks)
    = (inr tt, (o', (tm', w')))
    ∧ isRunning o' = false ∧ currentRunId o' = None
    ∧ ∀ task, TaskManager.tasks tm' !! "T1" = Some task → Task.isTerminal task = true.
Proof.
  destruct (proj1 (proj2 (@cancel_stops_run Sample.sim Sample.busy_orchestrator
                            (fst Sample.run_tasks) (snd Sample.run_tasks)))
              "run-0")
    as (o' & tm' & w' & Hrun & Hidle & Hnone & _ & _ & _ & Hterm).
  - reflexivity.
  - reflexivity.
  - intros _. apply TaskManagerFacts.sim_accepts_updates.
  - assert (Hids : TaskManager.run_ids (fst Sample.run_tasks) "run-0" = ["T1"])
      by (by vm_compute).
    rewrite Hids. apply NoDup_singleton.
  - intros input w0. by eexists _, _.
  - exists o', tm', w'. split; [exact Hrun|]. split; [exact Hidle|].
    split; [exact Hnone|]. intros task. apply Hterm.
    assert (Hids : TaskManager.run_ids (fst Sample.run_tasks) "run-0" = ["T1"])
      by (by vm_compute).
    rewrite Hids. by left.
Defined.

End OrchestratorFacts.

Module WorkflowRunnerFacts.
Import WorkflowRunner.

Section Runner.
Context `{Collaborators}.
Implicit Types (self : WorkflowRunner) (w : World) (locals : Locals)
  (step : WorkflowStep) (sr : StepResult).

(** A step result carries the plugin and action of its step. *)
Lemma executeStep_key self runId step input w sr w' :
  executeStep self runId step input w = (inr sr, w') →
  result_key sr = step_key step.
Proof.
  unfold executeStep, bind, total, try_catch, ret, throw.
  intros Hrun. repeat case_match; simplify_eq; reflexivity.
Qed.

Lemma error_entry_result step sr :
  result_key sr = step_key step → error_entry step sr = result_entry sr.
Proof. unfold result_key, step_key, error_entry, result_entry. by intros [= -> ->]. Qed.

(** One turn of the loop. *)
Lemma run_steps_cons self runId step rest input locals w :
  run_steps self runId (step :: rest) input (locals, w)
  = match executeStep self runId step input w with
    | (inl e, w1) => (inl e, (locals, w1))
    | (inr sr, w1) =>
        if bool_decide (sr_status sr = step_failed)
        then
          if bool_decide (plugin step = "observe")
          then (inr tt, (set_run_status run_failed
                           (push_error (error_entry step sr)
                              (push_stepResult sr locals)), w1))
          else run_steps self runId rest input
                 (push_error (error_entry step sr) (push_stepResult sr locals), w1)
        else run_steps self runId rest input (push_stepResult sr locals, w1)
    end.
Proof.
  cbn [run_steps]. unfold bind, in_world, in_local, modify.
  destruct (executeStep self runId step input w) as [[e|sr] w1]; [done|].
  by repeat case_bool_decide.
Qed.

Lemma failed_entries_cons sr l :
  failed_entries (sr :: l)
  = if bool_decide (sr_status sr = step_failed)
    then result_entry sr :: failed_entries l else failed_entries l.
Proof.
  unfold failed_entries. rewrite filter_cons.
  by case_decide; case_bool_decide.
Qed.

(** What the loop leaves behind: the results [ran] of the steps it
    executed, in order, and how it ended. *)
Lemma run_steps_spec self runId stepList input locals w :
  ∃ (ran : list StepResult) r locals' w',
    run_steps self runId stepList input (locals, w) = (r, (locals', w'))
    ∧ stepResults locals' = stepResults locals ++ ran
    ∧ errors locals' = errors locals ++ failed_entries ran
    ∧ result_key <$> ran = step_key <$> take (length ran) stepList
    ∧ (∀ i sr, ran !! i = Some sr → failed_observe sr → length ran = S i)
    ∧ ((r = inr tt ∧ status locals' = status locals
        ∧ length ran = length stepList
        ∧ Forall (λ sr, ¬ failed_observe sr) ran)
       ∨ (r = inr tt ∧ status locals' = run_failed
          ∧ ∃ sr, last ran = Some sr ∧ failed_observe sr)
       ∨ (∃ e, r = inl e ∧ status locals' = status locals
          ∧ length ran < length stepList
          ∧ Forall (λ sr, ¬ failed_observe sr) ran)).
Proof.
  revert locals w. induction stepList as [|step rest IH]; intros locals w.
  { exists [], (inr tt), locals, w. cbn. rewrite !app_nil_r.
    repeat split; try done. left. repeat split; try done. }
  rewrite run_steps_cons.
  destruct (executeStep self runId step input w) as [[e|sr] w1] eqn:Hstep.
  { exists [], (inl e), locals, w1. cbn. rewrite !app_nil_r.
    repeat split; try done. right. right. exists e. repeat split; try done. lia. }
  pose proof (executeStep_key _ _ _ _ _ _ _ Hstep) as Hkey.
  assert (Hplugin : sr_plugin sr = plugin step) by (by injection Hkey).
  destruct (bool_decide (sr_status sr = step_failed)) eqn:Hfailed.
  - apply bool_decide_eq_true in Hfailed.
    destruct (bool_decide (plugin step = "observe")) eqn:Hobserve.
    + apply bool_decide_eq_true in Hobserve.
      exists [sr], (inr tt),
        (set_run_status run_failed
           (push_error (error_entry step sr) (push_stepResult sr locals))), w1.
      split; [done|]. cbn -[failed_entries].
      rewrite failed_entries_cons, bool_decide_eq_true_2 by done.
      rewrite error_entry_result by done. rewrite Hkey.
      repeat split; try done.
      * intros [|i] sr'; [done|]. by cbn.
      * right. left. repeat split; try done. exists sr.
        repeat split; try done. congruence.
    + apply bool_decide_eq_false in Hobserve.
      destruct (IH (push_error (error_entry step sr) (push_stepResult sr locals)) w1)
        as (ran & r & locals' & w' & -> & Hres & Herr & Hkeys & Hlast & Hend).
      exists (sr :: ran), r, locals', w'. split; [done|].
      assert (Hsr : ¬ failed_observe sr) by (intros [_ ?]; congruence).
      cbn in Hres, Herr. rewrite Hres, Herr, <- !app_assoc. cbn -[failed_entries].
      rewrite failed_entries_cons, bool_decide_eq_true_2 by done.
      rewrite error_entry_result by done. rewrite Hkey, Hkeys.
      repeat split; try done.
      * intros [|i] sr'; cbn; [by intros [= <-]|].
        intros Hi Hfo. by rewrite (Hlast i sr').
      * destruct Hend as [(-> & ? & ? & ?) | [(-> & ? & sr' & Hl & ?) | (e & -> & ? & ? & ?)]].
        -- left. repeat split; try done; [lia | by constructor].
        -- right. left. repeat split; try done. exists sr'. split; [|done].
           destruct ran; [done|]. done.
        -- right. right. exists e. repeat split; try done; [lia | by constructor].
  - apply bool_decide_eq_false in Hfailed.
    destruct (IH (push_stepResult sr locals) w1)
      as (ran & r & locals' & w' & -> & Hres & Herr & Hkeys & Hlast & Hend).
    exists (sr :: ran), r, locals', w'. split; [done|].
    assert (Hsr : ¬ failed_observe sr) by (by intros [? _]).
    cbn in Hres, Herr. rewrite Hres, Herr, <- !app_assoc. cbn -[failed_entries].
    rewrite failed_entries_cons, bool_decide_eq_false_2 by done.
    rewrite Hkey, Hkeys.
    repeat split; try done.
    * intros [|i] sr'; cbn; [by intros [= <-]|].
      intros Hi Hfo. by rewrite (Hlast i sr').
    * destruct Hend as [(-> & ? & ? & ?) | [(-> & ? & sr' & Hl & ?) | (e & -> & ? & ? & ?)]].
      -- left. repeat split; try done; [lia | by constructor].
      -- right. left. repeat split; try done. exists sr'. split; [|done].
         destruct ran; [done|]. done.
      -- right. right. exists e. repeat split; try done; [lia | by constructor].
Qed.

Lemma run_steps_guarded_spec self runId stepList input w :
  ∃ locals w',
    run_steps_guarded self runId stepList input (initial_locals, w)
    = (inr tt, (locals, w'))
    ∧ run_outcome stepList (stepResults locals) (errors locals) (status locals).
Proof.
  destruct (run_steps_spec self runId stepList input initial_locals w)
    as (ran & r & locals' & w' & Hrun & Hres & Herr & Hkeys & Hlast & Hend).
  cbn in Hres, Herr. unfold run_steps_guarded, try_catch. rewrite Hrun.
  destruct Hend as [(-> & Hst & Hlen & Hall)
                   | [(-> & Hst & Hobs) | (e & -> & Hst & Hlen & Hall)]].
  - exists locals', w'. split; [done|]. rewrite Hres. repeat split; try done.
    left. by rewrite Hst, Herr.
  - exists locals', w'. split; [done|]. rewrite Hres. repeat split; try done.
    right. left. by rewrite Hst, Herr.
  - exists (push_error (message e) (set_run_status run_failed locals')), w'.
    split; [done|]. cbn -[failed_entries]. rewrite Hres, Herr.
    repeat split; try done. right. right. repeat split; try done. by exists (message e).
Qed.

Lemma run_returns self workflowId input w result w' :
  run self workflowId input w = (inr result, w') →
  ∃ workflow runId w1 locals w2,
    workflows (config self) !! workflowId = Some workflow
    ∧ run_steps_guarded self runId (steps workflow) input (initial_locals, w1)
      = (inr tt, (locals, w2))
    ∧ res_steps result = stepResults locals
    ∧ res_errors result = errors locals
    ∧ res_status result = status locals.
Proof.
  unfold run. destruct (workflows (config self) !! workflowId) as [workflow|];
    [|done].
  unfold bind at 1, total at 1. destruct (nanoid w) as [runId w0].
  unfold bind at 1. destruct (db_runs_create _ w0) as [[?|?] w0']; [done|].
  unfold bind at 1, total at 1. destruct (Date_now w0') as [startedAt w0''].
  unfold bind at 1. destruct (db_runs_update _ _ w0'') as [[?|?] w1]; [done|].
  destruct (run_steps_guarded_spec self runId (steps workflow) input w1)
    as (locals & w2 & Hloop & _).
  unfold bind at 1, with_locals. rewrite Hloop. unfold bind, total, ret.
  intros Hrest. repeat case_match; simplify_eq.
  exists workflow, runId, w1, locals, w2. repeat split; done.
Qed.

Lemma not_failed_observe_last (ran : list StepResult) :
  Forall (λ sr, ¬ failed_observe sr) ran →
  ¬ ∃ sr, last ran = Some sr ∧ failed_observe sr.
Proof.
  intros Hall (sr & Hl & Hfo). destruct (proj1 (last_Some _ _) Hl) as (l' & ->).
  rewrite Forall_app, Forall_singleton in Hall. by destruct Hall.
Qed.

Lemma failed_entry_listed (ran : list StepResult) sr :
  sr ∈ ran → sr_status sr = step_failed → result_entry sr ∈ failed_entries ran.
Proof.
  intros Hin Hf. unfold failed_entries. apply list_elem_of_fmap. exists sr.
  split; [done|]. by apply list_elem_of_filter.
Qed.

(** C2, as the code has it. The loop of [run] always hands over to the
    summary, whatever the steps do. In the result of a run, the step
    results are those of the first steps of the workflow, in list order;
    every failed step has its entry "plugin:action - message" in [errors];
    a failed step of the observe plugin makes the status failed and is the
    last step attempted; after any other step, failed or not, the run goes
    on to the next step, which leaves a result unless an error escapes it
    and is caught by [run]; and the status is completed exactly when every
    step of the workflow has a result and none is a failed observe step,
    and failed otherwise: a failed step of another plugin does not keep a
    later observe failure from failing the run. *)
Theorem run_critical_step_rule :
  (∀ self runId stepList input w,
     ∃ locals w',
       run_steps_guarded self runId stepList input (initial_locals, w)
       = (inr tt, (locals, w')))
  ∧ (∀ self workflowId input w result w',
       run self workflowId input w = (inr result, w') →
       ∃ workflow,
         workflows (config self) !! workflowId = Some workflow
         ∧ let ran := res_steps result in
           result_key <$> ran = step_key <$> take (length ran) (steps workflow)
           ∧ (∀ sr, sr ∈ ran → sr_status sr = step_failed →
                result_entry sr ∈ res_errors result)
           ∧ (∀ i sr, ran !! i = Some sr → failed_observe sr →
                res_status result = run_failed ∧ length ran = S i)
           ∧ (∀ i sr, ran !! i = Some sr → ¬ failed_observe sr →
                S i < length (steps workflow) →
                S i < length ran
                ∨ (res_status result = run_failed
                   ∧ ∃ msg, res_errors result = failed_entries ran ++ [msg]))
           ∧ (res_status result = run_completed
              ↔ length ran = length (steps workflow)
                ∧ Forall (λ sr, ¬ failed_observe sr) ran)
           ∧ (res_status result = run_completed ∨ res_status result = run_failed)).
Proof.
  split.
  { intros self runId stepList input w.
    destruct (run_steps_guarded_spec self runId stepList input w)
      as (locals & w' & Hloop & _). by exists locals, w'. }
  intros self workflowId input w result w' Hrun.
  destruct (run_returns _ _ _ _ _ _ Hrun)
    as (workflow & runId & w1 & locals & w2 & Hwf & Hloop & Hsteps & Herrs & Hst).
  destruct (run_steps_guarded_spec self runId (steps workflow) input w1)
    as (locals0 & w0 & Hloop0 & Hout).
  rewrite Hloop in Hloop0. injection Hloop0 as <- <-.
  exists workflow. split; [done|]. cbn zeta.
  rewrite Hsteps, Herrs, Hst. destruct Hout as (Hkeys & Hlast & Hend).
  set (ran := stepResults locals) in *.
  split; [done|]. split; [|split; [|split; [|split]]].
  - intros sr Hin Hf.
    destruct Hend as [(_ & -> & _) | [(_ & -> & _) | (_ & (msg & ->) & _)]];
      rewrite ?elem_of_app; eauto using failed_entry_listed.
  - intros i sr Hi Hfo. split; [|by eapply Hlast].
    destruct Hend as [(_ & _ & _ & Hall) | [(-> & _) | (-> & _)]]; try done.
    exfalso. eapply Forall_lookup_1 in Hall; [|done]. done.
  - intros i sr Hi Hnfo Hnext.
    apply lookup_lt_Some in Hi as Hlt.
    destruct Hend as [(_ & _ & Hlen & _)
                     | [(_ & _ & sr' & Hl & Hfo) | (-> & Hmsg & _)]].
    + left. lia.
    + destruct (decide (S i < length ran)) as [|Hge]; [by left|].
      exfalso. assert (Hi' : i = pred (length ran)) by lia.
      rewrite last_lookup, <- Hi', Hi in Hl. by injection Hl as ->.
    + destruct (decide (S i < length ran)); [by left | by right].
  - split.
    + intros Hc.
      destruct Hend as [(_ & _ & Hlen & Hall) | [(Hf & _) | (Hf & _)]];
        [done | congruence..].
    + intros [Hlen Hall].
      destruct Hend as [(-> & _) | [(_ & _ & Hobs) | (_ & _ & Hlt & _)]];
        [done | | lia].
      exfalso. by eapply not_failed_observe_last.
  - destruct Hend as [(-> & _) | [(-> & _) | (-> & _)]]; auto.
Qed.
End Runner.

Lemma run_critical_step_rule_witness :
  ∃ result w',
    @run Sample.sim Sample.sample_runner "audit" None Sample.troubled
    = (inr result, w')
    ∧ (∃ sr, res_steps result !! 2%nat = Some sr ∧ failed_observe sr)
    ∧ res_status result = run_failed
    ∧ length (res_steps result) = 3%nat.
Proof.
  eexists _, _. split; [by vm_compute|].
  split; [eexists; split; [by vm_compute | by split]|].
  destruct (proj2 (@run_critical_step_rule Sample.sim)
              Sample.sample_runner "audit" None Sample.troubled _ _
              ltac:(by vm_compute))
    as (workflow & _ & _ & _ & Hcritical & _).
  eapply (Hcritical 2%nat); [by vm_compute | by split].
Defined.

(** C2 as stated fails: in a run whose scoring step, of the analyze plugin,
    fails and whose second observation fails after it, a step of a plugin
    other than observe has failed and been recorded, execution has gone on
    to the next step, and the run finishes with status failed. *)
Lemma run_fails_after_other_failure :
  let result :=
    returned (fst (@run Sample.sim Sample.sample_runner "audit" None Sample.troubled)) in
  ((λ r, result_key <$> res_steps r) <$> result)
  = Some [("observe", "blocks"); ("analyze", "score"); ("observe", "mempool")]
  ∧ ((λ r, sr_status <$> res_steps r) <$> result)
    = Some [step_completed; step_failed; step_failed]
  ∧ (res_errors <$> result) = Some ["analyze:score - boom"; "observe:mempool - boom"]
  ∧ (res_status <$> result) = Some run_failed.
Proof. by vm_compute. Qed.

(** ** Runs over storage that does not throw; the summary *)

Section Reliable.
Context `{Collaborators}.
Implicit Types (self : WorkflowRunner) (w : World) (locals : Locals)
  (step : WorkflowStep) (sr : StepResult).

Lemma executeStep_contains self runId step input w :
  storage_never_throws →
  ∃ sr w',
    executeStep self runId step input w = (inr sr, w')
    ∧ result_key sr = step_key step
    ∧ step_outcome step input sr.
Proof.
  intros (Hcreate & Hupdate & _ & _ & _ & _ & _ & Hget).
  unfold executeStep.
  unfold bind at 1, total at 1. destruct (Date_now w) as [startTime w1].
  unfold bind at 1.
  match goal with |- context [db_tasks_create ?i w1] =>
    destruct (Hcreate i w1) as (task & w2 & ->) end.
  unfold bind at 1.
  match goal with |- context [db_tasks_update ?i ?u w2] =>
    destruct (Hupdate i u w2) as (b1 & w3 & ->) end.
  unfold bind at 1. destruct (Hget (plugin step) w3) as (found & w4 & ->).
  destruct found as [p|].
  - unfold try_catch.
    unfold bind at 1.
    match goal with |- context [plugin_execute p ?a ?c ?i w4] =>
      destruct (plugin_execute p a c i w4) as [[e|result] w5] eqn:Hexec end.
    + unfold bind at 1, total at 1. destruct (Date_now w5) as [endTime w6].
      unfold bind at 1.
      match goal with |- context [db_tasks_update ?i ?u w6] =>
        destruct (Hupdate i u w6) as (b2 & w7 & ->) end.
      eexists _, _. split; [reflexivity|]. split; [done|].
      right. left. by eexists _, _, _, _, _.
    + unfold bind at 1, total at 1. destruct (Date_now w5) as [endTime w6].
      unfold bind at 1.
      match goal with |- context [db_tasks_update ?i ?u w6] =>
        destruct (Hupdate i u w6) as (b2 & w7 & ->) end.
      eexists _, _. split; [reflexivity|]. split; [done|].
      right. right. by eexists _, _, _, _, _.
  - unfold bind at 1, total at 1. destruct (Date_now w4) as [failedAt w5].
    unfold bind at 1.
    match goal with |- context [db_tasks_update ?i ?u w5] =>
      destruct (Hupdate i u w5) as (b2 & w6 & ->) end.
    unfold bind at 1, total at 1. destruct (Date_now w6) as [returnedAt w7].
    eexists _, _. split; [reflexivity|]. split; [done|]. by left.
Qed.

Lemma run_steps_reliable self runId stepList input locals w :
  storage_never_throws →
  ∃ (ran : list StepResult) locals' w',
    run_steps self runId stepList input (locals, w) = (inr tt, (locals', w'))
    ∧ stepResults locals' = stepResults locals ++ ran
    ∧ errors locals' = errors locals ++ failed_entries ran
    ∧ Forall2 (λ step sr, result_key sr = step_key step ∧ step_outcome step input sr)
        (take (length ran) stepList) ran
    ∧ ((status locals' = status locals ∧ length ran = length stepList
        ∧ Forall (λ sr, ¬ failed_observe sr) ran)
       ∨ (status locals' = run_failed
          ∧ ∃ sr, last ran = Some sr ∧ failed_observe sr)).
Proof.
  intros Hdb. revert locals w.
  induction stepList as [|step rest IH]; intros locals w.
  { exists [], locals, w. cbn. rewrite !app_nil_r. repeat split; try done.
    left. repeat split; done. }
  rewrite run_steps_cons.
  destruct (executeStep_contains self runId step input w Hdb)
    as (sr & w1 & -> & Hkey & Hout).
  assert (Hplugin : sr_plugin sr = plugin step) by (by injection Hkey).
  destruct (bool_decide (sr_status sr = step_failed)) eqn:Hfailed.
  - apply bool_decide_eq_true in Hfailed.
    destruct (bool_decide (plugin step = "observe")) eqn:Hobserve.
    + apply bool_decide_eq_true in Hobserve.
      exists [sr]. eexists _, _. split; [reflexivity|]. cbn -[failed_entries].
      rewrite failed_entries_cons, bool_decide_eq_true_2 by done.
      rewrite error_entry_result by done.
      split; [done|]. split; [done|]. split.
      * rewrite take_0. constructor; [done | constructor].
      * right. split; [done|]. exists sr. repeat split; try done. congruence.
    + apply bool_decide_eq_false in Hobserve.
      destruct (IH (push_error (error_entry step sr) (push_stepResult sr locals)) w1)
        as (ran & locals' & w' & -> & Hres & Herr & Hall & Hend).
      exists (sr :: ran), locals', w'. split; [done|].
      assert (Hsr : ¬ failed_observe sr) by (intros [_ ?]; congruence).
      cbn in Hres, Herr. rewrite Hres, Herr, <- !app_assoc. cbn -[failed_entries].
      rewrite failed_entries_cons, bool_decide_eq_true_2 by done.
      rewrite error_entry_result by done.
      split; [done|]. split; [done|]. split.
      * by constructor.
      * destruct Hend as [(? & ? & ?) | (? & sr' & Hl & ?)].
        -- left. repeat split; try done; [lia | by constructor].
        -- right. split; [done|]. exists sr'. split; [|done]. by destruct ran.
  - apply bool_decide_eq_false in Hfailed.
    destruct (IH (push_stepResult sr locals) w1)
      as (ran & locals' & w' & -> & Hres & Herr & Hall & Hend).
    exists (sr :: ran), locals', w'. split; [done|].
    assert (Hsr : ¬ failed_observe sr) by (by intros [? _]).
    cbn in Hres, Herr. rewrite Hres, Herr, <- !app_assoc. cbn -[failed_entries].
    rewrite failed_entries_cons, bool_decide_eq_false_2 by done.
    split; [done|]. split; [done|]. split.
    * by constructor.
    * destruct Hend as [(? & ? & ?) | (? & sr' & Hl & ?)].
      -- left. repeat split; try done; [lia | by constructor].
      -- right. split; [done|]. exists sr'. split; [|done]. by destruct ran.
Qed.

(** X29. When no storage or registry call throws, [run]
    returns for every known workflow, whatever the plugins do. Each step
    result follows from its step: failed with "Plugin not found: name" when
    the plugin is not registered, failed with the message of the error when
    the plugin throws, completed or failed as the plugin reports otherwise.
    [errors] holds exactly the entries of the failed steps, in order; and
    the run is failed exactly when its last step result is a failed observe
    step, and otherwise completed with a result for every step. *)
Theorem run_with_reliable_storage self workflowId input w workflow :
  storage_never_throws →
  workflows (config self) !! workflowId = Some workflow →
  ∃ result w',
    run self workflowId input w = (inr result, w')
    ∧ res_workflowId result = workflowId
    ∧ res_duration result = (res_completedAt result - res_startedAt result)%Z
    ∧ res_errors result = failed_entries (res_steps result)
    ∧ Forall2 (λ step sr, result_key sr = step_key step ∧ step_outcome step input sr)
        (take (length (res_steps result)) (steps workflow)) (res_steps result)
    ∧ ((res_status result = run_completed
        ∧ length (res_steps result) = length (steps workflow)
        ∧ Forall (λ sr, ¬ failed_observe sr) (res_steps result))
       ∨ (res_status result = run_failed
          ∧ ∃ sr, last (res_steps result) = Some sr ∧ failed_observe sr)).
Proof.
  intros Hdb Hwf.
  pose proof Hdb as (_ & _ & Hrc & Hru & Hobs & Han & Hact & _).
  unfold run. rewrite Hwf.
  unfold bind at 1, total at 1. destruct (nanoid w) as [runId w0].
  unfold bind at 1.
  match goal with |- context [db_runs_create ?i w0] =>
    destruct (Hrc i w0) as (row & w1 & ->) end.
  unfold bind at 1, total at 1. destruct (Date_now w1) as [startedAt w2].
  unfold bind at 1.
  match goal with |- context [db_runs_update ?i ?u w2] =>
    destruct (Hru i u w2) as (b & w3 & ->) end.
  destruct (run_steps_reliable self runId (steps workflow) input initial_locals w3 Hdb)
    as (ran & locals & w4 & Hloop & Hres & Herr & Hall & Hend).
  cbn in Hres, Herr.
  unfold bind at 1, with_locals, run_steps_guarded, try_catch. rewrite Hloop.
  cbn [snd]. unfold bind at 1, total at 1. destruct (Date_now w4) as [completedAt w5].
  unfold bind at 1, generateSummary.
  unfold bind at 1. destruct (Hobs runId w5) as (observations & w6 & ->).
  unfold bind at 1. destruct (Han runId w6) as (analyses & w7 & ->).
  unfold bind at 1. destruct (Hact runId w7) as (actions & w8 & ->).
  unfold ret at 1. unfold bind at 1.
  match goal with |- context [db_runs_update ?i ?u w8] =>
    destruct (Hru i u w8) as (b' & w9 & ->) end.
  eexists _, _. split; [reflexivity|]. cbn [res_workflowId res_duration res_errors
    res_steps res_status res_completedAt res_startedAt].
  rewrite Hres, Herr.
  split; [done|]. split; [done|]. split; [done|]. split; [done|]. exact Hend.
Qed.

(** ** The summary *)

Lemma executeStep_status self runId step input w sr w' :
  executeStep self runId step input w = (inr sr, w') →
  sr_status sr = step_completed ∨ sr_status sr = step_failed.
Proof.
  unfold executeStep, bind, total, try_catch, ret, throw.
  intros Hrun. repeat case_match; simplify_eq; cbn; auto.
Qed.

Lemma run_steps_statuses self runId stepList input locals w :
  Forall (λ sr, sr_status sr = step_completed ∨ sr_status sr = step_failed)
    (stepResults locals) →
  Forall (λ sr, sr_status sr = step_completed ∨ sr_status sr = step_failed)
    (stepResults (fst (snd (run_steps self runId stepList input (locals, w))))).
Proof.
  revert locals w. induction stepList as [|step rest IH]; intros locals w Hall; [done|].
  rewrite run_steps_cons.
  destruct (executeStep self runId step input w) as [[e|sr] w1] eqn:Hstep; [done|].
  pose proof (executeStep_status _ _ _ _ _ _ _ Hstep) as Hsr.
  assert (Hpush : Forall (λ sr, sr_status sr = step_completed ∨ sr_status sr = step_failed)
            (stepResults locals ++ [sr])).
  { apply Forall_app. split; [done|]. by constructor. }
  repeat case_bool_decide; try (by apply IH). done.
Qed.

Lemma count_two_statuses (l : list StepResult) :
  Forall (λ sr, sr_status sr = step_completed ∨ sr_status sr = step_failed) l →
  (length (filter (λ s, sr_status s = step_completed) l)
   + length (filter (λ s, sr_status s = step_failed) l) = length l)%nat.
Proof.
  induction 1 as [|sr l Hsr Hl IH]; [done|].
  rewrite !filter_cons. destruct Hsr as [Hc|Hf].
  - rewrite decide_True, decide_False by congruence. cbn. lia.
  - rewrite decide_False, decide_True by congruence. cbn. lia.
Qed.

Lemma filter_length_le_all {A} (P : A → Prop) `{∀ x, Decision (P x)} (l : list A) :
  (length (filter P l) ≤ length l)%nat.
Proof.
  induction l as [|x l IH]; [done|]. rewrite filter_cons.
  destruct (decide (P x)); cbn; lia.
Qed.

(** X30. In the result of a run no step is reported as
    skipped: the summary's [stepsCompleted] and [stepsFailed] count the
    completed and the failed step results and add up to the number of step
    results; [stepsFailed] is also the number of entries the failed steps
    leave in [errors]; and [highScoreFindings] is at most [analysesCount]. *)
Theorem run_summary_counts self workflowId input w result w' :
  run self workflowId input w = (inr result, w') →
  let summary := res_summary result in
  stepsCompleted summary
  = length (filter (λ sr, sr_status sr = step_completed) (res_steps result))
  ∧ stepsFailed summary
    = length (filter (λ sr, sr_status sr = step_failed) (res_steps result))
  ∧ (stepsCompleted summary + stepsFailed summary = length (res_steps result))%nat
  ∧ (highScoreFindings summary ≤ analysesCount summary)%nat
  ∧ (length (failed_entries (res_steps result)) = stepsFailed summary)%nat.
Proof.
  unfold run. destruct (workflows (config self) !! workflowId) as [workflow|];
    [|done].
  unfold bind at 1, total at 1. destruct (nanoid w) as [runId w0].
  unfold bind at 1. destruct (db_runs_create _ w0) as [[?|?] w0']; [done|].
  unfold bind at 1, total at 1. destruct (Date_now w0') as [startedAt w0''].
  unfold bind at 1. destruct (db_runs_update _ _ w0'') as [[?|?] w1]; [done|].
  destruct (run_steps_guarded_spec self runId (steps workflow) input w1)
    as (locals & w2 & Hloop & _).
  assert (Hstat : Forall (λ sr, sr_status sr = step_completed ∨ sr_status sr = step_failed)
            (stepResults locals)).
  { pose proof (run_steps_statuses self runId (steps workflow) input initial_locals w1
                  (Forall_nil_2 _)) as Hall.
    revert Hloop. unfold run_steps_guarded, try_catch.
    destruct (run_steps self runId (steps workflow) input (initial_locals, w1))
      as [[e|[]] [locals0 wl]]; cbn in Hall |- *; by intros [= <- <-]. }
  unfold bind at 1, with_locals. rewrite Hloop. cbn [snd].
  unfold bind at 1, total at 1. destruct (Date_now w2) as [completedAt w3].
  unfold bind at 1, generateSummary.
  unfold bind at 1. destruct (db_observations_findByRun runId w3) as [[?|observations] w4]; [done|].
  unfold bind at 1. destruct (db_analyses_findByRun runId w4) as [[?|analyses] w5]; [done|].
  unfold bind at 1. destruct (db_actions_findByRun runId w5) as [[?|actions] w6]; [done|].
  unfold ret at 1. unfold bind at 1.
  destruct (db_runs_update _ _ w6) as [[?|?] w7]; [done|].
  intros [= <- <-]. cbn.
  split; [done|]. split; [done|]. split; [by apply count_two_statuses|].
  split; [apply filter_length_le_all|].
  unfold failed_entries. by rewrite length_fmap.
Qed.

End Reliable.

Lemma sim_never_throws : @storage_never_throws Sample.sim.
Proof. repeat split; intros; by eexists _, _. Qed.

Lemma run_with_reliable_storage_witness :
  let workflow := {| steps := [Sample.step "observe" "blocks";
                               Sample.step "analyze" "score";
                               Sample.step "observe" "mempool";
                               Sample.step "execute" "report"] |} in
  ∃ result w',
    @run Sample.sim Sample.sample_runner "audit" None (Sample.failing ["analyze:score"])
    = (inr result, w')
    ∧ res_workflowId result = "audit"
    ∧ res_duration result = (res_completedAt result - res_startedAt result)%Z
    ∧ res_errors result = failed_entries (res_steps result)
    ∧ Forall2 (λ step sr, result_key sr = step_key step
                          ∧ @step_outcome Sample.sim step None sr)
        (take (length (res_steps result)) (steps workflow)) (res_steps result)
    ∧ ((res_status result = run_completed
        ∧ length (res_steps result) = length (steps workflow)
        ∧ Forall (λ sr, ¬ failed_observe sr) (res_steps result))
       ∨ (res_status result = run_failed
          ∧ ∃ sr, last (res_steps result) = Some sr ∧ failed_observe sr)).
Proof.
  apply (@run_with_reliable_storage Sample.sim Sample.sample_runner "audit" None
           (Sample.failing ["analyze:score"])).
  - apply sim_never_throws.
  - by vm_compute.
Defined.

Lemma run_summary_counts_witness :
  ∃ result w',
    @run Sample.sim Sample.sample_runner "audit" None Sample.troubled = (inr result, w')
    ∧ (stepsCompleted (res_summary result) + stepsFailed (res_summary result)
       = length (res_steps result))%nat
    ∧ stepsFailed (res_summary result) = 2%nat.
Proof.
  eexists _, _. split; [by vm_compute|]. split; [|by vm_compute].
  pose proof (@run_summary_counts Sample.sim Sample.sample_runner "audit" None
                Sample.troubled _ _ ltac:(by vm_compute)) as (_ & _ & Hsum & _).
  exact Hsum.
Defined.

End WorkflowRunnerFacts.

(* ===================================================================== *)
(** * The repository's tests and the scenarios of the specification     *)
(* ===================================================================== *)

Module UnitTests.

(** tests/unit/task.test.ts *)
Section TaskTests.
Import Task.

Abbreviation task := Sample.test_task.

Example task_created :
  runId task = "test-run-123" ∧ status task = pending ∧ priority task = normal
  ∧ maxRetries task = 3.
Proof. by vm_compute. Qed.

Example task_pending_to_queued : status (after_all [Queue] task) = queued.
Proof. by vm_compute. Qed.

Example task_pending_to_running :
  let t := after_all [Start None 1001] task in
  status t = running ∧ startedAt t = Some 1001%Z.
Proof. by vm_compute. Qed.

Example task_completes_with_output :
  let t := after_all [Start None 1001; Complete "{result: 'success'}" 1002] task in
  status t = completed ∧ output t = Some "{result: 'success'}"
  ∧ completedAt t = Some 1002%Z.
Proof. by vm_compute. Qed.

Example task_fails_with_error :
  let t := after_all [Start None 1001; Fail "Something went wrong" 1002] task in
  status t = failed ∧ error t = Some "Something went wrong".
Proof. by vm_compute. Qed.

Example task_cancelled :
  status (after_all [Start None 1001; Cancel 1002] task) = cancelled.
Proof. by vm_compute. Qed.

Example task_retried :
  let t := after_all [Start None 1001; Fail "Error" 1002] task in
  canRetry t = true
  ∧ status (after Retry t) = pending ∧ retries (after Retry t) = 1.
Proof. by vm_compute. Qed.

(** The state the test "should not retry beyond max attempts" reaches:
    three failures and two retries with [maxRetries = 3]. The task is failed
    with [retries = 2], so [canRetry()], which compares [retries] with
    [maxRetries], still answers true; it answers false one cycle later. *)
Example task_after_three_failures :
  let t := after_all [Start None 1; Fail "Error" 2; Retry;
                      Start None 3; Fail "Error" 4; Retry;
                      Start None 5; Fail "Error" 6] task in
  status t = failed ∧ retries t = 2 ∧ canRetry t = true
  ∧ canRetry (after_all [Retry; Start None 7; Fail "Error" 8] t) = false.
Proof. by vm_compute. Qed.

End TaskTests.

(** tests/unit/retry.test.ts, the rate limiter and the circuit breaker. *)
Section ResilienceTests.

(** The function counts its calls in the world; the random draw is 0 and
    sleeping leaves the world alone. *)
Example retry_succeeds_on_first_attempt :
  Retry.withRetry (λ w, (0%Q, w)) (λ _ w, w) (Retry.flaky 0)
    Retry.sample_retry_options 0%nat
  = (inr "done", 1%nat).
Proof. by vm_compute. Qed.

Example retry_retries_on_failure :
  Retry.withRetry (λ w, (0%Q, w)) (λ _ w, w) (Retry.flaky 2)
    Retry.sample_retry_options 0%nat
  = (inr "done", 3%nat).
Proof. by vm_compute. Qed.

Example retry_throws_after_max_attempts :
  Retry.withRetry (λ w, (0%Q, w)) (λ _ w, w) Retry.hopeless
    Retry.sample_retry_options 0%nat
  = (inl (Some (Error "attempt 2")), 3%nat).
Proof. by vm_compute. Qed.

Example limiter_allows_requests_within_limit :
  let acquire := RateLimiter.acquire 0 0 0 0 in
  let limiter :=
    snd ((acquire;; acquire;; acquire;; acquire;; acquire)
           (RateLimiter.new {| RateLimiter.opt_maxRequests := 5;
                               RateLimiter.opt_windowMs := 1000 |})) in
  fst (RateLimiter.remaining 1 limiter) = inr 0%Z.
Proof. by vm_compute. Qed.

Example limiter_tracks_remaining_capacity :
  let limiter := RateLimiter.new {| RateLimiter.opt_maxRequests := 10;
                                    RateLimiter.opt_windowMs := 1000 |} in
  fst (RateLimiter.remaining 0 limiter) = inr 10%Z
  ∧ fst ((RateLimiter.acquire 1 1 1 1;; RateLimiter.acquire 2 2 2 2;;
          RateLimiter.remaining 3) limiter) = inr 8%Z.
Proof. by vm_compute. Qed.

Example limiter_resets :
  let limiter := RateLimiter.new {| RateLimiter.opt_maxRequests := 5;
                                    RateLimiter.opt_windowMs := 1000 |} in
  fst ((RateLimiter.acquire 1 1 1 1;; RateLimiter.acquire 2 2 2 2;;
        RateLimiter.reset;; RateLimiter.remaining 3) limiter) = inr 5%Z.
Proof. by vm_compute. Qed.

Import CircuitBreaker.

Abbreviation breaker := Sample.test_breaker.

Example breaker_starts_closed : getState (breaker 3 1000) = CLOSED.
Proof. reflexivity. Qed.

Example breaker_opens_after_threshold_failures :
  let once := after_execute (0, 1, failing_fn)%Z (breaker 2 1000, 0) in
  let twice := after_execute (2, 3, failing_fn)%Z once in
  getState (fst once) = CLOSED ∧ getState (fst twice) = OPEN.
Proof. by vm_compute. Qed.

Example breaker_rejects_calls_when_open :
  let opened := after_execute (0, 1, failing_fn)%Z (breaker 1 10000, 0) in
  execute 2 3 succeeding_fn opened
  = (inl (Error "Circuit breaker is open"), opened).
Proof. by vm_compute. Qed.

Example breaker_closes_after_success_in_half_open :
  let opened := after_execute (0, 1, failing_fn)%Z (breaker 1 10, 0) in
  fst (execute 21 22 succeeding_fn opened) = inr "success"
  ∧ getState (fst (snd (execute 21 22 succeeding_fn opened))) = CLOSED.
Proof. by vm_compute. Qed.

End ResilienceTests.

(** tests/integration: a workflow whose plugin is not registered. *)
Section WorkflowTests.
Import WorkflowRunner.

Abbreviation runner := Sample.error_runner.

Example runner_handles_workflow_errors :
  let result := returned (fst (@run Sample.sim runner "error_workflow" None Sample.quiet)) in
  (res_errors <$> result) = Some ["nonexistent:action - Plugin not found: nonexistent"]
  ∧ ((λ r, sr_status <$> res_steps r) <$> result) = Some [step_failed]
  ∧ (res_status <$> result) = Some run_completed.
Proof. by vm_compute. Qed.

(** The two scenarios of the specification: a two-step workflow whose
    first step, of the observe plugin, fails; and a three-step workflow in
    which only the second step, of another plugin, fails. *)
Example observe_failure_aborts :
  let result :=
    returned (fst (@run Sample.sim Sample.scenario_runner "two-steps" None
                     (Sample.failing ["observe:scan"]))) in
  (res_status <$> result) = Some run_failed
  ∧ ((λ r, result_key <$> res_steps r) <$> result) = Some [("observe", "scan")]
  ∧ (res_errors <$> result) = Some ["observe:scan - boom"].
Proof. by vm_compute. Qed.

Example other_failure_continues :
  let result :=
    returned (fst (@run Sample.sim Sample.scenario_runner "three-steps" None
                     (Sample.failing ["analyze:score"]))) in
  (res_status <$> result) = Some run_completed
  ∧ ((λ r, sr_status <$> res_steps r) <$> result)
    = Some [step_completed; step_failed; step_completed]
  ∧ ((λ r, stepsFailed (res_summary r)) <$> result) = Some 1.
Proof. by vm_compute. Qed.

End WorkflowTests.

(** An executor agent: its policy requires approval for tools that execute,
    which the agent treats as a denial, and allows webhooks. *)
Section AgentTests.

Example agent_refuses_unapproved_tool :
  let '(a, w) := Sample.executor_agent in
  fst (@Agent.executeTool Sample.sim Policy.sample_host _ _ a "execute_swap" ∅
         Sample.sample_context w)
  = inl (Error "Policy denied execution of tool: execute_swap").
Proof. by vm_compute. Qed.

Example agent_runs_allowed_tool :
  let '(a, w) := Sample.executor_agent in
  fst (@Agent.executeTool Sample.sim Policy.sample_host _ _ a "webhook_notify" ∅
         Sample.sample_context w)
  = inr "a1".
Proof. by vm_compute. Qed.

Example agent_without_tool :
  let '(a, w) := Sample.executor_agent in
  @Agent.executeTool Sample.sim Policy.sample_host _ _ a "read_file" ∅
    Sample.sample_context w
  = (inl (Error "Tool not found: read_file"), w).
Proof. by vm_compute. Qed.

Example paused_agent_cannot_execute :
  let '(a, w) := snd (@Agent.setStatus Sample.sim _ _ Agent.paused
                        Sample.executor_agent) in
  @Agent.executeTool Sample.sim Policy.sample_host _ _ a "webhook_notify" ∅
    Sample.sample_context w
  = (inl (Error "Agent cannot execute in status: paused"), w).
Proof. by vm_compute. Qed.

End AgentTests.

End UnitTests.
